(** * Calibration and retargeting core of the motion-capture suit

    A shallow embedding of the two JavaScript programs of the repository
    that calibrate and retarget sensor quaternions:

    - the browser renderer, [threejs_ybot_renderer/main.js]
      (module [Renderer]);
    - the Node CSV logger (module [Logger]).

    JavaScript numbers are modelled as real numbers: the arithmetic of the
    code ([+], [-], [*], [/], [Math.hypot], [Math.sqrt]) is exact here, so
    rounding, overflow to [Infinity] and [NaN] are outside this model; the
    range of the numbers and their special values are modelled apart, for
    the numeric kernels, in module [Double].
    JavaScript objects used as dictionaries are finite maps keyed by
    strings; mutation of a table is explicit state passing. *)

From Stdlib Require Import Reals Lra Lia.
From stdpp Require Import base option list strings gmap fin_maps.

Local Open Scope R_scope.

(** ** Plain quaternion objects [{w, x, y, z}] *)

Module Quat.
Record quat : Type := mk { w : R; x : R; y : R; z : R }.
End Quat.
Abbreviation quat := Quat.quat.

(** [Math.hypot(a, b, c, d)] *)
Definition hypot (a b c d : R) : R := sqrt (a * a + b * b + c * c + d * d).

(** Euclidean norm of a plain quaternion object. *)
Definition qnorm (q : quat) : R :=
  hypot (Quat.w q) (Quat.x q) (Quat.y q) (Quat.z q).

(** ** The part of [THREE.Quaternion] the programs call

    three.js is an external dependency; the methods below follow its
    [Quaternion] class: the constructor takes [(x, y, z, w)] and defaults to
    the identity, [multiply] is the Hamilton product [this * q], [invert]
    is the conjugate (three.js assumes unit length there), [length] is
    [Math.sqrt] of the sum of squares and [normalize] resets a zero-length
    quaternion to the identity and otherwise multiplies by [1 / length].
    [clone] and [copy] duplicate a value; with explicit value passing they
    are the identity function. *)

Module THREE.
Record Quaternion : Type := mk { _x : R; _y : R; _z : R; _w : R }.

(** [new THREE.Quaternion()] *)
Definition identity : Quaternion := mk 0 0 0 1.

Definition clone (q : Quaternion) : Quaternion := q.

Definition conjugate (q : Quaternion) : Quaternion :=
  mk (_x q * -1) (_y q * -1) (_z q * -1) (_w q).

Definition invert (q : Quaternion) : Quaternion := conjugate q.

(** [a.multiply(b)], that is [multiplyQuaternions(a, b)] *)
Definition multiply (a b : Quaternion) : Quaternion :=
  let qax := _x a in let qay := _y a in let qaz := _z a in let qaw := _w a in
  let qbx := _x b in let qby := _y b in let qbz := _z b in let qbw := _w b in
  mk (qax * qbw + qaw * qbx + qay * qbz - qaz * qby)
     (qay * qbw + qaw * qby + qaz * qbx - qax * qbz)
     (qaz * qbw + qaw * qbz + qax * qby - qay * qbx)
     (qaw * qbw - qax * qbx - qay * qby - qaz * qbz).

Definition length (q : Quaternion) : R :=
  sqrt (_x q * _x q + _y q * _y q + _z q * _z q + _w q * _w q).

Definition normalize (q : Quaternion) : Quaternion :=
  let l := length q in
  if Req_dec_T l 0 then mk 0 0 0 1
  else let l := 1 / l in mk (_x q * l) (_y q * l) (_z q * l) (_w q * l).
End THREE.

(** The getters [.w .x .y .z] of a [THREE.Quaternion], read as a plain
    object, and the constructor call [new THREE.Quaternion(q.x, q.y, q.z, q.w)]. *)
Definition toPlain (q : THREE.Quaternion) : quat :=
  Quat.mk (THREE._w q) (THREE._x q) (THREE._y q) (THREE._z q).

Definition fromPlain (q : quat) : THREE.Quaternion :=
  THREE.mk (Quat.x q) (Quat.y q) (Quat.z q) (Quat.w q).

#[global] Instance quaternion_inhabited : Inhabited THREE.Quaternion :=
  populate THREE.identity.

(** ** Calibration averaging, common to both programs

    [let sum = {w:0,x:0,y:0,z:0}; for (const q of samples) { sum.w += q.w; ... }]
    followed by the division of every component by [samples.length]. *)

Definition addSample (sum q : quat) : quat :=
  Quat.mk (Quat.w sum + Quat.w q) (Quat.x sum + Quat.x q)
          (Quat.y sum + Quat.y q) (Quat.z sum + Quat.z q).

Definition sumSamples (samples : list quat) : quat :=
  fold_left addSample samples (Quat.mk 0 0 0 0).

Definition averageSamples (samples : list quat) : quat :=
  let sum := sumSamples samples in
  let n := INR (List.length samples) in
  Quat.mk (Quat.w sum / n) (Quat.x sum / n) (Quat.y sum / n) (Quat.z sum / n).

(** Truthiness of a string used as a condition ([data.label || label],
    [parent && ...]): only the empty string is falsy. *)
Definition truthy (s : string) : bool := negb (String.eqb s "").

(** ** Messages

    What a WebSocket message is after [JSON.parse] and the shape test
    [Array.isArray(data.quaternion) && data.quaternion.length === 4]:
    text that does not parse, a parsed value without a four-element
    [quaternion] array, or a sample with its [count], its optional
    [label] and the array [[w, x, y, z]]. *)

Inductive payload : Type :=
| Unparsable
| NoQuaternion
| Sample (count : N) (label : option string) (w x y z : R).

(** ** The browser renderer *)

Module Renderer.

(** [normalizeQuat(q)]:
    [len > 0 ? { w: q.w / len, ... } : q] *)
Definition normalizeQuat (q : quat) : quat :=
  let len := hypot (Quat.w q) (Quat.x q) (Quat.y q) (Quat.z q) in
  if Rlt_dec 0 len
  then Quat.mk (Quat.w q / len) (Quat.x q / len) (Quat.y q / len) (Quat.z q / len)
  else q.

(** A bone of the loaded model: [bone.userData.bindQuat],
    [bone.userData.bindInv] and the animated [bone.quaternion]. *)
Record Bone : Type := mkBone {
  bindQuat : THREE.Quaternion;
  bindInv : THREE.Quaternion;
  quaternion : THREE.Quaternion
}.

(** The model traversal callback for a bone whose rest orientation is [q]:
    [bindQuat = child.quaternion.clone()], [bindInv = bindQuat.clone().invert()]. *)
Definition loadBone (q : THREE.Quaternion) : Bone :=
  mkBone (THREE.clone q) (THREE.invert (THREE.clone (THREE.clone q))) q.

(** One line of [csvRows] after the header line
    ["label,w,x,y,z,timestamp"]; the last field is [Date.now()]. *)
Record CsvRow : Type := mkRow {
  row_label : string;
  row_w : R; row_x : R; row_y : R; row_z : R;
  row_timestamp : N
}.

(** What the modelled functions print ([console.log], [console.error])
    or show ([alert]). The one-second countdown of [startCalibration] runs
    on its own timer and is not part of any modelled transition. *)
Inductive event : Type :=
| LogCollecting
| LogCalibrationDone
| AlertCalibrationCompleted
| ErrorFailedToParse (label : string).

(** The module-level variables of the script. *)
Record state : Type := mkState {
  connected : list string;
  calibrationData : gmap string (list quat);
  qRef : gmap string quat;
  isCalibrating : bool;
  calibrated : bool;
  sensorGlobal : gmap string THREE.Quaternion;
  boneMap : gmap string Bone;
  csvRows : list CsvRow;
  console : list event
}.

Definition labelToBoneName : gmap string string :=
  list_to_map
    [("HIPS", "mixamorigHips"); ("SP", "mixamorigSpine");
     ("SP2", "mixamorigSpine2"); ("H", "mixamorigHead");
     ("RA", "mixamorigRightArm"); ("RFA", "mixamorigRightForeArm");
     ("LA", "mixamorigLeftArm"); ("LFA", "mixamorigLeftForeArm");
     ("RUL", "mixamorigRightUpLeg"); ("RL", "mixamorigRightLeg");
     ("LUL", "mixamorigLeftUpLeg"); ("LL", "mixamorigLeftLeg")]%string.

(** [parentLabel]; [None] is the [null] of the root. *)
Definition parentLabel : gmap string (option string) :=
  list_to_map
    [("HIPS", None); ("SP", Some "HIPS"); ("SP2", Some "SP");
     ("H", Some "SP2"); ("RA", Some "SP2"); ("RFA", Some "RA");
     ("LA", Some "SP2"); ("LFA", Some "LA"); ("RUL", Some "HIPS");
     ("RL", Some "RUL"); ("LUL", Some "HIPS"); ("LL", Some "LUL")]%string.

(** [for (const label of Object.keys(labelToBoneName))
       boneOffset[label] = new THREE.Quaternion();] *)
Definition boneOffset : gmap string THREE.Quaternion :=
  (fun _ => THREE.identity) <$> labelToBoneName.

(** The constant [order] of [applySensorToBones]. *)
Definition order : list string :=
  ["HIPS"; "SP"; "SP2"; "H"; "RA"; "RFA"; "LA"; "LFA";
   "RUL"; "RL"; "LUL"; "LL"]%string.

(** The [onopen] handler of [connectSensor(label, ip)], on the variables
    modelled here: [if (!connected.includes(label)) connected.push(label)]. *)
Definition onOpen (label : string) (st : state) : state :=
  mkState
    (if bool_decide (label ∈ connected st) then connected st
     else connected st ++ [label])
    (calibrationData st) (qRef st) (isCalibrating st) (calibrated st)
    (sensorGlobal st) (boneMap st) (csvRows st) (console st).

(** [normalizeQuat] run against the console: its body has no [console]
    call, no [throw] and writes nothing but its result, so the console it
    leaves is the one it found. *)
Definition runNormalizeQuat (console : list event) (q : quat) :
    quat * list event :=
  (normalizeQuat q, console).

(** [startCalibration()]: the two timers it arms are outside the model;
    the timeout later runs [finishCalibration]. *)
Definition startCalibration (st : state) : state :=
  mkState (connected st)
    (fold_left (fun data label => <[label := []]> data) (connected st)
       (calibrationData st))
    (qRef st) true (calibrated st) (sensorGlobal st) (boneMap st)
    (csvRows st) (console st ++ [LogCollecting]).

(** The body of the loop of [finishCalibration] for one [label]:
    [samples?.length > 0] fails for a missing and for an empty buffer. *)
Definition calibrateLabel (data : gmap string (list quat))
    (ref : gmap string quat) (label : string) : gmap string quat :=
  match data !! label with
  | Some ((_ :: _) as samples) =>
      <[label := normalizeQuat (averageSamples samples)]> ref
  | _ => ref
  end.

(** [finishCalibration()] *)
Definition finishCalibration (st : state) : state :=
  mkState (connected st) (calibrationData st)
    (fold_left (calibrateLabel (calibrationData st)) (connected st) (qRef st))
    false true (sensorGlobal st) (boneMap st) (csvRows st)
    (console st ++ [LogCalibrationDone; AlertCalibrationCompleted]).

(** [applyCalibration(label, qNow)], reading the table [qRef]. *)
Definition applyCalibration (qRef : gmap string quat) (label : string)
    (qNow : THREE.Quaternion) : THREE.Quaternion :=
  match qRef !! label with
  | None => qNow
  | Some ref =>
      let conj := THREE.mk (- Quat.x ref) (- Quat.y ref) (- Quat.z ref) (Quat.w ref) in
      let qRelative := THREE.multiply conj qNow in
      THREE.normalize qRelative
  end.

(** The value of [localSensorQuat] for [label], once [sensorQ] has been
    normalized in place and the pose table reads [pose]. *)
Definition localSensorQuat (pose : gmap string THREE.Quaternion)
    (label : string) (sensorQ : THREE.Quaternion) : THREE.Quaternion :=
  match parentLabel !! label with
  | Some (Some parent) =>
      if truthy parent then
        match pose !! parent with
        | Some parentQ =>
            let invParent := THREE.invert (THREE.clone parentQ) in
            THREE.multiply invParent sensorQ
        | None => THREE.clone sensorQ
        end
      else THREE.clone sensorQ
  | _ => THREE.clone sensorQ
  end.

(** The value of [qFinal] before its normalization. Every label of [order]
    is a key of [boneOffset], so the total lookup never falls back. *)
Definition bindCorrected (label : string) (bone : Bone)
    (local : THREE.Quaternion) : THREE.Quaternion :=
  let offset := boneOffset !!! label in
  if String.eqb label "HIPS"
  then THREE.multiply (THREE.multiply (THREE.clone (bindQuat bone)) local) offset
  else THREE.multiply (THREE.multiply (THREE.clone (bindInv bone)) local) offset.

(** The body of the loop of [applySensorToBones] for one [label], on the
    pair of tables it reads and writes: [sensorGlobal] (whose entry for
    [label] is normalized in place) and [boneMap] (whose bone gets its
    [quaternion] overwritten). *)
Definition boneStep
    (tables : gmap string THREE.Quaternion * gmap string Bone)
    (label : string) : gmap string THREE.Quaternion * gmap string Bone :=
  let (pose, bones) := tables in
  match bones !! label with
  | None => tables
  | Some bone =>
      match pose !! label with
      | None => tables
      | Some sensorQ =>
          let sensorQ := THREE.normalize sensorQ in
          let pose := <[label := sensorQ]> pose in
          let local := localSensorQuat pose label sensorQ in
          let qFinal := THREE.normalize (bindCorrected label bone local) in
          (pose, <[label := mkBone (bindQuat bone) (bindInv bone) qFinal]> bones)
      end
  end.

Definition retarget (labels : list string)
    (tables : gmap string THREE.Quaternion * gmap string Bone) :
    gmap string THREE.Quaternion * gmap string Bone :=
  fold_left boneStep labels tables.

(** [applySensorToBones()] *)
Definition applySensorToBones (st : state) : state :=
  let tables := retarget order (sensorGlobal st, boneMap st) in
  mkState (connected st) (calibrationData st) (qRef st) (isCalibrating st)
    (calibrated st) (fst tables) (snd tables) (csvRows st) (console st).

(** [data.label || label] *)
Definition payloadLabel (dataLabel : option string) (label : string) : string :=
  match dataLabel with
  | Some l => if truthy l then l else label
  | None => label
  end.

(** [handleSensorMessage(label, event)]; [now] is the value of
    [Date.now()] at the call. *)
Definition handleSensorMessage (label : string) (data : payload) (now : N)
    (st : state) : state :=
  match data with
  | Unparsable =>
      mkState (connected st) (calibrationData st) (qRef st) (isCalibrating st)
        (calibrated st) (sensorGlobal st) (boneMap st) (csvRows st)
        (console st ++ [ErrorFailedToParse label])
  | NoQuaternion => st
  | Sample _ dataLabel w x y z =>
      let payloadLabel := payloadLabel dataLabel label in
      let q := THREE.mk x y z w in
      if isCalibrating st then
        let buffer := default [] (calibrationData st !! payloadLabel) in
        mkState (connected st)
          (<[payloadLabel := buffer ++ [Quat.mk w x y z]]> (calibrationData st))
          (qRef st) (isCalibrating st) (calibrated st) (sensorGlobal st)
          (boneMap st) (csvRows st) (console st)
      else if calibrated st then
        let calibratedQ := applyCalibration (qRef st) payloadLabel q in
        let row := mkRow payloadLabel (THREE._w calibratedQ) (THREE._x calibratedQ)
                     (THREE._y calibratedQ) (THREE._z calibratedQ) now in
        applySensorToBones
          (mkState (connected st) (calibrationData st) (qRef st)
             (isCalibrating st) (calibrated st)
             (<[payloadLabel := THREE.clone calibratedQ]> (sensorGlobal st))
             (boneMap st) (csvRows st ++ [row]) (console st))
      else st
  end.

(** The script as loaded: nothing connected, no bone mapped yet. *)
Definition initial : state :=
  mkState [] ∅ ∅ false false ∅ ∅ [] [].

End Renderer.

(** ** The Node CSV logger *)

Module Logger.

(** [normalizeQuat(q)]:
    [len === 0 ? q : { w: q.w / len, ... }] *)
Definition normalizeQuat (q : quat) : quat :=
  let len := hypot (Quat.w q) (Quat.x q) (Quat.y q) (Quat.z q) in
  if Req_dec_T len 0
  then q
  else Quat.mk (Quat.w q / len) (Quat.x q / len) (Quat.y q / len) (Quat.z q / len).

(** One line of [data.csv] after the header line ["count,label,w,x,y,z"]. *)
Record FileRow : Type := mkRow {
  row_count : N;
  row_label : string;
  row_w : R; row_x : R; row_y : R; row_z : R
}.

(** What the modelled functions print with [console.log]. The countdown
    of [startCalibration] runs on its own timer and is not modelled. *)
Inductive event : Type :=
| LogStarting
| LogCalibrationComplete
| LogReference (label : string) (ref : quat)
| LogCalibrationApplied
| LogInvalidJSON
| LogControlMessage.

(** The module-level variables of the script and the file it writes. *)
Record state : Type := mkState {
  isCalibrating : bool;
  calibrated : bool;
  calibrationData : gmap string (list quat);
  qRef : gmap string quat;
  file : list FileRow;
  console : list event
}.

(** [normalizeQuat] run against the console: its body has no [console]
    call, no [throw] and writes nothing but its result, so the console it
    leaves is the one it found. *)
Definition runNormalizeQuat (console : list event) (q : quat) :
    quat * list event :=
  (normalizeQuat q, console).

(** [startCalibration()]: [for (const key in calibrationData) delete
    calibrationData[key]] empties the table; the timeout it arms later
    runs [finishCalibration]. *)
Definition startCalibration (st : state) : state :=
  if isCalibrating st then st
  else mkState true (calibrated st) ∅ (qRef st) (file st)
         (console st ++ [LogStarting]).

(** The body of the loop of [finishCalibration] for one key of
    [calibrationData], on the reference table and the console. *)
Definition calibrateLabel (label : string) (samples : list quat)
    (acc : gmap string quat * list event) : gmap string quat * list event :=
  match samples with
  | [] => acc
  | _ :: _ =>
      let avg := averageSamples samples in
      let ref := normalizeQuat avg in
      (<[label := ref]> (fst acc), snd acc ++ [LogReference label ref])
  end.

(** [finishCalibration()]. The loop [for (const label in calibrationData)]
    visits every key once; an iteration writes [qRef[label]] for its own key
    only, so the table it builds does not depend on the order of the visit
    (the lines it prints come in that order). *)
Definition finishCalibration (st : state) : state :=
  let acc := map_fold calibrateLabel
               (qRef st, console st ++ [LogCalibrationComplete])
               (calibrationData st) in
  mkState false true (calibrationData st) (fst acc) (file st)
    (snd acc ++ [LogCalibrationApplied]).

(** [applyCalibration(label, qNow)], reading the table [qRef]. *)
Definition applyCalibration (qRef : gmap string quat) (label : string)
    (qNow : quat) : quat :=
  match qRef !! label with
  | None => qNow
  | Some ref =>
      let conj := THREE.mk (- Quat.x ref) (- Quat.y ref) (- Quat.z ref) (Quat.w ref) in
      let qCurrent := THREE.mk (Quat.x qNow) (Quat.y qNow) (Quat.z qNow) (Quat.w qNow) in
      let result := THREE.normalize (THREE.multiply conj qCurrent) in
      Quat.mk (THREE._w result) (THREE._x result) (THREE._y result) (THREE._z result)
  end.

(** A property name: [data.label] when present, else the key that
    [undefined] turns into. *)
Definition labelKey (dataLabel : option string) : string :=
  default "undefined"%string dataLabel.

(** The handler of [ws.on("message", ...)]. *)
Definition onMessage (data : payload) (st : state) : state :=
  match data with
  | Unparsable =>
      mkState (isCalibrating st) (calibrated st) (calibrationData st) (qRef st)
        (file st) (console st ++ [LogInvalidJSON])
  | NoQuaternion =>
      mkState (isCalibrating st) (calibrated st) (calibrationData st) (qRef st)
        (file st) (console st ++ [LogControlMessage])
  | Sample count dataLabel w x y z =>
      let label := labelKey dataLabel in
      let q := Quat.mk w x y z in
      if isCalibrating st then
        let buffer := default [] (calibrationData st !! label) in
        mkState (isCalibrating st) (calibrated st)
          (<[label := buffer ++ [q]]> (calibrationData st)) (qRef st)
          (file st) (console st)
      else
        let finalQuat := if calibrated st then applyCalibration (qRef st) label q else q in
        mkState (isCalibrating st) (calibrated st) (calibrationData st) (qRef st)
          (file st ++ [mkRow count label (Quat.w finalQuat) (Quat.x finalQuat)
                         (Quat.y finalQuat) (Quat.z finalQuat)])
          (console st)
  end.

Definition initial : state := mkState false false ∅ ∅ [] [].

End Logger.

(** ** Notions the properties are stated with *)

(** The identity rotation as a plain object. *)
Definition identityQuat : quat := Quat.mk 1 0 0 0.

(** Unit norm within the tolerance [1e-6]. *)
Definition unitWithinTolerance (q : quat) : Prop :=
  Rabs (qnorm q - 1) <= / 1000000.

(** The inverse of a quaternion: its conjugate divided by the square of
    its norm. *)
Definition inverse (q : THREE.Quaternion) : THREE.Quaternion :=
  let n2 := THREE._x q * THREE._x q + THREE._y q * THREE._y q
            + THREE._z q * THREE._z q + THREE._w q * THREE._w q in
  THREE.mk (- THREE._x q / n2) (- THREE._y q / n2) (- THREE._z q / n2)
           (THREE._w q / n2).

(** The Hamilton product on plain objects, written out component by
    component. *)
Definition hamilton (a b : quat) : quat :=
  Quat.mk
    (Quat.w a * Quat.w b - Quat.x a * Quat.x b - Quat.y a * Quat.y b - Quat.z a * Quat.z b)
    (Quat.w a * Quat.x b + Quat.x a * Quat.w b + Quat.y a * Quat.z b - Quat.z a * Quat.y b)
    (Quat.w a * Quat.y b - Quat.x a * Quat.z b + Quat.y a * Quat.w b + Quat.z a * Quat.x b)
    (Quat.w a * Quat.z b + Quat.x a * Quat.y b - Quat.y a * Quat.x b + Quat.z a * Quat.w b).

Definition conjugateQuat (q : quat) : quat :=
  Quat.mk (Quat.w q) (- Quat.x q) (- Quat.y q) (- Quat.z q).

(** The component-wise mean of a buffer: for each component, the sum of
    that component over the samples divided by their number. *)
Definition componentMean (component : quat -> R) (samples : list quat) : R :=
  fold_right Rplus 0 (map component samples) / INR (List.length samples).

Definition meanQuat (samples : list quat) : quat :=
  Quat.mk (componentMean Quat.w samples) (componentMean Quat.x samples)
          (componentMean Quat.y samples) (componentMean Quat.z samples).

(** A run of a function against a console signals something when it
    leaves a console other than the one it found. *)
Definition signals {E : Type} (before after : list E) : Prop := after <> before.

(** [a] is visited strictly before [b] by a loop over [labels]. *)
Definition visitedBefore (labels : list string) (a b : string) : Prop :=
  exists i j : nat, labels !! i = Some a /\ labels !! j = Some b /\ (i < j)%nat.

(** [labels.indexOf(label)], with [None] for [-1]. *)
Fixpoint indexOf (label : string) (labels : list string) : option nat :=
  match labels with
  | [] => None
  | l :: labels =>
      if String.eqb label l then Some 0%nat else S <$> indexOf label labels
  end.

(** The root joint is the one whose parent is [null]. *)
Definition isRoot (label : string) : bool :=
  bool_decide (Renderer.parentLabel !! label = Some None).

(** The parent-relative orientation of a joint as the specification
    defines it from a pose table: the inverse of the parent's global
    orientation times the joint's own when the joint has a parent whose
    orientation is in the table, the joint's own otherwise. *)
Definition parentLocal (pose : gmap string THREE.Quaternion) (label : string)
    : option THREE.Quaternion :=
  match pose !! label with
  | None => None
  | Some own =>
      match Renderer.parentLabel !! label with
      | Some (Some parent) =>
          match pose !! parent with
          | Some parentQ => Some (THREE.multiply (inverse parentQ) own)
          | None => Some own
          end
      | _ => Some own
      end
  end.

(** The rotation the specification asks for: the bind orientation for
    the root, the inverse bind orientation for any other joint, times the
    parent-relative orientation, times the offset of the joint, normalized. *)
Definition bindCorrectedRotation (label : string) (bone : Renderer.Bone)
    (local : THREE.Quaternion) : quat :=
  let bind := if isRoot label then Renderer.bindQuat bone else Renderer.bindInv bone in
  Renderer.normalizeQuat
    (toPlain (THREE.multiply (THREE.multiply bind local)
                (Renderer.boneOffset !!! label))).

(** The load-time invariant of the skeleton: the parent of every mapped
    joint is mapped, and every bone carries a bind orientation of unit norm
    with its inverse. *)
Definition validSkeleton (bones : gmap string Renderer.Bone) : Prop :=
  (forall label parent,
     is_Some (bones !! label) ->
     Renderer.parentLabel !! label = Some (Some parent) ->
     is_Some (bones !! parent)) /\
  (forall label bone,
     bones !! label = Some bone ->
     THREE.length (Renderer.bindQuat bone) = 1 /\
     Renderer.bindInv bone = THREE.invert (Renderer.bindQuat bone)).

(** ** Runs used as examples *)

(** A run of the renderer in which a sample carries a label other than
    that of the socket it came through: RA connects, a calibration starts,
    the RA socket delivers a sample labelled LA, the timer expires. *)
Definition mislabelledRun : Renderer.state :=
  Renderer.finishCalibration
    (Renderer.handleSensorMessage "RA" (Sample 0 (Some "LA"%string) 1 0 0 0) 0
       (Renderer.startCalibration (Renderer.onOpen "RA" Renderer.initial))).

(** The antipodal buffer of the specification and the two runs that
    collect it for RA and let the timer expire. *)
Definition antipodalSamples : list quat := [Quat.mk 1 0 0 0; Quat.mk (-1) 0 0 0].

Definition antipodalLoggerRun : Logger.state :=
  Logger.finishCalibration
    (Logger.onMessage (Sample 1 (Some "RA"%string) (-1) 0 0 0)
       (Logger.onMessage (Sample 0 (Some "RA"%string) 1 0 0 0)
          (Logger.startCalibration Logger.initial))).

Definition antipodalRendererRun : Renderer.state :=
  Renderer.finishCalibration
    (Renderer.handleSensorMessage "RA" (Sample 1 None (-1) 0 0 0) 0
       (Renderer.handleSensorMessage "RA" (Sample 0 None 1 0 0 0) 0
          (Renderer.startCalibration (Renderer.onOpen "RA" Renderer.initial)))).

(** A skeleton whose twelve bones all rest at the identity, and a
    calibrated renderer in which RA has turned a quarter of a turn about Z
    while RFA reports the identity. *)
Definition restSkeleton : gmap string Renderer.Bone :=
  (fun _ => Renderer.loadBone THREE.identity) <$> Renderer.labelToBoneName.

Definition quarterTurnZ : THREE.Quaternion :=
  THREE.mk 0 0 (sqrt 2 / 2) (sqrt 2 / 2).

Definition examplePose : Renderer.state :=
  Renderer.mkState ["RA"; "RFA"]%string ∅ ∅ false true
    (<["RFA"%string := THREE.identity]> {[ "RA"%string := quarterTurnZ ]})
    restSkeleton [] [].

(** A renderer that has completed a calibration in which RA delivered
    nothing, before any model is loaded, then receives [[2,0,0,0]] from RA;
    and a logger that receives the same sample before any calibration. *)
Definition passThroughRendererRun : Renderer.state :=
  Renderer.handleSensorMessage "RA" (Sample 0 None 2 0 0 0) 5
    (Renderer.finishCalibration
       (Renderer.startCalibration (Renderer.onOpen "RA" Renderer.initial))).

Definition passThroughLoggerRun : Logger.state :=
  Logger.onMessage (Sample 0 (Some "RA"%string) 2 0 0 0) Logger.initial.

(** A logger that has calibrated RA on one identity sample. *)
Definition calibratedLogger : Logger.state :=
  Logger.finishCalibration
    (Logger.onMessage (Sample 0 (Some "RA"%string) 1 0 0 0)
       (Logger.startCalibration Logger.initial)).

(** ** Case analysis on the two literal tables *)

(** From [H : parentLabel !! label = Some parent] to one goal per entry
    of the table. *)
Ltac parent_cases H :=
  unfold Renderer.parentLabel in H;
  apply elem_of_list_to_map_2 in H;
  repeat (apply elem_of_cons in H as [H | H]; [simplify_eq |]);
  try (apply elem_of_nil in H; contradiction).

(** From [H : label ∈ order] to one goal per label. *)
Ltac order_cases H :=
  unfold Renderer.order in H;
  repeat (apply elem_of_cons in H as [-> | H]);
  try (apply elem_of_nil in H; contradiction).

(** ** Runs, model loading and further notions *)

(** A quaternion scaled by a real factor. *)
Definition scaleQuat (s : R) (q : quat) : quat :=
  Quat.mk (s * Quat.w q) (s * Quat.x q) (s * Quat.y q) (s * Quat.z q).

(** The zero quaternion, what [[0,0,0,0]] parses to. *)
Definition zeroQuat : quat := Quat.mk 0 0 0 0.

(** One message as the renderer's [ws.onmessage] gets it: the label of
    the socket it came through, the parsed payload and the clock. *)
Record delivery : Type := mkDelivery {
  socketLabel : string;
  body : payload;
  clock : N
}.

(** The handlers run one after the other on the event loop. *)
Definition handleAll (deliveries : list delivery) (st : Renderer.state) :
    Renderer.state :=
  fold_left
    (fun st d => Renderer.handleSensorMessage (socketLabel d) (body d) (clock d) st)
    deliveries st.

Definition onMessages (messages : list payload) (st : Logger.state) :
    Logger.state :=
  fold_left (fun st data => Logger.onMessage data st) messages st.

(** The samples of a list of deliveries that the renderer files under
    [label], in the order of arrival; the same for the logger. *)
Definition deliveredSample (label : string) (d : delivery) : option quat :=
  match body d with
  | Sample _ dataLabel w x y z =>
      if String.eqb (Renderer.payloadLabel dataLabel (socketLabel d)) label
      then Some (Quat.mk w x y z) else None
  | _ => None
  end.

Definition samplesFor (label : string) (deliveries : list delivery) : list quat :=
  omap (deliveredSample label) deliveries.

Definition loggedSample (label : string) (data : payload) : option quat :=
  match data with
  | Sample _ dataLabel w x y z =>
      if String.eqb (Logger.labelKey dataLabel) label
      then Some (Quat.mk w x y z) else None
  | _ => None
  end.

Definition loggedSamplesFor (label : string) (messages : list payload) : list quat :=
  omap (loggedSample label) messages.

(** What can happen to the renderer: a socket opens, the calibrate
    button is pressed, the calibration timeout fires, a message arrives.
    The timeout is armed by [startCalibration] only; letting it fire at any
    time covers every schedule the timers allow. *)
Inductive rendererAction : Type :=
| SocketOpens (label : string)
| CalibratePressed
| TimeoutFires
| MessageArrives (label : string) (data : payload) (now : N).

Definition rendererStep (st : Renderer.state) (a : rendererAction) : Renderer.state :=
  match a with
  | SocketOpens label => Renderer.onOpen label st
  | CalibratePressed => Renderer.startCalibration st
  | TimeoutFires => Renderer.finishCalibration st
  | MessageArrives label data now => Renderer.handleSensorMessage label data now st
  end.

Definition rendererRun (actions : list rendererAction) (st : Renderer.state) :
    Renderer.state :=
  fold_left rendererStep actions st.

(** What can happen to the logger: ENTER is pressed, the calibration
    timeout fires, a message arrives. *)
Inductive loggerAction : Type :=
| EnterPressed
| LoggerTimeoutFires
| LoggerMessageArrives (data : payload).

Definition loggerStep (st : Logger.state) (a : loggerAction) : Logger.state :=
  match a with
  | EnterPressed => Logger.startCalibration st
  | LoggerTimeoutFires => Logger.finishCalibration st
  | LoggerMessageArrives data => Logger.onMessage data st
  end.

Definition loggerRun (actions : list loggerAction) (st : Logger.state) :
    Logger.state :=
  fold_left loggerStep actions st.

(** A node of the loaded scene, as the traversal callback reads it:
    [child.name], [child.isBone], [child.quaternion]. *)
Record Node : Type := mkNode {
  nodeName : string;
  isBone : bool;
  nodeQuaternion : THREE.Quaternion
}.

(** The callback of [model.traverse] for one [child]: a bone is mapped
    under every label of [labelToBoneName] that names it. The loop over
    [Object.entries(labelToBoneName)] writes [boneMap[label]] for its own
    label only, so the order of the entries does not matter. *)
Definition mapBone (bones : gmap string Renderer.Bone) (child : Node) :
    gmap string Renderer.Bone :=
  if isBone child then
    map_fold
      (fun label boneName acc =>
         if String.eqb (nodeName child) boneName
         then <[label := Renderer.loadBone (nodeQuaternion child)]> acc
         else acc)
      bones Renderer.labelToBoneName
  else bones.

(** The traversal of the loaded model, its nodes in the order of the
    visit. *)
Definition loadModel (nodes : list Node) (bones : gmap string Renderer.Bone) :
    gmap string Renderer.Bone :=
  fold_left mapBone nodes bones.

(** The [count] and the file label of a sample message, and its
    quaternion as sent. *)
Definition sampleHeader (data : payload) : option (N * string) :=
  match data with
  | Sample count dataLabel _ _ _ _ => Some (count, Logger.labelKey dataLabel)
  | _ => None
  end.

Definition sampleQuat (data : payload) : option quat :=
  match data with
  | Sample _ _ w x y z => Some (Quat.mk w x y z)
  | _ => None
  end.

Definition rowHeader (row : Logger.FileRow) : N * string :=
  (Logger.row_count row, Logger.row_label row).

Definition rowQuat (row : Logger.FileRow) : quat :=
  Quat.mk (Logger.row_w row) (Logger.row_x row) (Logger.row_y row) (Logger.row_z row).

(** A model that holds one bone per name of [labelToBoneName], each at
    rest at the identity. *)
Definition restModel : list Node :=
  map (fun entry => mkNode (snd entry) true THREE.identity)
    (map_to_list Renderer.labelToBoneName).

(** The number of sample messages among the actions of a run. *)
Definition isSample (data : payload) : bool :=
  match data with Sample _ _ _ _ _ _ => true | _ => false end.

Definition countsAsSample (a : rendererAction) : bool :=
  match a with
  | MessageArrives _ data _ => isSample data
  | _ => false
  end.

Definition rendererSamples (actions : list rendererAction) : nat :=
  List.length (List.filter countsAsSample actions).
(** ** Where the exact arithmetic stands for the code's

    The definitions above compute with exact reals. The code computes
    with IEEE 754 doubles, and two of its steps depend on more than that:
    three.js's [length] is [Math.sqrt] of the sum of the four squares, a sum
    that is [0] when every square underflows and [Infinity] when one
    overflows, so that [normalize] returns the identity or zeros where the
    exact value has unit norm; and a table lookup [qRef[label]] finds the
    properties that every object inherits from [Object.prototype].
    Module [Double] below models the numeric kernels on numbers with their
    range, [Infinity] and [NaN], and the lookup with the inherited
    properties. Properties of the exact model that depend on the range are
    stated for quaternions whose components are in range, and for labels
    that name no inherited property. *)

(** A real that a double holds without any of the operations of
    [normalize] and [normalizeQuat] on it leaving the range: zero, or of
    magnitude from [2^-511] to [2^510]. *)
Definition componentInRange (r : R) : Prop :=
  r = 0 \/ / 2 ^ 511 <= Rabs r <= 2 ^ 510.

Definition componentsInRange (q : quat) : Prop :=
  componentInRange (Quat.w q) /\ componentInRange (Quat.x q) /\
  componentInRange (Quat.y q) /\ componentInRange (Quat.z q).

(** Every entry of a pose table has its components in range. *)
Definition poseInRange (pose : gmap string THREE.Quaternion) : Prop :=
  forall label q, pose !! label = Some q -> componentsInRange (toPlain q).

(** A calibration buffer whose average the running sums of doubles do
    not lose: at most [2^20] samples of norm at most [2], with an average of
    norm at least [2^-20]. *)
Definition averageInRange (samples : list quat) : Prop :=
  Forall (fun q => qnorm q <= 2) samples /\
  INR (length samples) <= 2 ^ 20 /\
  / 2 ^ 20 <= qnorm (averageSamples samples).

(** The names of the properties that a plain object inherits from
    [Object.prototype]: for one of these [table[name]] is a function, or the
    prototype itself, even when the table holds no such key. *)
Definition objectPrototype : list string :=
  ["constructor"; "__defineGetter__"; "__defineSetter__"; "hasOwnProperty";
   "__lookupGetter__"; "__lookupSetter__"; "isPrototypeOf";
   "propertyIsEnumerable"; "toString"; "valueOf"; "__proto__";
   "toLocaleString"]%string.

(** ** A pass over a zero entry

    The renderer with the rest skeleton loaded; RA connects and a
    calibration in which it delivers nothing completes; RA then sends
    [[0,0,0,0]], which has no reference and reaches the pose table as
    received. [zeroSamplePose] is the state in which [handleSensorMessage]
    then calls [applySensorToBones]. *)
Definition loadedRenderer : Renderer.state :=
  Renderer.mkState [] ∅ ∅ false false ∅ restSkeleton [] [].

Definition zeroSampleRun : Renderer.state :=
  Renderer.handleSensorMessage "RA" (Sample 0 None 0 0 0 0) 7
    (Renderer.finishCalibration
       (Renderer.startCalibration (Renderer.onOpen "RA" loadedRenderer))).

Definition zeroSamplePose : Renderer.state :=
  Renderer.mkState ["RA"%string] {[ "RA"%string := [] ]} ∅ false true
    {[ "RA"%string := THREE.mk 0 0 0 0 ]} restSkeleton
    [Renderer.mkRow "RA" 0 0 0 0 7]
    [Renderer.LogCollecting; Renderer.LogCalibrationDone;
     Renderer.AlertCalibrationCompleted].

(** ** JavaScript numbers with their range and special values

    A number is a real, [Infinity], [-Infinity] or [NaN]. An operation on
    reals whose exact result lies at or beyond the half-way point between
    [Number.MAX_VALUE] and [2^1024] gives an infinity; one whose exact
    result is at most half of [Number.MIN_VALUE] gives zero; the special
    values combine as in IEEE 754. The rounding of the mantissa is left
    out, and the two zeros are one (a zero divisor is taken as [+0]; no
    division of the code modelled here has a zero divisor). *)

Module Double.

Inductive number : Type :=
| Num (r : R)
| Infinity
| NegInfinity
| NaN.

Definition overflowThreshold : R := (2 - / 2 ^ 53) * 2 ^ 1023.

(** [Number.MIN_VALUE] *)
Definition MIN_VALUE : R := / 2 ^ 1074.

(** The number an operation returns when its exact result is [r]. *)
Definition round (r : R) : number :=
  if Rle_dec overflowThreshold r then Infinity
  else if Rle_dec r (- overflowThreshold) then NegInfinity
  else if Rle_dec (Rabs r) (MIN_VALUE / 2) then Num 0
  else Num r.

Definition negative (r : R) : bool := if Rlt_dec r 0 then true else false.

Definition infinity (negative : bool) : number :=
  if negative then NegInfinity else Infinity.

(** [-a] *)
Definition neg (a : number) : number :=
  match a with
  | Num r => Num (- r)
  | Infinity => NegInfinity
  | NegInfinity => Infinity
  | NaN => NaN
  end.

(** [a + b] *)
Definition add (a b : number) : number :=
  match a, b with
  | NaN, _ | _, NaN => NaN
  | Num r, Num s => round (r + s)
  | Infinity, NegInfinity | NegInfinity, Infinity => NaN
  | Infinity, _ | _, Infinity => Infinity
  | NegInfinity, _ | _, NegInfinity => NegInfinity
  end.

(** [a - b] *)
Definition sub (a b : number) : number := add a (neg b).

(** [a * b] *)
Definition mul (a b : number) : number :=
  match a, b with
  | NaN, _ | _, NaN => NaN
  | Num r, Num s => round (r * s)
  | Num r, Infinity | Infinity, Num r =>
      if Req_dec_T r 0 then NaN else infinity (negative r)
  | Num r, NegInfinity | NegInfinity, Num r =>
      if Req_dec_T r 0 then NaN else infinity (negb (negative r))
  | Infinity, Infinity | NegInfinity, NegInfinity => Infinity
  | Infinity, NegInfinity | NegInfinity, Infinity => NegInfinity
  end.

(** [a / b] *)
Definition div (a b : number) : number :=
  match a, b with
  | NaN, _ | _, NaN => NaN
  | Num r, Num s =>
      if Req_dec_T s 0
      then (if Req_dec_T r 0 then NaN else infinity (negative r))
      else round (r / s)
  | Num _, _ => Num 0
  | Infinity, Num s => infinity (negative s)
  | NegInfinity, Num s => infinity (negb (negative s))
  | _, _ => NaN
  end.

(** [Math.sqrt(a)] *)
Definition sqrt (a : number) : number :=
  match a with
  | Num r => if Rlt_dec r 0 then NaN else Num (R_sqrt.sqrt r)
  | Infinity => Infinity
  | _ => NaN
  end.

Definition isInfinite (a : number) : bool :=
  match a with
  | Infinity | NegInfinity => true
  | _ => false
  end.

(** [Math.hypot(a, b, c, d)]: [Infinity] when an argument is infinite,
    else [NaN] when one is [NaN], else the square root of the sum of the
    squares, which is formed without intermediate overflow or underflow. *)
Definition hypot (a b c d : number) : number :=
  match a, b, c, d with
  | Num a, Num b, Num c, Num d =>
      round (R_sqrt.sqrt (a * a + b * b + c * c + d * d))
  | _, _, _, _ =>
      if isInfinite a || isInfinite b || isInfinite c || isInfinite d
      then Infinity else NaN
  end.

(** [a === 0] and [a > 0] *)
Definition isZero (a : number) : bool :=
  match a with
  | Num r => if Req_dec_T r 0 then true else false
  | _ => false
  end.

Definition isPositive (a : number) : bool :=
  match a with
  | Num r => if Rlt_dec 0 r then true else false
  | Infinity => true
  | _ => false
  end.

Declare Scope double_scope.
Delimit Scope double_scope with D.
Infix "+" := add : double_scope.
Infix "-" := sub : double_scope.
Infix "*" := mul : double_scope.
Infix "/" := div : double_scope.

(** Plain quaternion objects [{w, x, y, z}] *)
Record quat : Type := mkQuat { w : number; x : number; y : number; z : number }.

(** The methods of [THREE.Quaternion], as in module [THREE] above. *)
Module THREE.
Record Quaternion : Type :=
  mk { _x : number; _y : number; _z : number; _w : number }.

Definition identity : Quaternion := mk (Num 0) (Num 0) (Num 0) (Num 1).

Definition multiply (a b : Quaternion) : Quaternion :=
  let qax := _x a in let qay := _y a in let qaz := _z a in let qaw := _w a in
  let qbx := _x b in let qby := _y b in let qbz := _z b in let qbw := _w b in
  mk (qax * qbw + qaw * qbx + qay * qbz - qaz * qby)%D
     (qay * qbw + qaw * qby + qaz * qbx - qax * qbz)%D
     (qaz * qbw + qaw * qbz + qax * qby - qay * qbx)%D
     (qaw * qbw - qax * qbx - qay * qby - qaz * qbz)%D.

Definition length (q : Quaternion) : number :=
  sqrt (_x q * _x q + _y q * _y q + _z q * _z q + _w q * _w q)%D.

Definition normalize (q : Quaternion) : Quaternion :=
  let l := length q in
  if isZero l then mk (Num 0) (Num 0) (Num 0) (Num 1)
  else let l := (Num 1 / l)%D in
       mk (_x q * l)%D (_y q * l)%D (_z q * l)%D (_w q * l)%D.
End THREE.

Definition toPlain (q : THREE.Quaternion) : quat :=
  mkQuat (THREE._w q) (THREE._x q) (THREE._y q) (THREE._z q).

Definition fromPlain (q : quat) : THREE.Quaternion :=
  THREE.mk (x q) (y q) (z q) (w q).

(** The calibration average of [finishCalibration], in both programs. *)
Definition addSample (sum q : quat) : quat :=
  mkQuat (w sum + w q)%D (x sum + x q)%D (y sum + y q)%D (z sum + z q)%D.

Definition sumSamples (samples : list quat) : quat :=
  fold_left addSample samples (mkQuat (Num 0) (Num 0) (Num 0) (Num 0)).

Definition averageSamples (samples : list quat) : quat :=
  let sum := sumSamples samples in
  let n := Num (INR (List.length samples)) in
  mkQuat (w sum / n)%D (x sum / n)%D (y sum / n)%D (z sum / n)%D.

(** What [table[key]] evaluates to: the entry the table holds, else the
    property inherited from [Object.prototype], else [undefined]. *)
Inductive property (A : Type) : Type :=
| Own (value : A)
| Inherited
| Undefined.
Arguments Own {A} value.
Arguments Inherited {A}.
Arguments Undefined {A}.

Definition getProperty {A : Type} (table : gmap string A) (key : string) :
    property A :=
  match table !! key with
  | Some value => Own value
  | None => if bool_decide (key ∈ objectPrototype) then Inherited else Undefined
  end.

(** [ref.x], [ref.y] and [ref.z] under the unary minus of
    [new THREE.Quaternion(-ref.x, -ref.y, -ref.z, ref.w)], and [ref.w] as
    the fourth argument of the constructor. An inherited property is a
    function or the prototype object: it has no [x], [y], [z] or [w], and
    [-undefined] is [NaN], while an [undefined] fourth argument takes the
    constructor's default [1]. *)
Definition negated (get : quat -> number) (ref : property quat) : number :=
  match ref with
  | Own ref => neg (get ref)
  | _ => NaN
  end.

Definition fourthArgument (ref : property quat) : number :=
  match ref with
  | Own ref => w ref
  | _ => Num 1
  end.

Module Renderer.

(** [len > 0 ? { w: q.w / len, ... } : q] *)
Definition normalizeQuat (q : quat) : quat :=
  let len := hypot (w q) (x q) (y q) (z q) in
  if isPositive len
  then mkQuat (w q / len)%D (x q / len)%D (y q / len)%D (z q / len)%D
  else q.

Definition applyCalibration (qRef : gmap string quat) (label : string)
    (qNow : THREE.Quaternion) : THREE.Quaternion :=
  match getProperty qRef label with
  | Undefined => qNow
  | ref =>
      let conj := THREE.mk (negated x ref) (negated y ref) (negated z ref)
                    (fourthArgument ref) in
      let qRelative := THREE.multiply conj qNow in
      THREE.normalize qRelative
  end.

End Renderer.

Module Logger.

(** [len === 0 ? q : { w: q.w / len, ... }] *)
Definition normalizeQuat (q : quat) : quat :=
  let len := hypot (w q) (x q) (y q) (z q) in
  if isZero len
  then q
  else mkQuat (w q / len)%D (x q / len)%D (y q / len)%D (z q / len)%D.

Definition applyCalibration (qRef : gmap string quat) (label : string)
    (qNow : quat) : quat :=
  match getProperty qRef label with
  | Undefined => qNow
  | ref =>
      let conj := THREE.mk (negated x ref) (negated y ref) (negated z ref)
                    (fourthArgument ref) in
      let qCurrent := THREE.mk (x qNow) (y qNow) (z qNow) (w qNow) in
      let result := THREE.normalize (THREE.multiply conj qCurrent) in
      mkQuat (THREE._w result) (THREE._x result) (THREE._y result) (THREE._z result)
  end.

End Logger.

(** The conjugate and the Hamilton product of plain quaternions, on
    numbers. *)
Definition conjugateQuat (q : quat) : quat :=
  mkQuat (w q) (neg (x q)) (neg (y q)) (neg (z q)).

Definition hamilton (a b : quat) : quat :=
  mkQuat (w a * w b - x a * x b - y a * y b - z a * z b)%D
         (x a * w b + w a * x b + y a * z b - z a * y b)%D
         (y a * w b + w a * y b + z a * x b - x a * z b)%D
         (z a * w b + w a * z b + x a * y b - y a * x b)%D.

(** A quaternion of reals as a quaternion of numbers. *)
Definition ofReals (q : Quat.quat) : quat :=
  mkQuat (Num (Quat.w q)) (Num (Quat.x q)) (Num (Quat.y q)) (Num (Quat.z q)).

End Double.

(** The two samples [[1e999,0,0,0]] and [[-1e999,0,0,0]] as [JSON.parse]
    returns them: [1e999] is beyond the largest double and parses to
    [Infinity]. *)
Definition overflowingSamples : list Double.quat :=
  [Double.mkQuat Double.Infinity (Double.Num 0) (Double.Num 0) (Double.Num 0);
   Double.mkQuat Double.NegInfinity (Double.Num 0) (Double.Num 0) (Double.Num 0)].

(** A number that is not below zero: [Infinity] or a real that is not
    negative. *)
Definition notBelowZero (a : Double.number) : Prop :=
  match a with
  | Double.Num r => 0 <= r
  | Double.Infinity => True
  | _ => False
  end.

(** A [THREE.Quaternion] of reals as one of numbers. *)
Definition quaternionOfReals (q : THREE.Quaternion) : Double.THREE.Quaternion :=
  Double.THREE.mk (Double.Num (THREE._x q)) (Double.Num (THREE._y q))
    (Double.Num (THREE._z q)) (Double.Num (THREE._w q)).

(** * Properties *)

(** ** Arithmetic of norms *)

Lemma hypot_nonneg (a b c d : R) : 0 <= hypot a b c d.
Proof. apply sqrt_pos. Qed.

Lemma sum_squares_nonneg (a b c d : R) : 0 <= a * a + b * b + c * c + d * d.
Proof. nra. Qed.

Lemma hypot_sqr (a b c d : R) :
  hypot a b c d * hypot a b c d = a * a + b * b + c * c + d * d.
Proof. apply sqrt_sqrt, sum_squares_nonneg. Qed.

Lemma hypot_zero_inv (a b c d : R) :
  hypot a b c d = 0 -> a = 0 /\ b = 0 /\ c = 0 /\ d = 0.
Proof.
  intros H. apply sqrt_eq_0 in H; [| apply sum_squares_nonneg].
  repeat split; nra.
Qed.

Lemma hypot_zero : hypot 0 0 0 0 = 0.
Proof.
  unfold hypot. replace (0 * 0 + 0 * 0 + 0 * 0 + 0 * 0) with 0 by ring.
  apply sqrt_0.
Qed.

Lemma hypot_pos_or_zero (a b c d : R) :
  0 < hypot a b c d \/ hypot a b c d = 0.
Proof. destruct (hypot_nonneg a b c d) as [H | H]; [left | right]; auto. Qed.

Lemma hypot_scaled (a b c d l : R) :
  l = hypot a b c d -> 0 < l ->
  hypot (a / l) (b / l) (c / l) (d / l) = 1.
Proof.
  intros Hl Hpos. unfold hypot at 1.
  replace (a / l * (a / l) + b / l * (b / l) + c / l * (c / l) + d / l * (d / l))
    with ((a * a + b * b + c * c + d * d) / (l * l)) by (field; lra).
  rewrite <- hypot_sqr, <- Hl.
  replace (l * l / (l * l)) with 1 by (field; lra).
  apply sqrt_1.
Qed.

Lemma hypot_unit_w : hypot 1 0 0 0 = 1.
Proof.
  unfold hypot. replace (1 * 1 + 0 * 0 + 0 * 0 + 0 * 0) with 1 by ring.
  apply sqrt_1.
Qed.

Lemma length_toPlain (q : THREE.Quaternion) : qnorm (toPlain q) = THREE.length q.
Proof.
  unfold qnorm, hypot, THREE.length. destruct q; simpl. f_equal. ring.
Qed.

Lemma length_fromPlain (q : quat) : THREE.length (fromPlain q) = qnorm q.
Proof.
  unfold qnorm, hypot, THREE.length. destruct q; simpl. f_equal. ring.
Qed.

Lemma length_nonneg (q : THREE.Quaternion) : 0 <= THREE.length q.
Proof. apply sqrt_pos. Qed.

(** The norm is multiplicative for the Hamilton product. *)
Lemma length_multiply (a b : THREE.Quaternion) :
  THREE.length (THREE.multiply a b) = THREE.length a * THREE.length b.
Proof.
  unfold THREE.length. rewrite <- sqrt_mult by nra.
  destruct a, b; simpl. f_equal. ring.
Qed.

Lemma length_conjugate (q : THREE.Quaternion) :
  THREE.length (THREE.conjugate q) = THREE.length q.
Proof. unfold THREE.length. destruct q; simpl. f_equal. ring. Qed.

Lemma length_identity : THREE.length THREE.identity = 1.
Proof.
  unfold THREE.length; simpl.
  replace (0 * 0 + 0 * 0 + 0 * 0 + 1 * 1) with 1 by ring. apply sqrt_1.
Qed.

Lemma normalize_zero (q : THREE.Quaternion) :
  THREE.length q = 0 -> THREE.normalize q = THREE.identity.
Proof.
  intros H. unfold THREE.normalize. destruct (Req_dec_T _ _); [reflexivity | contradiction].
Qed.

Lemma normalize_nonzero (q : THREE.Quaternion) :
  THREE.length q <> 0 ->
  THREE.normalize q =
    THREE.mk (THREE._x q / THREE.length q) (THREE._y q / THREE.length q)
             (THREE._z q / THREE.length q) (THREE._w q / THREE.length q).
Proof.
  intros H. unfold THREE.normalize. destruct (Req_dec_T _ _); [contradiction |].
  f_equal; field; assumption.
Qed.

(** Whatever it is given, [normalize] of three.js returns a unit quaternion. *)
Lemma length_normalize (q : THREE.Quaternion) :
  THREE.length (THREE.normalize q) = 1.
Proof.
  destruct (Req_dec_T (THREE.length q) 0) as [H | H].
  - rewrite normalize_zero by assumption. apply length_identity.
  - rewrite normalize_nonzero by assumption.
    pose proof (length_nonneg q) as Hpos.
    rewrite <- length_toPlain. unfold qnorm, toPlain; simpl.
    pose proof (hypot_scaled (THREE._w q) (THREE._x q) (THREE._y q) (THREE._z q)
                  (THREE.length q)) as Hs.
    apply Hs; [| lra].
    rewrite <- length_toPlain. reflexivity.
Qed.

Lemma normalize_unit (q : THREE.Quaternion) :
  THREE.length q = 1 -> THREE.normalize q = q.
Proof.
  intros H. rewrite normalize_nonzero by lra. rewrite H.
  destruct q; simpl. f_equal; field.
Qed.

Lemma inverse_unit (q : THREE.Quaternion) :
  THREE.length q = 1 -> THREE.invert q = inverse q.
Proof.
  intros H. unfold THREE.invert, THREE.conjugate, inverse.
  assert (Hsq : THREE._x q * THREE._x q + THREE._y q * THREE._y q
                + THREE._z q * THREE._z q + THREE._w q * THREE._w q = 1).
  { unfold THREE.length in H.
    rewrite <- (sqrt_sqrt _ (sum_squares_nonneg (THREE._x q) (THREE._y q) (THREE._z q) (THREE._w q))).
    rewrite H. ring. }
  rewrite Hsq. f_equal; field.
Qed.

(** The two guards of [normalizeQuat] on a norm, which is never negative. *)
Lemma renderer_normalizeQuat_zero (q : quat) :
  qnorm q = 0 -> Renderer.normalizeQuat q = q.
Proof.
  unfold qnorm, Renderer.normalizeQuat. intros H.
  destruct (Rlt_dec _ _); [lra | reflexivity].
Qed.

Lemma renderer_normalizeQuat_pos (q : quat) :
  0 < qnorm q ->
  Renderer.normalizeQuat q =
    Quat.mk (Quat.w q / qnorm q) (Quat.x q / qnorm q)
            (Quat.y q / qnorm q) (Quat.z q / qnorm q).
Proof.
  unfold qnorm, Renderer.normalizeQuat. intros H.
  destruct (Rlt_dec _ _); [reflexivity | contradiction].
Qed.

Lemma logger_normalizeQuat_zero (q : quat) :
  qnorm q = 0 -> Logger.normalizeQuat q = q.
Proof.
  unfold qnorm, Logger.normalizeQuat. intros H.
  destruct (Req_dec_T _ _); [reflexivity | contradiction].
Qed.

Lemma logger_normalizeQuat_pos (q : quat) :
  0 < qnorm q ->
  Logger.normalizeQuat q =
    Quat.mk (Quat.w q / qnorm q) (Quat.x q / qnorm q)
            (Quat.y q / qnorm q) (Quat.z q / qnorm q).
Proof.
  unfold qnorm, Logger.normalizeQuat. intros H.
  destruct (Req_dec_T _ _); [lra | reflexivity].
Qed.

Lemma normalizeQuat_agree (q : quat) :
  Logger.normalizeQuat q = Renderer.normalizeQuat q.
Proof.
  destruct (hypot_pos_or_zero (Quat.w q) (Quat.x q) (Quat.y q) (Quat.z q)) as [H | H].
  - rewrite logger_normalizeQuat_pos, renderer_normalizeQuat_pos by exact H.
    reflexivity.
  - rewrite logger_normalizeQuat_zero, renderer_normalizeQuat_zero by exact H.
    reflexivity.
Qed.

Lemma qnorm_normalizeQuat (q : quat) :
  0 < qnorm q -> qnorm (Renderer.normalizeQuat q) = 1.
Proof.
  intros H. rewrite renderer_normalizeQuat_pos by exact H.
  unfold qnorm at 1; simpl. apply hypot_scaled; [reflexivity | exact H].
Qed.

(** [normalize] of three.js against [normalizeQuat]: the same quotient
    when the norm is not zero, the identity instead of the argument when
    it is. *)
Lemma toPlain_normalize_nonzero (q : THREE.Quaternion) :
  THREE.length q <> 0 ->
  toPlain (THREE.normalize q) = Renderer.normalizeQuat (toPlain q).
Proof.
  intros H. pose proof (length_nonneg q) as Hpos.
  rewrite normalize_nonzero by exact H.
  rewrite renderer_normalizeQuat_pos by (rewrite length_toPlain; lra).
  rewrite length_toPlain. reflexivity.
Qed.

Lemma unit_is_within_tolerance (q : quat) : qnorm q = 1 -> unitWithinTolerance q.
Proof.
  intros H. unfold unitWithinTolerance. rewrite H.
  replace (1 - 1) with 0 by ring. rewrite Rabs_R0. lra.
Qed.
(** ** Powers of two *)

Lemma pow2_pos (n : nat) : 0 < 2 ^ n.
Proof. apply pow_lt. lra. Qed.

Lemma pow2_le (m n : nat) : (m <= n)%nat -> 2 ^ m <= 2 ^ n.
Proof. intros H. apply Rle_pow; [lra | exact H]. Qed.

Lemma qnorm_zeroQuat_iff (q : quat) : qnorm q = 0 <-> q = zeroQuat.
Proof.
  split.
  - intros H. destruct q as [w x y z]. unfold qnorm in H; simpl in H.
    apply hypot_zero_inv in H as (-> & -> & -> & ->). reflexivity.
  - intros ->. apply hypot_zero.
Qed.

(** ** Components in range *)

Lemma zero_in_range : componentInRange 0.
Proof. left. reflexivity. Qed.

Lemma component_in_range (r : R) : / 2 <= Rabs r <= 2 -> componentInRange r.
Proof.
  intros [Hlow Hhigh]. right. split.
  - apply Rle_trans with (/ 2); [| exact Hlow].
    replace 2 with (2 ^ 1) at 2 by (simpl; ring).
    apply Rinv_le_contravar; [apply pow2_pos | apply pow2_le; lia].
  - apply Rle_trans with 2; [exact Hhigh |].
    replace 2 with (2 ^ 1) at 1 by (simpl; ring). apply pow2_le. lia.
Qed.

Lemma sqrt2_bounds : 1 <= sqrt 2 <= 2.
Proof.
  split.
  - assert (H : sqrt 1 <= sqrt 2) by (apply sqrt_le_1_alt; lra).
    rewrite sqrt_1 in H. exact H.
  - assert (H : sqrt 2 <= sqrt (2 * 2)) by (apply sqrt_le_1_alt; lra).
    rewrite sqrt_square in H by lra. exact H.
Qed.

Lemma one_in_range : componentInRange 1.
Proof. apply component_in_range. rewrite Rabs_R1. lra. Qed.

Lemma two_in_range : componentInRange 2.
Proof. apply component_in_range. rewrite Rabs_pos_eq; lra. Qed.

Lemma identity_in_range : componentsInRange identityQuat.
Proof.
  unfold componentsInRange, identityQuat; simpl.
  split_and!; auto using zero_in_range, one_in_range.
Qed.

Lemma zeroQuat_in_range : componentsInRange zeroQuat.
Proof.
  unfold componentsInRange, zeroQuat; simpl. split_and!; apply zero_in_range.
Qed.

(** ** Correction of a live sample *)

(** The product computed by [applyCalibration] is the Hamilton product
    of the conjugate of the reference with the sample. *)
Lemma toPlain_conj_multiply (ref : quat) (qNow : THREE.Quaternion) :
  toPlain
    (THREE.multiply
       (THREE.mk (- Quat.x ref) (- Quat.y ref) (- Quat.z ref) (Quat.w ref)) qNow)
  = hamilton (conjugateQuat ref) (toPlain qNow).
Proof.
  destruct ref, qNow. unfold toPlain, hamilton, conjugateQuat; simpl.
  f_equal; ring.
Qed.

Lemma applyCalibration_agree (qRef : gmap string quat) (label : string)
    (qNow : THREE.Quaternion) :
  Logger.applyCalibration qRef label (toPlain qNow)
  = toPlain (Renderer.applyCalibration qRef label qNow).
Proof.
  unfold Logger.applyCalibration, Renderer.applyCalibration.
  destruct (qRef !! label) as [ref |]; [| reflexivity].
  destruct qNow; reflexivity.
Qed.

Lemma toPlain_fromPlain (q : quat) : toPlain (fromPlain q) = q.
Proof. destruct q; reflexivity. Qed.

Lemma fromPlain_toPlain (q : THREE.Quaternion) : fromPlain (toPlain q) = q.
Proof. destruct q; reflexivity. Qed.

Lemma logger_applyCalibration_plain (qRef : gmap string quat) (label : string)
    (qNow : quat) :
  Logger.applyCalibration qRef label qNow
  = toPlain (Renderer.applyCalibration qRef label (fromPlain qNow)).
Proof. rewrite <- applyCalibration_agree, toPlain_fromPlain. reflexivity. Qed.

Lemma renderer_applyCalibration_absent (qRef : gmap string quat)
    (label : string) (qNow : THREE.Quaternion) :
  qRef !! label = None -> Renderer.applyCalibration qRef label qNow = qNow.
Proof. intros H. unfold Renderer.applyCalibration. rewrite H. reflexivity. Qed.

Lemma renderer_applyCalibration_zero (qRef : gmap string quat)
    (label : string) (ref : quat) (qNow : THREE.Quaternion) :
  qRef !! label = Some ref ->
  qnorm (hamilton (conjugateQuat ref) (toPlain qNow)) = 0 ->
  Renderer.applyCalibration qRef label qNow = THREE.identity.
Proof.
  intros Href Hz. unfold Renderer.applyCalibration. rewrite Href.
  rewrite <- toPlain_conj_multiply in Hz.
  apply normalize_zero. rewrite <- length_toPlain. exact Hz.
Qed.

Lemma renderer_applyCalibration_unit (qRef : gmap string quat)
    (label : string) (qNow : THREE.Quaternion) :
  is_Some (qRef !! label) ->
  THREE.length (Renderer.applyCalibration qRef label qNow) = 1.
Proof.
  intros [ref Href]. unfold Renderer.applyCalibration. rewrite Href.
  apply length_normalize.
Qed.

Lemma hamilton_identity_l (q : quat) : hamilton (conjugateQuat identityQuat) q = q.
Proof. destruct q. unfold hamilton, conjugateQuat, identityQuat; simpl. f_equal; ring. Qed.

Lemma qnorm_zero_quat : qnorm (Quat.mk 0 0 0 0) = 0.
Proof. apply hypot_zero. Qed.

(** ** Arithmetic on numbers with their range *)

Lemma overflowThreshold_pos : 0 < Double.overflowThreshold.
Proof.
  unfold Double.overflowThreshold.
  assert (H : / 2 ^ 53 <= 1).
  { rewrite <- Rinv_1. apply Rinv_le_contravar; [lra |].
    replace 1 with (2 ^ 0) at 1 by reflexivity. apply pow2_le. lia. }
  pose proof (pow2_pos 1023). nra.
Qed.

Lemma overflowThreshold_ge (n : nat) :
  (n <= 1023)%nat -> 2 ^ n <= Double.overflowThreshold.
Proof.
  intros Hn. unfold Double.overflowThreshold.
  assert (H : / 2 ^ 53 <= 1).
  { rewrite <- Rinv_1. apply Rinv_le_contravar; [lra |].
    replace 1 with (2 ^ 0) at 1 by reflexivity. apply pow2_le. lia. }
  pose proof (pow2_le n 1023 Hn). pose proof (pow2_pos 1023). nra.
Qed.

Lemma MIN_VALUE_pos : 0 < Double.MIN_VALUE.
Proof. apply Rinv_0_lt_compat, pow2_pos. Qed.

Lemma round_zero : Double.round 0 = Double.Num 0.
Proof.
  unfold Double.round. pose proof overflowThreshold_pos. pose proof MIN_VALUE_pos.
  destruct (Rle_dec _ _); [lra |]. destruct (Rle_dec _ _); [lra |].
  destruct (Rle_dec _ _) as [_ | Hn]; [reflexivity |].
  rewrite Rabs_R0 in Hn. lra.
Qed.

(** An exact result within the range is returned as it is. *)
Lemma round_exact (r : R) :
  Double.MIN_VALUE / 2 < Rabs r -> Rabs r < Double.overflowThreshold ->
  Double.round r = Double.Num r.
Proof.
  intros Hlow Hhigh. unfold Double.round.
  destruct (Rle_dec _ _) as [H | _].
  { apply Rabs_def2 in Hhigh. lra. }
  destruct (Rle_dec _ _) as [H | _].
  { apply Rabs_def2 in Hhigh. lra. }
  destruct (Rle_dec _ _) as [H | _]; [lra | reflexivity].
Qed.

(** What [round] returns is never below zero for an exact result that
    is not. *)
Lemma round_nonneg (r : R) :
  0 <= r ->
  Double.round r = Double.Infinity \/
  exists s, Double.round r = Double.Num s /\ 0 <= s.
Proof.
  intros Hr. unfold Double.round. pose proof overflowThreshold_pos.
  destruct (Rle_dec _ _); [left; reflexivity | right].
  destruct (Rle_dec _ _); [lra |].
  destruct (Rle_dec _ _); eexists; (split; [reflexivity | lra]).
Qed.

Lemma add_zero_zero : Double.add (Double.Num 0) (Double.Num 0) = Double.Num 0.
Proof. unfold Double.add. rewrite Rplus_0_r. apply round_zero. Qed.

Lemma add_NaN_r (a : Double.number) : Double.add a Double.NaN = Double.NaN.
Proof. destruct a; reflexivity. Qed.

Lemma div_zero_num (r : R) :
  r <> 0 -> Double.div (Double.Num 0) (Double.Num r) = Double.Num 0.
Proof.
  intros Hr. unfold Double.div. destruct (Req_dec_T r 0); [contradiction |].
  replace (0 / r) with 0 by (field; exact Hr). apply round_zero.
Qed.

(** [Math.hypot] returns [NaN], [Infinity] or a real that is not
    negative. *)
Lemma hypot_cases (a b c d : Double.number) :
  Double.hypot a b c d = Double.NaN \/
  Double.hypot a b c d = Double.Infinity \/
  exists r, Double.hypot a b c d = Double.Num r /\ 0 <= r.
Proof.
  destruct a as [a | | |], b as [b | | |], c as [c | | |], d as [d | | |];
    try (left; reflexivity); try (right; left; reflexivity).
  right. cbn [Double.hypot].
  destruct (round_nonneg (R_sqrt.sqrt (a * a + b * b + c * c + d * d)))
    as [H | H]; [apply sqrt_pos | left; exact H | right; exact H].
Qed.

Lemma normalizeQuat_agree_number (q : Double.quat) :
  Double.hypot (Double.w q) (Double.x q) (Double.y q) (Double.z q) <> Double.NaN ->
  Double.Logger.normalizeQuat q = Double.Renderer.normalizeQuat q.
Proof.
  intros Hlen. unfold Double.Logger.normalizeQuat, Double.Renderer.normalizeQuat.
  destruct (hypot_cases (Double.w q) (Double.x q) (Double.y q) (Double.z q))
    as [H | [H | (r & H & Hr)]]; [contradiction | |]; rewrite H.
  - reflexivity.
  - cbn [Double.isZero Double.isPositive].
    destruct (Req_dec_T r 0), (Rlt_dec 0 r); try reflexivity; lra.
Qed.

Lemma applyCalibration_agree_number (qRef : gmap string Double.quat)
    (label : string) (qNow : Double.THREE.Quaternion) :
  Double.Logger.applyCalibration qRef label (Double.toPlain qNow)
  = Double.toPlain (Double.Renderer.applyCalibration qRef label qNow).
Proof.
  unfold Double.Logger.applyCalibration, Double.Renderer.applyCalibration.
  destruct (Double.getProperty qRef label), qNow; reflexivity.
Qed.

Lemma toPlain_fromPlain_number (q : Double.quat) :
  Double.toPlain (Double.fromPlain q) = q.
Proof. destruct q; reflexivity. Qed.

Lemma fromPlain_toPlain_number (q : Double.THREE.Quaternion) :
  Double.fromPlain (Double.toPlain q) = q.
Proof. destruct q; reflexivity. Qed.

(** The mean of the two overflowing samples: [Infinity + -Infinity] is
    [NaN]. *)
Lemma average_overflowing :
  Double.averageSamples overflowingSamples
  = Double.mkQuat Double.NaN (Double.Num 0) (Double.Num 0) (Double.Num 0).
Proof.
  unfold Double.averageSamples, Double.sumSamples, overflowingSamples.
  cbn [fold_left Double.addSample Double.w Double.x Double.y Double.z List.length].
  rewrite !add_zero_zero.
  assert (Hadd : Double.add (Double.add (Double.Num 0) Double.Infinity)
                   Double.NegInfinity = Double.NaN) by reflexivity.
  rewrite Hadd.
  assert (Htwo : INR 2 <> 0) by (simpl; lra).
  rewrite (div_zero_num _ Htwo). reflexivity.
Qed.

(** ** At the edge of the range, and within it *)

Lemma pow2_inv_mul (m n : nat) : / 2 ^ m * / 2 ^ n = / 2 ^ (m + n).
Proof. rewrite pow_add, Rinv_mult. reflexivity. Qed.

Lemma pow2_inv_le (m n : nat) : (m <= n)%nat -> / 2 ^ n <= / 2 ^ m.
Proof.
  intros H. apply Rinv_le_contravar; [apply pow2_pos | apply pow2_le, H].
Qed.

Lemma half_MIN_VALUE : Double.MIN_VALUE / 2 = / 2 ^ 1075.
Proof.
  unfold Double.MIN_VALUE. change 1075%nat with (1074 + 1)%nat.
  rewrite <- pow2_inv_mul. simpl (2 ^ 1). field.
Qed.

Lemma overflowThreshold_le : Double.overflowThreshold <= 2 ^ 1024.
Proof.
  unfold Double.overflowThreshold. change 1024%nat with (1 + 1023)%nat.
  rewrite pow_add. simpl (2 ^ 1).
  pose proof (pow2_pos 1023). pose proof (pow2_pos 53).
  assert (0 < / 2 ^ 53) by (apply Rinv_0_lt_compat; assumption). nra.
Qed.

Lemma square_abs (c : R) : c * c = Rabs c * Rabs c.
Proof. rewrite <- Rabs_mult. symmetry. apply Rabs_pos_eq. nra. Qed.

(** The square of a number of magnitude at most [2^-538] underflows. *)
Lemma square_underflows (c : R) :
  Rabs c <= / 2 ^ 538 -> Double.mul (Double.Num c) (Double.Num c) = Double.Num 0.
Proof.
  intros Hc. cbn [Double.mul]. unfold Double.round.
  pose proof overflowThreshold_pos as Hthr.
  pose proof (Rabs_pos c) as Hpos.
  assert (Hsq : c * c <= / 2 ^ 1075).
  { rewrite square_abs.
    apply Rle_trans with (/ 2 ^ 538 * / 2 ^ 538); [nra |].
    rewrite pow2_inv_mul. apply pow2_inv_le. lia. }
  assert (Hsmall : / 2 ^ 1075 < Double.overflowThreshold).
  { apply Rle_lt_trans with (/ 2 ^ 0); [apply pow2_inv_le; lia |].
    simpl (2 ^ 0). rewrite Rinv_1.
    apply Rlt_le_trans with (2 ^ 1); [simpl; lra | apply overflowThreshold_ge; lia]. }
  assert (0 <= c * c) by nra.
  destruct (Rle_dec _ _); [lra |]. destruct (Rle_dec _ _); [lra |].
  destruct (Rle_dec _ _) as [_ | Hn]; [reflexivity |].
  exfalso. apply Hn. rewrite half_MIN_VALUE, Rabs_pos_eq by assumption. exact Hsq.
Qed.

(** The square of a number of magnitude at least [2^512] overflows. *)
Lemma square_overflows (c : R) :
  2 ^ 512 <= Rabs c -> Double.mul (Double.Num c) (Double.Num c) = Double.Infinity.
Proof.
  intros Hc. cbn [Double.mul]. unfold Double.round.
  pose proof overflowThreshold_le as Hthr. pose proof (pow2_pos 512) as Hpos.
  assert (Hsq : 2 ^ 1024 <= c * c).
  { rewrite square_abs. change 1024%nat with (512 + 512)%nat. rewrite pow_add. nra. }
  destruct (Rle_dec _ _); [reflexivity | lra].
Qed.

Lemma square_notBelowZero (c : R) :
  notBelowZero (Double.mul (Double.Num c) (Double.Num c)).
Proof.
  cbn [Double.mul].
  destruct (round_nonneg (c * c)) as [-> | (s & -> & Hs)]; [nra | exact I | exact Hs].
Qed.

Lemma add_notBelowZero (a b : Double.number) :
  notBelowZero a -> notBelowZero b ->
  notBelowZero (Double.add a b) /\
  (a = Double.Infinity \/ b = Double.Infinity -> Double.add a b = Double.Infinity).
Proof.
  destruct a as [r | | |], b as [s | | |]; cbn [notBelowZero Double.add];
    try contradiction; intros Ha Hb.
  - split; [| intros [H | H]; discriminate H].
    destruct (round_nonneg (r + s)) as [-> | (t & -> & Ht)]; [lra | exact I | exact Ht].
  - split; [exact I | reflexivity].
  - split; [exact I | reflexivity].
  - split; [exact I | reflexivity].
Qed.

(** The sum of four squares of which one overflows is [Infinity]. *)
Lemma length_overflows (q : THREE.Quaternion) :
  2 ^ 512 <= Rabs (THREE._x q) \/ 2 ^ 512 <= Rabs (THREE._y q) \/
  2 ^ 512 <= Rabs (THREE._z q) \/ 2 ^ 512 <= Rabs (THREE._w q) ->
  Double.THREE.length (quaternionOfReals q) = Double.Infinity.
Proof.
  intros Hbig. destruct q as [x y z w]. unfold Double.THREE.length, quaternionOfReals.
  cbn [THREE._x THREE._y THREE._z THREE._w Double.THREE._x Double.THREE._y
       Double.THREE._z Double.THREE._w] in *.
  pose proof (square_notBelowZero x) as Hx. pose proof (square_notBelowZero y) as Hy.
  pose proof (square_notBelowZero z) as Hz. pose proof (square_notBelowZero w) as Hw.
  destruct (add_notBelowZero _ _ Hx Hy) as [Hxy Hxy'].
  destruct (add_notBelowZero _ _ Hxy Hz) as [Hxyz Hxyz'].
  destruct (add_notBelowZero _ _ Hxyz Hw) as [_ Hall].
  assert (Hsum : Double.add
                   (Double.add
                      (Double.add (Double.mul (Double.Num x) (Double.Num x))
                         (Double.mul (Double.Num y) (Double.Num y)))
                      (Double.mul (Double.Num z) (Double.Num z)))
                   (Double.mul (Double.Num w) (Double.Num w)) = Double.Infinity).
  { destruct Hbig as [H | [H | [H | H]]].
    - apply Hall. left. apply Hxyz'. left. apply Hxy'. left. apply square_overflows, H.
    - apply Hall. left. apply Hxyz'. left. apply Hxy'. right. apply square_overflows, H.
    - apply Hall. left. apply Hxyz'. right. apply square_overflows, H.
    - apply Hall. right. apply square_overflows, H. }
  rewrite Hsum. reflexivity.
Qed.

Lemma mul_zero_r (c : R) : Double.mul (Double.Num c) (Double.Num 0) = Double.Num 0.
Proof. cbn [Double.mul]. rewrite Rmult_0_r. apply round_zero. Qed.

Lemma multiply_NaN (w : Double.number) (q : Double.THREE.Quaternion) :
  Double.THREE.multiply (Double.THREE.mk Double.NaN Double.NaN Double.NaN w) q
  = Double.THREE.mk Double.NaN Double.NaN Double.NaN Double.NaN.
Proof.
  unfold Double.THREE.multiply, Double.sub.
  cbn [Double.THREE._x Double.THREE._y Double.THREE._z Double.THREE._w
       Double.mul Double.add Double.neg].
  rewrite !add_NaN_r. reflexivity.
Qed.

Lemma normalize_NaN :
  Double.THREE.normalize
    (Double.THREE.mk Double.NaN Double.NaN Double.NaN Double.NaN)
  = Double.THREE.mk Double.NaN Double.NaN Double.NaN Double.NaN.
Proof. reflexivity. Qed.


Lemma pow2_inv_lt (m n : nat) : (m < n)%nat -> / 2 ^ n < / 2 ^ m.
Proof.
  intros H. apply Rinv_lt_contravar.
  - apply Rmult_lt_0_compat; apply pow2_pos.
  - apply Rlt_pow; [lra | exact H].
Qed.

(** An exact result that is zero or of magnitude from [2^-1022] to
    [2^1022] is returned as it is. *)
Lemma round_in_band (r : R) :
  r = 0 \/ / 2 ^ 1022 <= Rabs r <= 2 ^ 1022 -> Double.round r = Double.Num r.
Proof.
  intros [-> | [Hlow Hhigh]]; [apply round_zero |]. apply round_exact.
  - rewrite half_MIN_VALUE.
    apply Rlt_le_trans with (/ 2 ^ 1022); [apply pow2_inv_lt; lia | exact Hlow].
  - apply Rle_lt_trans with (2 ^ 1022); [exact Hhigh |].
    apply Rlt_le_trans with (2 ^ 1023); [apply Rlt_pow; [lra | lia] |].
    apply overflowThreshold_ge. lia.
Qed.

Lemma round_in_band_nonneg (r : R) :
  r = 0 \/ / 2 ^ 1022 <= r <= 2 ^ 1022 -> Double.round r = Double.Num r.
Proof.
  intros [H | [Hlow Hhigh]]; apply round_in_band; [left; exact H | right].
  pose proof (pow2_pos 1022) as Hpos. apply Rinv_0_lt_compat in Hpos.
  rewrite Rabs_pos_eq by lra. split; assumption.
Qed.

Lemma square_in_band (c : R) :
  componentInRange c -> c * c = 0 \/ / 2 ^ 1022 <= c * c <= 2 ^ 1020.
Proof.
  intros [-> | [Hlow Hhigh]]; [left; ring | right].
  pose proof (pow2_pos 511) as Hpos. apply Rinv_0_lt_compat in Hpos.
  pose proof (pow2_pos 510) as Hpos'.
  rewrite square_abs. change 1022%nat with (511 + 511)%nat.
  change 1020%nat with (510 + 510)%nat.
  rewrite <- pow2_inv_mul, pow_add. split; nra.
Qed.

(** The sum of the four squares, in the order three.js adds them. *)
Lemma sum_of_squares_exact (a b c d : R) :
  componentInRange a -> componentInRange b ->
  componentInRange c -> componentInRange d ->
  Double.add
    (Double.add
       (Double.add (Double.mul (Double.Num a) (Double.Num a))
          (Double.mul (Double.Num b) (Double.Num b)))
       (Double.mul (Double.Num c) (Double.Num c)))
    (Double.mul (Double.Num d) (Double.Num d))
  = Double.Num (a * a + b * b + c * c + d * d) /\
  (a * a + b * b + c * c + d * d = 0 \/
   / 2 ^ 1022 <= a * a + b * b + c * c + d * d <= 2 ^ 1022).
Proof.
  intros Ha Hb Hc Hd.
  apply square_in_band in Ha, Hb, Hc, Hd.
  assert (Hquad : 4 * 2 ^ 1020 = 2 ^ 1022).
  { change 1022%nat with (2 + 1020)%nat. rewrite pow_add. simpl (2 ^ 2). ring. }
  pose proof (pow2_pos 1020) as Hpos.
  pose proof (pow2_pos 1022) as Hmin. apply Rinv_0_lt_compat in Hmin.
  cbn [Double.mul Double.add].
  rewrite (round_in_band_nonneg (a * a)) by (destruct Ha; [left | right]; lra).
  rewrite (round_in_band_nonneg (b * b)) by (destruct Hb; [left | right]; lra).
  rewrite (round_in_band_nonneg (c * c)) by (destruct Hc; [left | right]; lra).
  rewrite (round_in_band_nonneg (d * d)) by (destruct Hd; [left | right]; lra).
  cbn [Double.add].
  rewrite (round_in_band_nonneg (a * a + b * b))
    by (destruct Ha, Hb; [left | right | right | right]; lra).
  cbn [Double.add].
  rewrite (round_in_band_nonneg (a * a + b * b + c * c))
    by (destruct Ha, Hb, Hc;
        [left | right | right | right | right | right | right | right]; lra).
  cbn [Double.add].
  rewrite (round_in_band_nonneg (a * a + b * b + c * c + d * d))
    by (destruct Ha, Hb, Hc, Hd;
        [left | right | right | right | right | right | right | right
         | right | right | right | right | right | right | right | right]; lra).
  split; [reflexivity |].
  destruct Ha, Hb, Hc, Hd;
    [left | right | right | right | right | right | right | right
     | right | right | right | right | right | right | right | right]; lra.
Qed.

(** The norm of a quaternion in range, and its reciprocal. *)
Lemma sqrt_in_band (s : R) :
  / 2 ^ 1022 <= s <= 2 ^ 1022 ->
  / 2 ^ 511 <= R_sqrt.sqrt s <= 2 ^ 511 /\
  / 2 ^ 511 <= / R_sqrt.sqrt s <= 2 ^ 511.
Proof.
  intros [Hlow Hhigh].
  pose proof (pow2_pos 511) as Hv. pose proof Hv as Hu. apply Rinv_0_lt_compat in Hu.
  pose proof (pow2_pos 1022) as Hmin. apply Rinv_0_lt_compat in Hmin.
  assert (Huu : / 2 ^ 511 * / 2 ^ 511 = / 2 ^ 1022)
    by (change 1022%nat with (511 + 511)%nat; apply pow2_inv_mul).
  assert (Hvv : 2 ^ 511 * 2 ^ 511 = 2 ^ 1022)
    by (change 1022%nat with (511 + 511)%nat; rewrite pow_add; reflexivity).
  assert (Huv : / 2 ^ 511 * 2 ^ 511 = 1) by (apply Rinv_l; lra).
  pose proof (sqrt_pos s) as Hpos.
  pose proof (sqrt_sqrt s) as Hsq. specialize (Hsq ltac:(lra)).
  assert (Hl : / 2 ^ 511 <= R_sqrt.sqrt s <= 2 ^ 511) by (split; nra).
  split; [exact Hl |].
  assert (Hlpos : 0 < R_sqrt.sqrt s) by lra.
  pose proof (Rinv_0_lt_compat _ Hlpos) as Hipos.
  assert (Hil : / R_sqrt.sqrt s * R_sqrt.sqrt s = 1) by (apply Rinv_l; lra).
  split; nra.
Qed.

(** A component in range times a factor from [2^-511] to [2^511]. *)
Lemma scaled_exact (c k : R) :
  componentInRange c -> / 2 ^ 511 <= k <= 2 ^ 511 ->
  Double.round (c * k) = Double.Num (c * k).
Proof.
  intros [-> | [Hlow Hhigh]] [Hk Hk']; apply round_in_band; [left; ring | right].
  pose proof (pow2_pos 511) as Hv. pose proof Hv as Hu. apply Rinv_0_lt_compat in Hu.
  pose proof (pow2_pos 510) as Hw.
  assert (Huu : / 2 ^ 511 * / 2 ^ 511 = / 2 ^ 1022)
    by (change 1022%nat with (511 + 511)%nat; apply pow2_inv_mul).
  assert (Hwv : 2 ^ 510 * 2 ^ 511 <= 2 ^ 1022).
  { rewrite <- pow_add. apply pow2_le. lia. }
  rewrite Rabs_mult, (Rabs_pos_eq k) by lra.
  pose proof (Rabs_pos c). split; nra.
Qed.

Lemma normalize_exact (q : THREE.Quaternion) :
  componentsInRange (toPlain q) ->
  Double.THREE.normalize (quaternionOfReals q)
  = quaternionOfReals (THREE.normalize q).
Proof.
  destruct q as [x y z w]. unfold componentsInRange, toPlain.
  cbn [Quat.w Quat.x Quat.y Quat.z THREE._x THREE._y THREE._z THREE._w].
  intros (Hw & Hx & Hy & Hz).
  destruct (sum_of_squares_exact x y z w Hx Hy Hz Hw) as [Hsum Hband].
  unfold Double.THREE.normalize, Double.THREE.length, THREE.normalize, THREE.length,
    quaternionOfReals.
  cbn [THREE._x THREE._y THREE._z THREE._w Double.THREE._x Double.THREE._y
       Double.THREE._z Double.THREE._w].
  rewrite Hsum. set (s := x * x + y * y + z * z + w * w) in *.
  cbn [Double.sqrt]. destruct (Rlt_dec s 0) as [Hneg | _].
  { exfalso. pose proof (pow2_pos 1022) as Hmin. apply Rinv_0_lt_compat in Hmin.
    destruct Hband; lra. }
  cbn [Double.isZero].
  destruct (Req_dec_T (R_sqrt.sqrt s) 0) as [Hzero | Hnz]; [reflexivity |].
  destruct Hband as [Hs | Hband]; [rewrite Hs, sqrt_0 in Hnz; contradiction |].
  destruct (sqrt_in_band s Hband) as [_ Hinv].
  assert (Hdiv : Double.div (Double.Num 1) (Double.Num (R_sqrt.sqrt s))
                 = Double.Num (1 / R_sqrt.sqrt s)).
  { cbn [Double.div]. destruct (Req_dec_T _ _); [contradiction |].
    unfold Rdiv. apply (scaled_exact 1 _ one_in_range Hinv). }
  rewrite Hdiv. cbn [Double.mul].
  assert (Hinv' : / 2 ^ 511 <= 1 / R_sqrt.sqrt s <= 2 ^ 511)
    by (unfold Rdiv; rewrite Rmult_1_l; exact Hinv).
  rewrite !scaled_exact by assumption. reflexivity.
Qed.

Lemma hypot_exact (q : quat) :
  componentsInRange q ->
  Double.hypot (Double.Num (Quat.w q)) (Double.Num (Quat.x q))
    (Double.Num (Quat.y q)) (Double.Num (Quat.z q))
  = Double.Num (qnorm q) /\
  (qnorm q = 0 \/ / 2 ^ 511 <= / qnorm q <= 2 ^ 511).
Proof.
  intros (Hw & Hx & Hy & Hz).
  destruct (sum_of_squares_exact _ _ _ _ Hw Hx Hy Hz) as [_ Hband].
  cbn [Double.hypot]. fold (hypot (Quat.w q) (Quat.x q) (Quat.y q) (Quat.z q)).
  fold (qnorm q). unfold qnorm, hypot in *.
  set (s := Quat.w q * Quat.w q + Quat.x q * Quat.x q
            + Quat.y q * Quat.y q + Quat.z q * Quat.z q) in *.
  destruct Hband as [Hs | Hband].
  - rewrite Hs, sqrt_0. split; [apply round_zero | left; reflexivity].
  - destruct (sqrt_in_band s Hband) as [[Hlow Hhigh] Hinv].
    split; [| right; exact Hinv].
    apply round_in_band_nonneg. right. split.
    + apply Rle_trans with (/ 2 ^ 511); [apply pow2_inv_le; lia | exact Hlow].
    + apply Rle_trans with (2 ^ 511); [exact Hhigh | apply pow2_le; lia].
Qed.

Lemma normalizeQuat_exact (q : quat) :
  componentsInRange q ->
  Double.Renderer.normalizeQuat (Double.ofReals q)
  = Double.ofReals (Renderer.normalizeQuat q).
Proof.
  intros Hq. destruct (hypot_exact q Hq) as [Hlen Hinv].
  destruct Hq as (Hw & Hx & Hy & Hz).
  unfold Double.Renderer.normalizeQuat, Double.ofReals.
  cbn [Double.w Double.x Double.y Double.z]. rewrite Hlen.
  cbn [Double.isPositive].
  pose proof (hypot_nonneg (Quat.w q) (Quat.x q) (Quat.y q) (Quat.z q)) as Hpos.
  fold (qnorm q) in Hpos.
  destruct Hinv as [Hzero | Hinv].
  - rewrite renderer_normalizeQuat_zero by exact Hzero.
    destruct (Rlt_dec 0 (qnorm q)); [lra | reflexivity].
  - assert (Hnz : qnorm q <> 0).
    { intros Hzero. rewrite Hzero, Rinv_0 in Hinv.
      pose proof (pow2_pos 511) as Hv. apply Rinv_0_lt_compat in Hv. lra. }
    rewrite renderer_normalizeQuat_pos by lra.
    destruct (Rlt_dec 0 (qnorm q)); [| lra].
    cbn [Double.div]. destruct (Req_dec_T (qnorm q) 0); [contradiction |].
    unfold Rdiv. rewrite !scaled_exact by assumption. reflexivity.
Qed.

Lemma round_component (c : R) : componentInRange c -> Double.round c = Double.Num c.
Proof.
  intros [-> | [Hlow Hhigh]]; apply round_in_band; [left; reflexivity | right].
  split.
  - apply Rle_trans with (/ 2 ^ 511); [apply pow2_inv_le; lia | exact Hlow].
  - apply Rle_trans with (2 ^ 510); [exact Hhigh | apply pow2_le; lia].
Qed.

Lemma mul_negated_zero (c : R) :
  Double.mul (Double.neg (Double.Num 0)) (Double.Num c) = Double.Num 0.
Proof.
  cbn [Double.neg Double.mul]. replace (- 0 * c) with 0 by ring. apply round_zero.
Qed.

Lemma mul_one_l (c : R) :
  componentInRange c -> Double.mul (Double.Num 1) (Double.Num c) = Double.Num c.
Proof.
  intros Hc. cbn [Double.mul]. rewrite Rmult_1_l. apply round_component, Hc.
Qed.

Lemma add_zero_l (c : R) :
  componentInRange c -> Double.add (Double.Num 0) (Double.Num c) = Double.Num c.
Proof.
  intros Hc. cbn [Double.add]. rewrite Rplus_0_l. apply round_component, Hc.
Qed.

Lemma add_zero_r (c : R) :
  componentInRange c -> Double.add (Double.Num c) (Double.Num 0) = Double.Num c.
Proof.
  intros Hc. cbn [Double.add]. rewrite Rplus_0_r. apply round_component, Hc.
Qed.

Lemma sub_zero_r (c : R) :
  componentInRange c -> Double.sub (Double.Num c) (Double.Num 0) = Double.Num c.
Proof.
  intros Hc. unfold Double.sub. cbn [Double.neg Double.add].
  replace (c + - 0) with c by ring. apply round_component, Hc.
Qed.

(** The product of the conjugate of the identity with a quaternion in
    range is that quaternion: no operation of it leaves the range. *)
Lemma multiply_identity_exact (q : THREE.Quaternion) :
  componentsInRange (toPlain q) ->
  Double.THREE.multiply
    (Double.THREE.mk (Double.neg (Double.Num 0)) (Double.neg (Double.Num 0))
       (Double.neg (Double.Num 0)) (Double.Num 1))
    (quaternionOfReals q)
  = quaternionOfReals q.
Proof.
  destruct q as [x y z w]. unfold componentsInRange, toPlain.
  cbn [Quat.w Quat.x Quat.y Quat.z THREE._x THREE._y THREE._z THREE._w].
  intros (Hw & Hx & Hy & Hz).
  unfold Double.THREE.multiply, quaternionOfReals.
  cbn [THREE._x THREE._y THREE._z THREE._w Double.THREE._x Double.THREE._y
       Double.THREE._z Double.THREE._w].
  rewrite !mul_negated_zero, !mul_one_l by assumption.
  rewrite !add_zero_l by assumption. rewrite !add_zero_r by assumption.
  rewrite !sub_zero_r by assumption. reflexivity.
Qed.

Lemma hamilton_identity_exact (q : quat) :
  componentsInRange q ->
  Double.hamilton (Double.conjugateQuat (Double.ofReals identityQuat))
    (Double.ofReals q)
  = Double.ofReals q.
Proof.
  intros Hq.
  change (Double.hamilton (Double.conjugateQuat (Double.ofReals identityQuat))
            (Double.ofReals q))
    with (Double.toPlain
            (Double.THREE.multiply
               (Double.THREE.mk (Double.neg (Double.Num 0))
                  (Double.neg (Double.Num 0)) (Double.neg (Double.Num 0))
                  (Double.Num 1))
               (quaternionOfReals (fromPlain q)))).
  rewrite multiply_identity_exact by (rewrite toPlain_fromPlain; exact Hq).
  reflexivity.
Qed.

(** [normalize] of three.js against [normalizeQuat], on numbers with
    their range, for a quaternion whose components are in range. *)
Lemma normalize_on_numbers (p : quat) :
  componentsInRange p ->
  (p <> zeroQuat ->
     Double.toPlain (Double.THREE.normalize (Double.fromPlain (Double.ofReals p)))
     = Double.Renderer.normalizeQuat (Double.ofReals p) /\
     Double.toPlain (Double.THREE.normalize (Double.fromPlain (Double.ofReals p)))
     = Double.Logger.normalizeQuat (Double.ofReals p)) /\
  (p = zeroQuat ->
     Double.THREE.normalize (Double.fromPlain (Double.ofReals p))
     = Double.THREE.identity).
Proof.
  intros Hp.
  change (Double.fromPlain (Double.ofReals p)) with (quaternionOfReals (fromPlain p)).
  rewrite normalize_exact by (rewrite toPlain_fromPlain; exact Hp).
  split.
  - intros Hnz.
    assert (Hlen : THREE.length (fromPlain p) <> 0).
    { rewrite length_fromPlain. intros Hzero. apply Hnz, qnorm_zeroQuat_iff, Hzero. }
    assert (Hexact : Double.toPlain (quaternionOfReals (THREE.normalize (fromPlain p)))
                     = Double.Renderer.normalizeQuat (Double.ofReals p)).
    { rewrite (normalizeQuat_exact p Hp).
      rewrite <- (toPlain_fromPlain p) at 2.
      rewrite <- (toPlain_normalize_nonzero _ Hlen).
      destruct (THREE.normalize (fromPlain p)); reflexivity. }
    split; [exact Hexact |].
    rewrite Hexact. symmetry. apply normalizeQuat_agree_number.
    destruct (hypot_exact p Hp) as [Hhypot _]. unfold Double.ofReals.
    cbn [Double.w Double.x Double.y Double.z]. rewrite Hhypot. discriminate.
  - intros ->.
    rewrite (normalize_zero (fromPlain zeroQuat)); [reflexivity |].
    rewrite length_fromPlain. apply qnorm_zero_quat.
Qed.

(** [applyCalibration] on numbers, with a reference and without. *)
Lemma applyCalibration_own (qRef : gmap string Double.quat) (label : string)
    (ref qNow : Double.quat) :
  qRef !! label = Some ref ->
  Double.Renderer.applyCalibration qRef label (Double.fromPlain qNow)
  = Double.THREE.normalize
      (Double.fromPlain (Double.hamilton (Double.conjugateQuat ref) qNow)).
Proof.
  intros Href. unfold Double.Renderer.applyCalibration, Double.getProperty.
  rewrite Href. reflexivity.
Qed.

Lemma applyCalibration_missing (qRef : gmap string Double.quat) (label : string)
    (qNow : Double.THREE.Quaternion) :
  qRef !! label = None ->
  Double.Renderer.applyCalibration qRef label qNow
  = if bool_decide (label ∈ objectPrototype)
    then Double.THREE.mk Double.NaN Double.NaN Double.NaN Double.NaN
    else qNow.
Proof.
  intros Hnone. unfold Double.Renderer.applyCalibration, Double.getProperty.
  rewrite Hnone.
  destruct (bool_decide (label ∈ objectPrototype)); [| reflexivity].
  cbn [Double.negated Double.fourthArgument].
  rewrite multiply_NaN. apply normalize_NaN.
Qed.

(** A zero sample against a reference of reals: the product is the zero
    quaternion, [normalizeQuat] keeps it and the correction returns the
    identity. *)
Lemma hamilton_zero_number (r : quat) :
  Double.hamilton (Double.conjugateQuat (Double.ofReals r)) (Double.ofReals zeroQuat)
  = Double.ofReals zeroQuat.
Proof.
  unfold Double.hamilton, Double.conjugateQuat, Double.ofReals, zeroQuat.
  cbn [Double.w Double.x Double.y Double.z Quat.w Quat.x Quat.y Quat.z Double.neg].
  rewrite !mul_zero_r.
  rewrite !add_zero_zero, !(sub_zero_r 0 zero_in_range). reflexivity.
Qed.

Lemma normalizeQuat_zero_number :
  Double.Renderer.normalizeQuat (Double.ofReals zeroQuat) = Double.ofReals zeroQuat /\
  Double.Logger.normalizeQuat (Double.ofReals zeroQuat) = Double.ofReals zeroQuat.
Proof.
  assert (Hrenderer : Double.Renderer.normalizeQuat (Double.ofReals zeroQuat)
                      = Double.ofReals zeroQuat).
  { rewrite (normalizeQuat_exact zeroQuat zeroQuat_in_range).
    rewrite renderer_normalizeQuat_zero by apply qnorm_zero_quat. reflexivity. }
  split; [exact Hrenderer |].
  rewrite normalizeQuat_agree_number; [exact Hrenderer |].
  destruct (hypot_exact zeroQuat zeroQuat_in_range) as [Hhypot _].
  unfold Double.ofReals. cbn [Double.w Double.x Double.y Double.z].
  rewrite Hhypot. discriminate.
Qed.

Lemma applyCalibration_zero_number (qRef : gmap string Double.quat)
    (label : string) (r : quat) :
  qRef !! label = Some (Double.ofReals r) ->
  Double.Logger.applyCalibration qRef label (Double.ofReals zeroQuat)
  = Double.ofReals identityQuat /\
  Double.Renderer.applyCalibration qRef label
    (Double.fromPlain (Double.ofReals zeroQuat))
  = Double.THREE.identity.
Proof.
  intros Href.
  assert (Hrenderer : Double.Renderer.applyCalibration qRef label
                        (Double.fromPlain (Double.ofReals zeroQuat))
                      = Double.THREE.identity).
  { rewrite (applyCalibration_own _ _ _ _ Href), hamilton_zero_number.
    apply (normalize_on_numbers zeroQuat zeroQuat_in_range). reflexivity. }
  split; [| exact Hrenderer].
  rewrite <- (toPlain_fromPlain_number (Double.ofReals zeroQuat)).
  rewrite applyCalibration_agree_number, Hrenderer. reflexivity.
Qed.
(** ** The correction on numbers with their range *)

(** C2, as stated, fails: with reference [{w:0,x:1,y:0,z:0}] and the sample
    [[0,0,0,0]] the product has norm zero; [normalize] of section 4.1
    ([normalizeQuat]) returns it unchanged, the code returns the identity;
    in exact arithmetic and on numbers with their range alike. *)
Lemma correct_zero_product_counterexample :
  let qRef : gmap string quat := {[ "RA"%string := Quat.mk 0 1 0 0 ]} in
  let qNow := Quat.mk 0 0 0 0 in
  Logger.applyCalibration qRef "RA" qNow
  <> Logger.normalizeQuat (hamilton (conjugateQuat (Quat.mk 0 1 0 0)) qNow) /\
  toPlain (Renderer.applyCalibration qRef "RA" (fromPlain qNow))
  <> Renderer.normalizeQuat (hamilton (conjugateQuat (Quat.mk 0 1 0 0)) qNow) /\
  let numbers : gmap string Double.quat := Double.ofReals <$> qRef in
  let product :=
    Double.hamilton (Double.conjugateQuat (Double.ofReals (Quat.mk 0 1 0 0)))
      (Double.ofReals qNow) in
  Double.Logger.applyCalibration numbers "RA" (Double.ofReals qNow)
  <> Double.Logger.normalizeQuat product /\
  Double.toPlain
    (Double.Renderer.applyCalibration numbers "RA"
       (Double.fromPlain (Double.ofReals qNow)))
  <> Double.Renderer.normalizeQuat product.
Proof.
  intros qRef qNow.
  assert (Hnumbers :
            let numbers : gmap string Double.quat := Double.ofReals <$> qRef in
            let product :=
              Double.hamilton (Double.conjugateQuat (Double.ofReals (Quat.mk 0 1 0 0)))
                (Double.ofReals qNow) in
            Double.Logger.applyCalibration numbers "RA" (Double.ofReals qNow)
            <> Double.Logger.normalizeQuat product /\
            Double.toPlain
              (Double.Renderer.applyCalibration numbers "RA"
                 (Double.fromPlain (Double.ofReals qNow)))
            <> Double.Renderer.normalizeQuat product).
  { intros numbers product.
    assert (Href : numbers !! "RA"%string = Some (Double.ofReals (Quat.mk 0 1 0 0))).
    { unfold numbers, qRef. rewrite lookup_fmap, lookup_singleton_eq. reflexivity. }
    destruct (applyCalibration_zero_number numbers "RA" _ Href) as [Hlogger Hrenderer].
    destruct normalizeQuat_zero_number as [Hr Hl].
    assert (Hne : Double.ofReals identityQuat <> Double.ofReals zeroQuat).
    { unfold Double.ofReals, identityQuat, zeroQuat; simpl.
      intros H. inversion H. lra. }
    unfold product. change qNow with zeroQuat.
    rewrite hamilton_zero_number, Hlogger, Hrenderer, Hr, Hl.
    split; exact Hne. }
  assert (Hp : hamilton (conjugateQuat (Quat.mk 0 1 0 0)) qNow = qNow).
  { unfold hamilton, conjugateQuat, qNow; simpl. f_equal; ring. }
  assert (Hr : Renderer.applyCalibration qRef "RA" (fromPlain qNow) = THREE.identity).
  { apply (renderer_applyCalibration_zero _ _ (Quat.mk 0 1 0 0)).
    - unfold qRef. apply lookup_singleton_eq.
    - rewrite toPlain_fromPlain, Hp. apply qnorm_zero_quat. }
  assert (Hne : identityQuat <> qNow).
  { unfold identityQuat, qNow. intros H. inversion H. lra. }
  rewrite Hp, logger_applyCalibration_plain, Hr.
  rewrite logger_normalizeQuat_zero, renderer_normalizeQuat_zero
    by apply qnorm_zero_quat.
  split_and!; [exact Hne | exact Hne | exact Hnumbers].
Qed.

(** C2 (amended): for a label that names no property of the reference
    table, neither an entry nor a property inherited from
    [Object.prototype], [correct] returns the sample unchanged. With a
    reference, [p] being the Hamilton product [conjugate(ref) * qNow] as it
    is computed: when every component of [p] is a real in range, it returns
    [normalize(p)] if [p] is not the zero quaternion and the identity
    quaternion if it is. *)
Theorem correct_spec (qRef : gmap string Double.quat) (label : string)
    (qNow : Double.quat) :
  (qRef !! label = None -> label ∉ objectPrototype ->
     Double.Logger.applyCalibration qRef label qNow = qNow /\
     Double.Renderer.applyCalibration qRef label (Double.fromPlain qNow)
     = Double.fromPlain qNow) /\
  (forall ref, qRef !! label = Some ref ->
     let product := Double.hamilton (Double.conjugateQuat ref) qNow in
     forall p : quat, product = Double.ofReals p -> componentsInRange p ->
       (p <> zeroQuat ->
          Double.Logger.applyCalibration qRef label qNow
          = Double.Logger.normalizeQuat product /\
          Double.toPlain
            (Double.Renderer.applyCalibration qRef label (Double.fromPlain qNow))
          = Double.Renderer.normalizeQuat product) /\
       (p = zeroQuat ->
          Double.Logger.applyCalibration qRef label qNow
          = Double.ofReals identityQuat /\
          Double.Renderer.applyCalibration qRef label (Double.fromPlain qNow)
          = Double.THREE.identity)).
Proof.
  assert (Hlogger : Double.Logger.applyCalibration qRef label qNow
                    = Double.toPlain
                        (Double.Renderer.applyCalibration qRef label
                           (Double.fromPlain qNow))).
  { rewrite <- applyCalibration_agree_number, toPlain_fromPlain_number.
    reflexivity. }
  split.
  - intros Hnone Hlabel. rewrite Hlogger.
    rewrite (applyCalibration_missing _ _ _ Hnone).
    rewrite bool_decide_eq_false_2 by exact Hlabel.
    split; [apply toPlain_fromPlain_number | reflexivity].
  - intros ref Href product p Hproduct Hp.
    rewrite Hlogger, (applyCalibration_own _ _ _ _ Href).
    fold product. rewrite Hproduct.
    destruct (normalize_on_numbers p Hp) as [Hnz Hz]. split.
    + intros Hne. destruct (Hnz Hne) as [Hrenderer Hlog]. split; assumption.
    + intros Hzero. rewrite (Hz Hzero). split; reflexivity.
Qed.

Lemma correct_spec_witness :
  let qRef : gmap string Double.quat := {[ "RA"%string := Double.ofReals identityQuat ]} in
  Double.Logger.applyCalibration qRef "LA" (Double.ofReals identityQuat)
  = Double.ofReals identityQuat /\
  Double.Logger.applyCalibration qRef "RA" (Double.ofReals (Quat.mk 0 2 0 0))
  = Double.Logger.normalizeQuat
      (Double.hamilton (Double.conjugateQuat (Double.ofReals identityQuat))
         (Double.ofReals (Quat.mk 0 2 0 0))) /\
  Double.Logger.applyCalibration qRef "RA" (Double.ofReals zeroQuat)
  = Double.ofReals identityQuat.
Proof.
  intros qRef.
  assert (Hra : qRef !! "RA"%string = Some (Double.ofReals identityQuat))
    by apply lookup_singleton_eq.
  assert (Hla : qRef !! "LA"%string = None)
    by (apply lookup_singleton_ne; discriminate).
  assert (Hown : ("LA"%string ∉ objectPrototype))
    by (apply (bool_decide_unpack _); vm_compute; exact I).
  assert (Hsample : componentsInRange (Quat.mk 0 2 0 0)).
  { unfold componentsInRange; simpl.
    split_and!; auto using zero_in_range, two_in_range. }
  destruct (correct_spec qRef "LA" (Double.ofReals identityQuat)) as [Habsent _].
  destruct (correct_spec qRef "RA" (Double.ofReals (Quat.mk 0 2 0 0))) as [_ Hsome].
  destruct (correct_spec qRef "RA" (Double.ofReals zeroQuat)) as [_ Hnone].
  split_and!.
  - apply (Habsent Hla Hown).
  - apply (Hsome _ Hra (Quat.mk 0 2 0 0)).
    + apply hamilton_identity_exact, Hsample.
    + exact Hsample.
    + unfold zeroQuat. intros H. inversion H. lra.
  - apply (Hnone _ Hra zeroQuat).
    + apply hamilton_identity_exact, zeroQuat_in_range.
    + apply zeroQuat_in_range.
    + reflexivity.
Defined.

(** C8, as stated, fails at the zero quaternion: with the identity as
    reference [correct] returns the identity, [normalize] returns its
    argument; in exact arithmetic and on numbers with their range alike. *)
Lemma correct_identity_ref_counterexample :
  let qRef : gmap string quat := {[ "RA"%string := identityQuat ]} in
  let q := Quat.mk 0 0 0 0 in
  Logger.applyCalibration qRef "RA" q <> Logger.normalizeQuat q /\
  toPlain (Renderer.applyCalibration qRef "RA" (fromPlain q))
  <> Renderer.normalizeQuat q /\
  let numbers : gmap string Double.quat := Double.ofReals <$> qRef in
  Double.Logger.applyCalibration numbers "RA" (Double.ofReals q)
  <> Double.Logger.normalizeQuat (Double.ofReals q) /\
  Double.toPlain
    (Double.Renderer.applyCalibration numbers "RA"
       (Double.fromPlain (Double.ofReals q)))
  <> Double.Renderer.normalizeQuat (Double.ofReals q).
Proof.
  intros qRef q.
  assert (Hnumbers :
            let numbers : gmap string Double.quat := Double.ofReals <$> qRef in
            Double.Logger.applyCalibration numbers "RA" (Double.ofReals q)
            <> Double.Logger.normalizeQuat (Double.ofReals q) /\
            Double.toPlain
              (Double.Renderer.applyCalibration numbers "RA"
                 (Double.fromPlain (Double.ofReals q)))
            <> Double.Renderer.normalizeQuat (Double.ofReals q)).
  { intros numbers.
    assert (Href : numbers !! "RA"%string = Some (Double.ofReals identityQuat)).
    { unfold numbers, qRef. rewrite lookup_fmap, lookup_singleton_eq. reflexivity. }
    destruct (applyCalibration_zero_number numbers "RA" _ Href) as [Hlogger Hrenderer].
    destruct normalizeQuat_zero_number as [Hr Hl].
    assert (Hne : Double.ofReals identityQuat <> Double.ofReals zeroQuat).
    { unfold Double.ofReals, identityQuat, zeroQuat; simpl.
      intros H. inversion H. lra. }
    change q with zeroQuat. rewrite Hlogger, Hrenderer, Hr, Hl.
    split; exact Hne. }
  assert (Hra : qRef !! "RA"%string = Some identityQuat)
    by apply lookup_singleton_eq.
  assert (Hz : qnorm (hamilton (conjugateQuat identityQuat) (toPlain (fromPlain q))) = 0).
  { rewrite toPlain_fromPlain, hamilton_identity_l. apply qnorm_zero_quat. }
  pose proof (renderer_applyCalibration_zero _ _ _ _ Hra Hz) as Hr.
  assert (Hne : identityQuat <> q).
  { unfold identityQuat, q. intros H. inversion H. lra. }
  split_and!; [| | exact Hnumbers].
  - rewrite logger_applyCalibration_plain, Hr.
    rewrite logger_normalizeQuat_zero by apply qnorm_zero_quat. exact Hne.
  - rewrite Hr. rewrite renderer_normalizeQuat_zero by apply qnorm_zero_quat.
    exact Hne.
Qed.

(** C8 (amended): with the identity as the reference of a label,
    [correct(label, q)] equals [normalize(q)] for every [q] other than the
    zero quaternion whose components are in range, and is the identity
    quaternion for the zero quaternion. *)
Theorem correct_identity_ref (qRef : gmap string Double.quat) (label : string)
    (q : quat) :
  qRef !! label = Some (Double.ofReals identityQuat) ->
  componentsInRange q ->
  (q <> zeroQuat ->
     Double.Logger.applyCalibration qRef label (Double.ofReals q)
     = Double.Logger.normalizeQuat (Double.ofReals q) /\
     Double.toPlain
       (Double.Renderer.applyCalibration qRef label
          (Double.fromPlain (Double.ofReals q)))
     = Double.Renderer.normalizeQuat (Double.ofReals q)) /\
  (q = zeroQuat ->
     Double.Logger.applyCalibration qRef label (Double.ofReals q)
     = Double.ofReals identityQuat /\
     Double.Renderer.applyCalibration qRef label
       (Double.fromPlain (Double.ofReals q))
     = Double.THREE.identity).
Proof.
  intros Href Hq.
  assert (Hrenderer :
            Double.Renderer.applyCalibration qRef label
              (Double.fromPlain (Double.ofReals q))
            = Double.THREE.normalize (Double.fromPlain (Double.ofReals q))).
  { rewrite (applyCalibration_own _ _ _ _ Href).
    rewrite hamilton_identity_exact by exact Hq. reflexivity. }
  assert (Hlogger : Double.Logger.applyCalibration qRef label (Double.ofReals q)
                    = Double.toPlain
                        (Double.THREE.normalize
                           (Double.fromPlain (Double.ofReals q)))).
  { rewrite <- Hrenderer, <- applyCalibration_agree_number,
      toPlain_fromPlain_number. reflexivity. }
  rewrite Hlogger, Hrenderer.
  destruct (normalize_on_numbers q Hq) as [Hnz Hz]. split.
  - intros Hne. destruct (Hnz Hne) as [Hr Hl]. split; assumption.
  - intros Hzero. rewrite (Hz Hzero). split; reflexivity.
Qed.

Lemma correct_identity_ref_witness :
  let qRef : gmap string Double.quat := {[ "RA"%string := Double.ofReals identityQuat ]} in
  Double.Logger.applyCalibration qRef "RA" (Double.ofReals (Quat.mk 2 0 0 0))
  = Double.Logger.normalizeQuat (Double.ofReals (Quat.mk 2 0 0 0)) /\
  Double.Logger.applyCalibration qRef "RA" (Double.ofReals zeroQuat)
  = Double.ofReals identityQuat.
Proof.
  intros qRef.
  assert (Hra : qRef !! "RA"%string = Some (Double.ofReals identityQuat))
    by apply lookup_singleton_eq.
  split.
  - apply (correct_identity_ref qRef "RA" (Quat.mk 2 0 0 0) Hra).
    + unfold componentsInRange; simpl.
      split_and!; auto using zero_in_range, two_in_range.
    + unfold zeroQuat. intros H. inversion H. lra.
  - apply (correct_identity_ref qRef "RA" zeroQuat Hra).
    + apply zeroQuat_in_range.
    + reflexivity.
Defined.

(** C9, as stated, fails: the two samples [[1e999,0,0,0]] and
    [[-1e999,0,0,0]] pass the shape test and average to [{NaN,0,0,0}],
    whose [Math.hypot] is [NaN]. [NaN > 0] is false, so the renderer's
    [normalizeQuat] returns the average as it is; [NaN === 0] is false too,
    so the logger's divides and returns [NaN] in every component. *)
Lemma normalizeQuat_nan_counterexample :
  let mean := Double.averageSamples overflowingSamples in
  mean = Double.mkQuat Double.NaN (Double.Num 0) (Double.Num 0) (Double.Num 0) /\
  Double.Renderer.normalizeQuat mean = mean /\
  Double.Logger.normalizeQuat mean
  = Double.mkQuat Double.NaN Double.NaN Double.NaN Double.NaN /\
  Double.Logger.normalizeQuat mean <> Double.Renderer.normalizeQuat mean.
Proof.
  intros mean. subst mean. rewrite average_overflowing.
  split_and!; try reflexivity. discriminate.
Qed.

Lemma round_not_NaN (r : R) : Double.round r <> Double.NaN.
Proof.
  unfold Double.round. repeat destruct (Rle_dec _ _); discriminate.
Qed.

(** C9 (amended): on numbers with their range, [Infinity] and [NaN]:
    the logger's [normalizeQuat] returns, component by component, what the
    renderer's returns for every quaternion whose [Math.hypot] is not [NaN]
    (the guards [len === 0] and [len > 0] split at the same place on every
    length that is a number, infinite or not); the logger's
    [applyCalibration] returns what the renderer's returns for every table,
    label and sample, the renderer taking and returning [THREE.Quaternion]
    objects where the logger takes and returns plain ones. *)
Theorem logger_agrees_with_renderer :
  (forall q : Double.quat,
     Double.hypot (Double.w q) (Double.x q) (Double.y q) (Double.z q) <> Double.NaN ->
     Double.Logger.normalizeQuat q = Double.Renderer.normalizeQuat q) /\
  (forall (qRef : gmap string Double.quat) (label : string)
          (qNow : Double.THREE.Quaternion),
     Double.Logger.applyCalibration qRef label (Double.toPlain qNow)
     = Double.toPlain (Double.Renderer.applyCalibration qRef label qNow)) /\
  (forall (qRef : gmap string Double.quat) (label : string) (qNow : Double.quat),
     Double.fromPlain (Double.Logger.applyCalibration qRef label qNow)
     = Double.Renderer.applyCalibration qRef label (Double.fromPlain qNow)).
Proof.
  split_and!.
  - apply normalizeQuat_agree_number.
  - apply applyCalibration_agree_number.
  - intros qRef label qNow.
    rewrite <- (toPlain_fromPlain_number qNow) at 1.
    rewrite applyCalibration_agree_number. apply fromPlain_toPlain_number.
Qed.

Lemma logger_agrees_with_renderer_witness :
  Double.Logger.normalizeQuat (Double.ofReals (Quat.mk 0 2 0 0))
  = Double.Renderer.normalizeQuat (Double.ofReals (Quat.mk 0 2 0 0)) /\
  Double.Logger.normalizeQuat
    (Double.mkQuat Double.Infinity (Double.Num 0) (Double.Num 0) (Double.Num 0))
  = Double.Renderer.normalizeQuat
      (Double.mkQuat Double.Infinity (Double.Num 0) (Double.Num 0) (Double.Num 0)).
Proof.
  destruct logger_agrees_with_renderer as [Hnormalize _].
  split; apply Hnormalize.
  - apply round_not_NaN.
  - discriminate.
Defined.

(** ** Normalization of a plain quaternion *)

(** The lines the logger's completion loop prints: one per reference. *)
Lemma logger_fold_console (data : gmap string (list quat))
    (ref : gmap string quat) (console : list Logger.event) :
  exists refs : list (string * quat),
    snd (map_fold Logger.calibrateLabel (ref, console) data)
    = console ++ map (fun entry => Logger.LogReference (fst entry) (snd entry)) refs.
Proof.
  apply (map_fold_weak_ind
           (fun acc (_ : gmap string (list quat)) =>
              exists refs : list (string * quat),
                snd acc = console
                  ++ map (fun entry => Logger.LogReference (fst entry) (snd entry)) refs)).
  - exists []. simpl. rewrite app_nil_r. reflexivity.
  - intros label samples m acc _ [refs Hrefs].
    destruct samples as [| q samples]; simpl.
    + exists refs. exact Hrefs.
    + eexists (refs ++ [(label, _)]). rewrite Hrefs, map_app, <- app_assoc.
      reflexivity.
Qed.




(** ** Samples that arrive before any calibration *)

(** C10: in the renderer, while [calibrated] and [isCalibrating] are both
    false, a well-formed sample leaves the whole state as it was: no pose
    entry, no CSV row, no bone rotation. *)
Theorem uncalibrated_sample_dropped (st : Renderer.state) (label : string)
    (count : N) (dataLabel : option string) (w x y z : R) (now : N) :
  Renderer.isCalibrating st = false ->
  Renderer.calibrated st = false ->
  Renderer.handleSensorMessage label (Sample count dataLabel w x y z) now st = st.
Proof.
  intros Hcollecting Hcalibrated. unfold Renderer.handleSensorMessage.
  rewrite Hcollecting, Hcalibrated. reflexivity.
Qed.

Lemma uncalibrated_sample_dropped_witness :
  Renderer.handleSensorMessage "RA" (Sample 7 (Some "RA"%string) 1 0 0 0) 1000
    (Renderer.onOpen "RA" Renderer.initial)
  = Renderer.onOpen "RA" Renderer.initial.
Proof.
  apply uncalibrated_sample_dropped; reflexivity.
Defined.

(** ** Completion of a calibration *)

Lemma fold_addSample (samples : list quat) (acc : quat) :
  fold_left addSample samples acc =
    Quat.mk (Quat.w acc + fold_right Rplus 0 (map Quat.w samples))
            (Quat.x acc + fold_right Rplus 0 (map Quat.x samples))
            (Quat.y acc + fold_right Rplus 0 (map Quat.y samples))
            (Quat.z acc + fold_right Rplus 0 (map Quat.z samples)).
Proof.
  revert acc. induction samples as [| q samples IH]; intros acc; simpl.
  - destruct acc; simpl. f_equal; ring.
  - rewrite IH. unfold addSample; simpl. f_equal; ring.
Qed.

(** The loop of the code computes the component-wise mean. *)
Lemma averageSamples_mean (samples : list quat) :
  averageSamples samples = meanQuat samples.
Proof.
  unfold averageSamples, sumSamples, meanQuat, componentMean.
  rewrite fold_addSample; simpl. f_equal; f_equal; ring.
Qed.

Lemma sum_identity_buffer (samples : list quat) :
  Forall (eq identityQuat) samples ->
  fold_right Rplus 0 (map Quat.w samples) = INR (List.length samples) /\
  fold_right Rplus 0 (map Quat.x samples) = 0 /\
  fold_right Rplus 0 (map Quat.y samples) = 0 /\
  fold_right Rplus 0 (map Quat.z samples) = 0.
Proof.
  induction 1 as [| q samples Hq _ IH].
  - simpl. repeat split; reflexivity.
  - destruct IH as (Hw & Hx & Hy & Hz). subst q.
    change (List.length (identityQuat :: samples)) with (S (List.length samples)).
    rewrite S_INR. simpl. rewrite Hw, Hx, Hy, Hz. repeat split; ring.
Qed.

Lemma normalizeQuat_identity : Renderer.normalizeQuat identityQuat = identityQuat.
Proof.
  assert (H : qnorm identityQuat = 1) by apply hypot_unit_w.
  rewrite renderer_normalizeQuat_pos by lra. rewrite H.
  unfold identityQuat; simpl. f_equal; field.
Qed.

Lemma average_identity_buffer (samples : list quat) :
  samples <> [] -> Forall (eq identityQuat) samples ->
  averageSamples samples = identityQuat.
Proof.
  intros Hne Hall. rewrite averageSamples_mean.
  destruct (sum_identity_buffer samples Hall) as (Hw & Hx & Hy & Hz).
  unfold meanQuat, componentMean. rewrite Hw, Hx, Hy, Hz.
  assert (Hn : INR (List.length samples) <> 0).
  { apply not_0_INR. destruct samples; [contradiction | discriminate]. }
  unfold identityQuat. f_equal; field; exact Hn.
Qed.

Lemma renderer_calibrateLabel_other (data : gmap string (list quat))
    (ref : gmap string quat) (label other : string) :
  label <> other ->
  Renderer.calibrateLabel data ref label !! other = ref !! other.
Proof.
  intros Hne. unfold Renderer.calibrateLabel.
  destruct (data !! label) as [[| q samples] |]; try reflexivity.
  apply lookup_insert_ne, Hne.
Qed.

Lemma renderer_calibrateLabel_empty (data : gmap string (list quat))
    (ref : gmap string quat) (label : string) :
  data !! label = None \/ data !! label = Some [] ->
  Renderer.calibrateLabel data ref label = ref.
Proof.
  intros [H | H]; unfold Renderer.calibrateLabel; rewrite H; reflexivity.
Qed.

Lemma renderer_calibrateLabel_set (data : gmap string (list quat))
    (ref : gmap string quat) (label : string) (samples : list quat) :
  data !! label = Some samples -> samples <> [] ->
  Renderer.calibrateLabel data ref label !! label
  = Some (Renderer.normalizeQuat (averageSamples samples)).
Proof.
  intros H Hne. unfold Renderer.calibrateLabel. rewrite H.
  destruct samples; [contradiction |]. apply lookup_insert_eq.
Qed.

(** Labels the loop does not visit, and labels without samples, keep
    the entry they had. *)
Lemma renderer_fold_calibrate_unchanged (data : gmap string (list quat))
    (labels : list string) (ref : gmap string quat) (label : string) :
  label ∉ labels \/ data !! label = None \/ data !! label = Some [] ->
  fold_left (Renderer.calibrateLabel data) labels ref !! label = ref !! label.
Proof.
  revert ref. induction labels as [| l labels IH]; intros ref H; simpl.
  - reflexivity.
  - rewrite IH.
    + destruct H as [H | H].
      * apply renderer_calibrateLabel_other. intros ->. apply H. left.
      * destruct (decide (l = label)) as [-> | Hne].
        -- rewrite renderer_calibrateLabel_empty by exact H. reflexivity.
        -- apply renderer_calibrateLabel_other, Hne.
    + destruct H as [H | H]; [left | right; exact H].
      intros Hin. apply H. right. exact Hin.
Qed.

Lemma renderer_fold_calibrate_set (data : gmap string (list quat))
    (labels : list string) (ref : gmap string quat) (label : string)
    (samples : list quat) :
  label ∈ labels -> data !! label = Some samples -> samples <> [] ->
  fold_left (Renderer.calibrateLabel data) labels ref !! label
  = Some (Renderer.normalizeQuat (averageSamples samples)).
Proof.
  intros Hin Hdata Hne. revert ref.
  induction labels as [| l labels IH]; intros ref; simpl.
  - inversion Hin.
  - destruct (decide (label ∈ labels)) as [Hlater | Hlast].
    + apply IH, Hlater.
    + apply elem_of_cons in Hin as [-> | Hin]; [| contradiction].
      rewrite renderer_fold_calibrate_unchanged by (left; exact Hlast).
      apply renderer_calibrateLabel_set; assumption.
Qed.

(** The logger's loop, key by key. *)
Lemma logger_fold_calibrate (data : gmap string (list quat))
    (ref : gmap string quat) (console : list Logger.event) (label : string) :
  fst (map_fold Logger.calibrateLabel (ref, console) data) !! label =
    match data !! label with
    | Some ((_ :: _) as samples) => Some (Logger.normalizeQuat (averageSamples samples))
    | _ => ref !! label
    end.
Proof.
  apply (map_fold_weak_ind
           (fun acc m => fst acc !! label =
              match m !! label with
              | Some ((_ :: _) as samples) =>
                  Some (Logger.normalizeQuat (averageSamples samples))
              | _ => ref !! label
              end)).
  - rewrite lookup_empty. reflexivity.
  - intros i samples m acc Hfresh IH.
    destruct (decide (i = label)) as [-> | Hne].
    + rewrite lookup_insert_eq. rewrite Hfresh in IH.
      destruct samples as [| q samples]; simpl; [exact IH |].
      apply lookup_insert_eq.
    + rewrite lookup_insert_ne by exact Hne. rewrite <- IH.
      destruct samples as [| q samples]; simpl; [reflexivity |].
      apply lookup_insert_ne, Hne.
Qed.

Lemma logger_finishCalibration_set (st : Logger.state) (label : string)
    (samples : list quat) :
  Logger.calibrationData st !! label = Some samples -> samples <> [] ->
  Logger.qRef (Logger.finishCalibration st) !! label
  = Some (Logger.normalizeQuat (averageSamples samples)).
Proof.
  intros H Hne. unfold Logger.finishCalibration; simpl.
  rewrite logger_fold_calibrate, H. destruct samples; [contradiction | reflexivity].
Qed.

Lemma logger_finishCalibration_unchanged (st : Logger.state) (label : string) :
  Logger.calibrationData st !! label = None \/
  Logger.calibrationData st !! label = Some [] ->
  Logger.qRef (Logger.finishCalibration st) !! label = Logger.qRef st !! label.
Proof.
  intros H. unfold Logger.finishCalibration; simpl.
  rewrite logger_fold_calibrate. destruct H as [-> | ->]; reflexivity.
Qed.


Lemma finish_sets_reference :
  (forall (st : Renderer.state) (label : string) (samples : list quat),
     label ∈ Renderer.connected st ->
     Renderer.calibrationData st !! label = Some samples -> samples <> [] ->
     Renderer.qRef (Renderer.finishCalibration st) !! label
     = Some (Renderer.normalizeQuat (meanQuat samples))) /\
  (forall (st : Logger.state) (label : string) (samples : list quat),
     Logger.calibrationData st !! label = Some samples -> samples <> [] ->
     Logger.qRef (Logger.finishCalibration st) !! label
     = Some (Logger.normalizeQuat (meanQuat samples))).
Proof.
  split.
  - intros st label samples Hin Hdata Hne. rewrite <- averageSamples_mean.
    apply renderer_fold_calibrate_set; assumption.
  - intros st label samples Hdata Hne. rewrite <- averageSamples_mean.
    apply logger_finishCalibration_set; assumption.
Qed.



(** ** The antipodal buffer *)

Lemma mean_antipodal : meanQuat antipodalSamples = Quat.mk 0 0 0 0.
Proof.
  unfold meanQuat, componentMean, antipodalSamples; simpl. f_equal; field.
Qed.

Lemma qnorm_zero_inv (q : quat) : qnorm q = 0 -> q = Quat.mk 0 0 0 0.
Proof.
  intros H. apply hypot_zero_inv in H as (Hw & Hx & Hy & Hz).
  destruct q; simpl in *. subst. reflexivity.
Qed.

(** The reference both runs end with. *)
Lemma antipodal_reference_zero :
  Logger.qRef antipodalLoggerRun !! "RA"%string = Some (Quat.mk 0 0 0 0) /\
  Renderer.qRef antipodalRendererRun !! "RA"%string = Some (Quat.mk 0 0 0 0).
Proof.
  assert (Hz : qnorm (averageSamples antipodalSamples) = 0)
    by (rewrite averageSamples_mean, mean_antipodal; apply qnorm_zero_quat).
  assert (Hzero : averageSamples antipodalSamples = Quat.mk 0 0 0 0)
    by (rewrite averageSamples_mean; apply mean_antipodal).
  split.
  - transitivity (Some (Logger.normalizeQuat (averageSamples antipodalSamples)));
      [reflexivity |].
    rewrite logger_normalizeQuat_zero by exact Hz. f_equal. exact Hzero.
  - transitivity (Some (Renderer.normalizeQuat (averageSamples antipodalSamples)));
      [reflexivity |].
    rewrite renderer_normalizeQuat_zero by exact Hz. f_equal. exact Hzero.
Qed.




(** ** The visiting order of the retargeting pass *)

Lemma indexOf_lookup (label : string) (labels : list string) (i : nat) :
  indexOf label labels = Some i -> labels !! i = Some label.
Proof.
  revert i. induction labels as [| l labels IH]; intros i; simpl.
  - discriminate.
  - destruct (String.eqb_spec label l) as [-> | Hne].
    + intros [= <-]. reflexivity.
    + destruct (indexOf label labels) as [k |]; simpl; [| discriminate].
      intros [= <-]. simpl. apply IH. reflexivity.
Qed.

Lemma parent_visited_before (label parent : string) :
  Renderer.parentLabel !! label = Some (Some parent) ->
  visitedBefore Renderer.order parent label.
Proof.
  intros H. parent_cases H;
    (eexists _, _; split_and!;
     [apply indexOf_lookup; reflexivity | apply indexOf_lookup; reflexivity
     | simpl; lia]).
Qed.

Lemma root_is_hips (label : string) :
  Renderer.parentLabel !! label = Some None <-> label = "HIPS"%string.
Proof.
  split.
  - intros H. parent_cases H. reflexivity.
  - intros ->. reflexivity.
Qed.

Lemma order_has_parent_entry (label : string) :
  label ∈ Renderer.order <-> is_Some (Renderer.parentLabel !! label).
Proof.
  split.
  - intros H. order_cases H; eexists; reflexivity.
  - intros [parent H]. parent_cases H; unfold Renderer.order; set_solver.
Qed.

Lemma order_NoDup : NoDup Renderer.order.
Proof.
  apply (bool_decide_unpack _). vm_compute. exact I.
Qed.

Lemma parent_truthy (label parent : string) :
  Renderer.parentLabel !! label = Some (Some parent) -> truthy parent = true.
Proof. intros H. parent_cases H; reflexivity. Qed.

Lemma order_offset_identity (label : string) :
  label ∈ Renderer.order -> Renderer.boneOffset !!! label = THREE.identity.
Proof. intros H. order_cases H; reflexivity. Qed.

Lemma isRoot_hips (label : string) : isRoot label = String.eqb label "HIPS".
Proof.
  unfold isRoot. destruct (String.eqb_spec label "HIPS") as [-> | Hne].
  - reflexivity.
  - apply bool_decide_eq_false. intros H. apply Hne, root_is_hips, H.
Qed.

(** C6: the order of the pass is topological for [parentLabel]: the
    parent of every joint that has one is visited strictly before it, the
    root HIPS, the only label whose parent is [null], comes first, and the
    order lists each joint of the table once. *)
Theorem order_topological :
  (forall label parent : string,
     Renderer.parentLabel !! label = Some (Some parent) ->
     visitedBefore Renderer.order parent label) /\
  head Renderer.order = Some "HIPS"%string /\
  (forall label : string,
     Renderer.parentLabel !! label = Some None <-> label = "HIPS"%string) /\
  (forall label : string,
     label ∈ Renderer.order <-> is_Some (Renderer.parentLabel !! label)) /\
  NoDup Renderer.order.
Proof.
  split_and!.
  - apply parent_visited_before.
  - reflexivity.
  - apply root_is_hips.
  - apply order_has_parent_entry.
  - apply order_NoDup.
Qed.

Lemma order_topological_witness :
  visitedBefore Renderer.order "RA" "RFA" /\
  visitedBefore Renderer.order "HIPS" "LUL" /\
  "LL"%string ∈ Renderer.order.
Proof.
  destruct order_topological as (Hparent & _ & _ & Hdom & _).
  split_and!.
  - apply Hparent. reflexivity.
  - apply Hparent. reflexivity.
  - apply Hdom. eexists. reflexivity.
Defined.

(** ** The retargeting pass *)

Lemma boneStep_skip (tables : gmap string THREE.Quaternion * gmap string Renderer.Bone)
    (label : string) :
  snd tables !! label = None \/ fst tables !! label = None ->
  Renderer.boneStep tables label = tables.
Proof.
  destruct tables as [pose bones]; simpl. unfold Renderer.boneStep.
  intros [H | H].
  - rewrite H. reflexivity.
  - destruct (bones !! label); [| reflexivity]. rewrite H. reflexivity.
Qed.

Lemma boneStep_visit (pose : gmap string THREE.Quaternion)
    (bones : gmap string Renderer.Bone) (label : string)
    (bone : Renderer.Bone) (sensorQ : THREE.Quaternion) :
  bones !! label = Some bone -> pose !! label = Some sensorQ ->
  Renderer.boneStep (pose, bones) label =
    (<[label := THREE.normalize sensorQ]> pose,
     <[label := Renderer.mkBone (Renderer.bindQuat bone) (Renderer.bindInv bone)
                  (THREE.normalize
                     (Renderer.bindCorrected label bone
                        (Renderer.localSensorQuat
                           (<[label := THREE.normalize sensorQ]> pose) label
                           (THREE.normalize sensorQ))))]> bones).
Proof.
  intros Hbone Hpose. unfold Renderer.boneStep. rewrite Hbone, Hpose. reflexivity.
Qed.

Lemma boneStep_cases (tables : gmap string THREE.Quaternion * gmap string Renderer.Bone)
    (label : string) :
  Renderer.boneStep tables label = tables \/
  exists bone sensorQ,
    snd tables !! label = Some bone /\ fst tables !! label = Some sensorQ /\
    Renderer.boneStep tables label =
      (<[label := THREE.normalize sensorQ]> (fst tables),
       <[label := Renderer.mkBone (Renderer.bindQuat bone) (Renderer.bindInv bone)
                    (THREE.normalize
                       (Renderer.bindCorrected label bone
                          (Renderer.localSensorQuat
                             (<[label := THREE.normalize sensorQ]> (fst tables)) label
                             (THREE.normalize sensorQ))))]> (snd tables)).
Proof.
  destruct tables as [pose bones]; cbn [fst snd].
  destruct (bones !! label) as [bone |] eqn:Hbone;
    [| left; apply boneStep_skip; left; exact Hbone].
  destruct (pose !! label) as [sensorQ |] eqn:Hpose;
    [| left; apply boneStep_skip; right; exact Hpose].
  right. exists bone, sensorQ. split_and!; try reflexivity.
  apply boneStep_visit; assumption.
Qed.

(** A step touches the two entries of its own label only. *)
Lemma boneStep_other (tables : gmap string THREE.Quaternion * gmap string Renderer.Bone)
    (label other : string) :
  label <> other ->
  fst (Renderer.boneStep tables label) !! other = fst tables !! other /\
  snd (Renderer.boneStep tables label) !! other = snd tables !! other.
Proof.
  intros Hne.
  destruct (boneStep_cases tables label) as [-> | (bone & sensorQ & _ & _ & ->)].
  - split; reflexivity.
  - simpl. split; apply lookup_insert_ne, Hne.
Qed.

Lemma retarget_other (labels : list string)
    (tables : gmap string THREE.Quaternion * gmap string Renderer.Bone)
    (other : string) :
  other ∉ labels ->
  fst (Renderer.retarget labels tables) !! other = fst tables !! other /\
  snd (Renderer.retarget labels tables) !! other = snd tables !! other.
Proof.
  revert tables. unfold Renderer.retarget.
  induction labels as [| l labels IH]; intros tables Hnot; simpl.
  - split; reflexivity.
  - apply not_elem_of_cons in Hnot as [Hne Hnot].
    destruct (IH (Renderer.boneStep tables l) Hnot) as [-> ->].
    apply boneStep_other. congruence.
Qed.

(** An entry of the pose table after a pass is the entry before it or
    its normalization; no entry appears or disappears. *)
Lemma retarget_pose_cases (labels : list string)
    (tables : gmap string THREE.Quaternion * gmap string Renderer.Bone)
    (k : string) :
  match fst tables !! k with
  | Some q =>
      fst (Renderer.retarget labels tables) !! k = Some q \/
      fst (Renderer.retarget labels tables) !! k = Some (THREE.normalize q)
  | None => fst (Renderer.retarget labels tables) !! k = None
  end.
Proof.
  revert tables. unfold Renderer.retarget.
  induction labels as [| l labels IH]; intros tables; simpl.
  - destruct (fst tables !! k); [left |]; reflexivity.
  - specialize (IH (Renderer.boneStep tables l)).
    destruct (decide (l = k)) as [-> | Hne].
    + destruct (boneStep_cases tables k) as [Hskip | (bone & sensorQ & _ & Hpose & Hstep)].
      * rewrite Hskip in *. exact IH.
      * rewrite Hstep in *. simpl in IH. rewrite lookup_insert_eq in IH.
        rewrite Hpose.
        rewrite (normalize_unit (THREE.normalize sensorQ)) in IH
          by apply length_normalize.
        right. destruct IH as [IH | IH]; exact IH.
    + destruct (boneStep_other tables l k Hne) as [Hsame _].
      rewrite Hsame in IH. exact IH.
Qed.

Lemma localSensorQuat_ext (pose pose' : gmap string THREE.Quaternion)
    (label : string) (sensorQ : THREE.Quaternion) :
  (forall parent, Renderer.parentLabel !! label = Some (Some parent) ->
                  pose !! parent = pose' !! parent) ->
  Renderer.localSensorQuat pose label sensorQ
  = Renderer.localSensorQuat pose' label sensorQ.
Proof.
  intros H. unfold Renderer.localSensorQuat.
  destruct (Renderer.parentLabel !! label) as [[parent |] |]; try reflexivity.
  rewrite (H parent eq_refl). reflexivity.
Qed.

(** The pass at a label it visits once, after every label the step reads. *)
Lemma retarget_visit (before after : list string) (label : string)
    (tables : gmap string THREE.Quaternion * gmap string Renderer.Bone)
    (bone : Renderer.Bone) (sensorQ : THREE.Quaternion) :
  label ∉ before -> label ∉ after ->
  (forall parent, Renderer.parentLabel !! label = Some (Some parent) ->
                  parent <> label /\ parent ∉ after) ->
  snd tables !! label = Some bone -> fst tables !! label = Some sensorQ ->
  let tables' := Renderer.retarget (before ++ label :: after) tables in
  fst tables' !! label = Some (THREE.normalize sensorQ) /\
  snd tables' !! label =
    Some (Renderer.mkBone (Renderer.bindQuat bone) (Renderer.bindInv bone)
            (THREE.normalize
               (Renderer.bindCorrected label bone
                  (Renderer.localSensorQuat (fst tables') label
                     (THREE.normalize sensorQ))))).
Proof.
  intros Hbefore Hafter Hparent Hbone Hpose tables'. subst tables'.
  unfold Renderer.retarget. rewrite fold_left_app. simpl.
  fold (Renderer.retarget before tables).
  destruct (retarget_other before tables label Hbefore) as [Hpose1 Hbone1].
  rewrite Hpose in Hpose1. rewrite Hbone in Hbone1.
  destruct (Renderer.retarget before tables) as [pose1 bones1] eqn:Hpre.
  simpl in Hpose1, Hbone1.
  rewrite (boneStep_visit _ _ _ _ _ Hbone1 Hpose1).
  match goal with
  | |- context [fold_left Renderer.boneStep after ?t] =>
      fold (Renderer.retarget after t); set (mid := t)
  end.
  destruct (retarget_other after mid label Hafter) as [Hpose2 Hbone2].
  rewrite Hpose2, Hbone2. subst mid. simpl.
  rewrite !lookup_insert_eq. split; [reflexivity |].
  do 4 f_equal. apply localSensorQuat_ext.
  intros parent Hp. destruct (Hparent parent Hp) as [Hne Hnot].
  match goal with
  | |- _ = fst (Renderer.retarget after ?t) !! parent =>
      destruct (retarget_other after t parent Hnot) as [-> _]
  end.
  reflexivity.
Qed.

(** Where a label of [order] stands: once, after its parent. *)
Lemma order_split (label : string) :
  label ∈ Renderer.order ->
  exists before after,
    Renderer.order = before ++ label :: after /\
    (label ∉ before) /\ (label ∉ after) /\
    forall parent, Renderer.parentLabel !! label = Some (Some parent) ->
                   parent <> label /\ (parent ∉ after).
Proof.
  intros Hin. apply list_elem_of_lookup_1 in Hin as [j Hj].
  pose proof (take_drop_middle _ _ _ Hj) as Hsplit.
  pose proof order_NoDup as Hnodup. rewrite <- Hsplit in Hnodup.
  apply NoDup_app in Hnodup as (_ & Hdisjoint & Hrest).
  apply NoDup_cons in Hrest as [Hafter _].
  exists (take j Renderer.order), (drop (S j) Renderer.order).
  split_and!.
  - symmetry. exact Hsplit.
  - intros Hbefore. apply (Hdisjoint _ Hbefore). left.
  - exact Hafter.
  - intros parent Hp.
    destruct (parent_visited_before _ _ Hp) as (i & j' & Hi & Hj' & Hlt).
    assert (j' = j) by (eapply NoDup_lookup; eauto using order_NoDup). subst j'.
    assert (Hbefore : parent ∈ take j Renderer.order)
      by (apply elem_of_take; eauto).
    specialize (Hdisjoint _ Hbefore).
    apply not_elem_of_cons in Hdisjoint. exact Hdisjoint.
Qed.

(** What one pass writes for a joint that has a bone and a pose entry,
    in the operations of three.js. *)
Lemma retarget_order_visit
    (tables : gmap string THREE.Quaternion * gmap string Renderer.Bone)
    (label : string) (bone : Renderer.Bone) (sensorQ : THREE.Quaternion) :
  label ∈ Renderer.order ->
  snd tables !! label = Some bone -> fst tables !! label = Some sensorQ ->
  let tables' := Renderer.retarget Renderer.order tables in
  fst tables' !! label = Some (THREE.normalize sensorQ) /\
  snd tables' !! label =
    Some (Renderer.mkBone (Renderer.bindQuat bone) (Renderer.bindInv bone)
            (THREE.normalize
               (Renderer.bindCorrected label bone
                  (Renderer.localSensorQuat (fst tables') label
                     (THREE.normalize sensorQ))))).
Proof.
  intros Hin Hbone Hpose.
  destruct (order_split label Hin) as (before & after & -> & Hb & Ha & Hp).
  apply retarget_visit; assumption.
Qed.
(** The pose table after a pass, entry by entry. *)

Lemma retarget_skip (labels : list string)
    (tables : gmap string THREE.Quaternion * gmap string Renderer.Bone)
    (k : string) :
  snd tables !! k = None \/ fst tables !! k = None ->
  fst (Renderer.retarget labels tables) !! k = fst tables !! k /\
  snd (Renderer.retarget labels tables) !! k = snd tables !! k.
Proof.
  revert tables. unfold Renderer.retarget.
  induction labels as [| l labels IH]; intros tables H; simpl.
  - split; reflexivity.
  - destruct (decide (l = k)) as [-> | Hne].
    + rewrite (boneStep_skip tables k H). apply IH, H.
    + destruct (boneStep_other tables l k Hne) as [Hpose Hbones].
      destruct (IH (Renderer.boneStep tables l)) as [-> ->].
      * rewrite Hpose, Hbones. exact H.
      * split; assumption.
Qed.

Lemma retarget_order_pose
    (tables : gmap string THREE.Quaternion * gmap string Renderer.Bone)
    (k : string) :
  fst (Renderer.retarget Renderer.order tables) !! k =
    match fst tables !! k with
    | Some q =>
        if bool_decide (k ∈ Renderer.order /\ is_Some (snd tables !! k))
        then Some (THREE.normalize q) else Some q
    | None => None
    end.
Proof.
  destruct (fst tables !! k) as [q |] eqn:Hq.
  - case_bool_decide as Hcase.
    + destruct Hcase as [Hin [bone Hbone]].
      apply (retarget_order_visit tables k bone q Hin Hbone Hq).
    + destruct (decide (k ∈ Renderer.order)) as [Hin | Hnot].
      * destruct (snd tables !! k) as [bone |] eqn:Hbone.
        -- exfalso. apply Hcase. split; [exact Hin | eexists; reflexivity].
        -- destruct (retarget_skip Renderer.order tables k (or_introl Hbone)) as [-> _].
           exact Hq.
      * destruct (retarget_other Renderer.order tables k Hnot) as [-> _]. exact Hq.
  - destruct (retarget_skip Renderer.order tables k (or_intror Hq)) as [-> _].
    exact Hq.
Qed.


Lemma localSensorQuat_length (pose : gmap string THREE.Quaternion)
    (label : string) (sensorQ : THREE.Quaternion) :
  THREE.length sensorQ = 1 ->
  (forall parent parentQ,
     Renderer.parentLabel !! label = Some (Some parent) ->
     pose !! parent = Some parentQ -> THREE.length parentQ = 1) ->
  THREE.length (Renderer.localSensorQuat pose label sensorQ) = 1.
Proof.
  intros Hown Hparent. unfold Renderer.localSensorQuat, THREE.clone.
  destruct (Renderer.parentLabel !! label) as [[parent |] |]; try exact Hown.
  destruct (truthy parent); [| exact Hown].
  destruct (pose !! parent) as [parentQ |] eqn:Hp; [| exact Hown].
  rewrite length_multiply. unfold THREE.invert.
  rewrite length_conjugate, (Hparent parent parentQ eq_refl Hp), Hown. ring.
Qed.

(** On unit entries the code's [localSensorQuat] is the parent-relative
    orientation of the specification. *)
Lemma localSensorQuat_parentLocal (pose : gmap string THREE.Quaternion)
    (label : string) (own : THREE.Quaternion) :
  pose !! label = Some own ->
  (forall parent parentQ,
     Renderer.parentLabel !! label = Some (Some parent) ->
     pose !! parent = Some parentQ -> THREE.length parentQ = 1) ->
  parentLocal pose label = Some (Renderer.localSensorQuat pose label own).
Proof.
  intros Hown Hparent. unfold parentLocal, Renderer.localSensorQuat, THREE.clone.
  rewrite Hown.
  destruct (Renderer.parentLabel !! label) as [[parent |] |] eqn:Hp; try reflexivity.
  rewrite (parent_truthy _ _ Hp).
  destruct (pose !! parent) as [parentQ |] eqn:Hq; [| reflexivity].
  rewrite (inverse_unit parentQ) by (eapply Hparent; eauto). reflexivity.
Qed.

Lemma bindCorrected_length (label : string) (bone : Renderer.Bone)
    (local : THREE.Quaternion) :
  label ∈ Renderer.order ->
  THREE.length (Renderer.bindQuat bone) = 1 ->
  Renderer.bindInv bone = THREE.invert (Renderer.bindQuat bone) ->
  THREE.length local = 1 ->
  THREE.length (Renderer.bindCorrected label bone local) = 1.
Proof.
  intros Hin Hbind Hinv Hlocal. unfold Renderer.bindCorrected, THREE.clone.
  rewrite (order_offset_identity _ Hin).
  destruct (String.eqb label "HIPS");
    rewrite !length_multiply, length_identity, Hlocal.
  - rewrite Hbind. ring.
  - rewrite Hinv. unfold THREE.invert. rewrite length_conjugate, Hbind. ring.
Qed.

Lemma bindCorrected_rotation (label : string) (bone : Renderer.Bone)
    (local : THREE.Quaternion) :
  THREE.length (Renderer.bindCorrected label bone local) <> 0 ->
  toPlain (THREE.normalize (Renderer.bindCorrected label bone local))
  = bindCorrectedRotation label bone local.
Proof.
  intros Hnz. rewrite (toPlain_normalize_nonzero _ Hnz).
  unfold bindCorrectedRotation, Renderer.bindCorrected, THREE.clone.
  rewrite isRoot_hips. destruct (String.eqb label "HIPS"); reflexivity.
Qed.

(** After a pass over a valid skeleton the pose entry of the parent of a
    mapped joint has unit norm: the pass has normalized it in place. *)
Lemma retarget_parent_unit
    (tables : gmap string THREE.Quaternion * gmap string Renderer.Bone)
    (label parent : string) (parentQ : THREE.Quaternion) :
  validSkeleton (snd tables) ->
  is_Some (snd tables !! label) ->
  Renderer.parentLabel !! label = Some (Some parent) ->
  fst (Renderer.retarget Renderer.order tables) !! parent = Some parentQ ->
  THREE.length parentQ = 1.
Proof.
  intros [Hclosed _] Hbone Hp Hfinal.
  destruct (Hclosed _ _ Hbone Hp) as [parentBone HparentBone].
  assert (Hin : parent ∈ Renderer.order).
  { destruct (parent_visited_before _ _ Hp) as (i & _ & Hi & _).
    eapply list_elem_of_lookup_2, Hi. }
  pose proof (retarget_pose_cases Renderer.order tables parent) as Hcases.
  destruct (fst tables !! parent) as [q |] eqn:Hq; [| congruence].
  destruct (retarget_order_visit tables parent parentBone q Hin HparentBone Hq)
    as [Hvisit _].
  rewrite Hvisit in Hfinal. injection Hfinal as <-. apply length_normalize.
Qed.

Lemma parentLocal_ext (pose pose' : gmap string THREE.Quaternion)
    (label : string) :
  pose !! label = pose' !! label ->
  (forall parent, Renderer.parentLabel !! label = Some (Some parent) ->
                  pose !! parent = pose' !! parent) ->
  parentLocal pose label = parentLocal pose' label.
Proof.
  intros Hown Hparent. unfold parentLocal. rewrite Hown.
  destruct (pose' !! label); [| reflexivity].
  destruct (Renderer.parentLabel !! label) as [[parent |] |]; try reflexivity.
  rewrite (Hparent parent eq_refl). reflexivity.
Qed.

(** Over a valid skeleton the pass leaves, for a mapped joint and for its
    parent, the entries of the given pose table normalized. *)
Lemma retarget_normalizes_read
    (tables : gmap string THREE.Quaternion * gmap string Renderer.Bone)
    (label : string) (bone : Renderer.Bone) (sensorQ : THREE.Quaternion) :
  validSkeleton (snd tables) ->
  label ∈ Renderer.order ->
  snd tables !! label = Some bone -> fst tables !! label = Some sensorQ ->
  parentLocal (THREE.normalize <$> fst tables) label
  = parentLocal (fst (Renderer.retarget Renderer.order tables)) label.
Proof.
  intros [Hclosed _] Hin Hbone Hpose.
  destruct (retarget_order_visit tables label bone sensorQ Hin Hbone Hpose)
    as [Hown _].
  apply parentLocal_ext.
  - rewrite lookup_fmap, Hpose, Hown. reflexivity.
  - intros parent Hp. rewrite lookup_fmap.
    destruct (Hclosed label parent (mk_is_Some _ _ Hbone) Hp) as [parentBone HparentBone].
    assert (HparentIn : parent ∈ Renderer.order).
    { destruct (parent_visited_before _ _ Hp) as (i & _ & Hi & _).
      eapply list_elem_of_lookup_2, Hi. }
    pose proof (retarget_pose_cases Renderer.order tables parent) as Hcases.
    destruct (fst tables !! parent) as [parentQ |] eqn:Hq.
    + destruct (retarget_order_visit tables parent parentBone parentQ
                  HparentIn HparentBone Hq) as [-> _].
      reflexivity.
    + rewrite Hcases. reflexivity.
Qed.

Lemma restSkeleton_valid : validSkeleton restSkeleton.
Proof.
  split.
  - intros label parent _ Hp. parent_cases Hp; eexists; reflexivity.
  - intros label bone H. unfold restSkeleton in H.
    rewrite lookup_fmap in H.
    destruct (Renderer.labelToBoneName !! label); [| discriminate].
    injection H as <-. split; [apply length_identity | reflexivity].
Qed.

Lemma quarterTurnZ_unit : THREE.length quarterTurnZ = 1.
Proof.
  unfold THREE.length, quarterTurnZ; simpl.
  replace (0 * 0 + 0 * 0 + sqrt 2 / 2 * (sqrt 2 / 2) + sqrt 2 / 2 * (sqrt 2 / 2))
    with (sqrt 2 * sqrt 2 / 2) by field.
  rewrite sqrt_sqrt by lra.
  replace (2 / 2) with 1 by field. apply sqrt_1.
Qed.

(** One pass, read on the state: what it writes for a joint that has a
    bone and a pose entry, and that it adds no pose entry. *)
Lemma pass_visit (st : Renderer.state) (label : string) (bone : Renderer.Bone)
    (sensorQ : THREE.Quaternion) :
  label ∈ Renderer.order ->
  Renderer.boneMap st !! label = Some bone ->
  Renderer.sensorGlobal st !! label = Some sensorQ ->
  let st' := Renderer.applySensorToBones st in
  Renderer.sensorGlobal st' !! label = Some (THREE.normalize sensorQ) /\
  Renderer.boneMap st' !! label =
    Some (Renderer.mkBone (Renderer.bindQuat bone) (Renderer.bindInv bone)
            (THREE.normalize
               (Renderer.bindCorrected label bone
                  (Renderer.localSensorQuat (Renderer.sensorGlobal st') label
                     (THREE.normalize sensorQ))))).
Proof.
  intros Hin Hbone Hpose.
  apply (retarget_order_visit (Renderer.sensorGlobal st, Renderer.boneMap st)
           label bone sensorQ Hin Hbone Hpose).
Qed.

Lemma pass_absent (st : Renderer.state) (k : string) :
  Renderer.sensorGlobal st !! k = None ->
  Renderer.sensorGlobal (Renderer.applySensorToBones st) !! k = None.
Proof.
  intros H.
  pose proof (retarget_pose_cases Renderer.order
                (Renderer.sensorGlobal st, Renderer.boneMap st) k) as Hcases.
  cbn [fst] in Hcases. rewrite H in Hcases. exact Hcases.
Qed.

(** The rotation written for a joint whose parent has no pose entry. *)
Lemma pass_visit_without_parent (st : Renderer.state) (label parent : string)
    (bone : Renderer.Bone) (sensorQ : THREE.Quaternion) :
  label ∈ Renderer.order ->
  Renderer.boneMap st !! label = Some bone ->
  Renderer.sensorGlobal st !! label = Some sensorQ ->
  Renderer.parentLabel !! label = Some (Some parent) ->
  Renderer.sensorGlobal st !! parent = None ->
  Renderer.boneMap (Renderer.applySensorToBones st) !! label =
    Some (Renderer.mkBone (Renderer.bindQuat bone) (Renderer.bindInv bone)
            (THREE.normalize
               (Renderer.bindCorrected label bone (THREE.normalize sensorQ)))).
Proof.
  intros Hin Hbone Hpose Hp Hnone.
  destruct (pass_visit st label bone sensorQ Hin Hbone Hpose) as [_ Hwritten].
  rewrite Hwritten. unfold Renderer.localSensorQuat.
  rewrite Hp, (parent_truthy _ _ Hp), (pass_absent st parent Hnone).
  reflexivity.
Qed.

Lemma zeroSampleRun_pass :
  zeroSampleRun = Renderer.applySensorToBones zeroSamplePose.
Proof.
  unfold zeroSampleRun, Renderer.handleSensorMessage.
  cbn [Renderer.finishCalibration Renderer.isCalibrating Renderer.calibrated].
  cbv iota. f_equal.
Qed.



Lemma quarterTurnZ_in_range : componentsInRange (toPlain quarterTurnZ).
Proof.
  assert (Hhalf : componentInRange (sqrt 2 / 2)).
  { apply component_in_range.
    pose proof sqrt2_bounds as [Hlow Hhigh].
    rewrite Rabs_pos_eq by lra. lra. }
  unfold componentsInRange, quarterTurnZ; simpl.
  split_and!; auto using zero_in_range.
Qed.

Lemma examplePose_in_range : poseInRange (Renderer.sensorGlobal examplePose).
Proof.
  intros label q H.
  cbn [examplePose Renderer.sensorGlobal] in H.
  apply lookup_insert_Some in H as [[_ <-] | [_ H]]; [apply identity_in_range |].
  apply lookup_singleton_Some in H as [_ <-]. apply quarterTurnZ_in_range.
Qed.


(** ** Norms of what is stored and emitted *)

Lemma not_unit_double : ~ unitWithinTolerance (Quat.mk 2 0 0 0).
Proof.
  unfold unitWithinTolerance, qnorm, hypot; simpl.
  replace (2 * 2 + 0 * 0 + 0 * 0 + 0 * 0) with (2 * 2) by ring.
  rewrite sqrt_square by lra.
  replace (2 - 1) with 1 by ring. rewrite Rabs_R1. lra.
Qed.

Lemma not_unit_zero : ~ unitWithinTolerance (Quat.mk 0 0 0 0).
Proof.
  unfold unitWithinTolerance. rewrite qnorm_zero_quat.
  replace (0 - 1) with (- (1)) by ring. rewrite Rabs_Ropp, Rabs_R1. lra.
Qed.


Lemma unit_toPlain (q : THREE.Quaternion) :
  THREE.length q = 1 -> unitWithinTolerance (toPlain q).
Proof. intros H. apply unit_is_within_tolerance. rewrite length_toPlain. exact H. Qed.

Lemma retarget_unit_kept (labels : list string)
    (tables : gmap string THREE.Quaternion * gmap string Renderer.Bone)
    (k : string) (q : THREE.Quaternion) :
  fst tables !! k = Some q -> THREE.length q = 1 ->
  fst (Renderer.retarget labels tables) !! k = Some q.
Proof.
  intros Hk Hq. pose proof (retarget_pose_cases labels tables k) as Hcases.
  rewrite Hk in Hcases. rewrite (normalize_unit q Hq) in Hcases.
  destruct Hcases as [H | H]; exact H.
Qed.

(** What the renderer does with a live sample once calibrated: a row
    for the corrected sample, and the pose entry of its label, which the
    pass of the same call normalizes when the label is one of the order and
    has a bone. *)
Lemma handle_live_sample (st : Renderer.state) (label : string) (count : N)
    (dataLabel : option string) (w x y z : R) (now : N) :
  Renderer.isCalibrating st = false -> Renderer.calibrated st = true ->
  let key := Renderer.payloadLabel dataLabel label in
  let calibratedQ := Renderer.applyCalibration (Renderer.qRef st) key (THREE.mk x y z w) in
  let st' := Renderer.handleSensorMessage label (Sample count dataLabel w x y z) now st in
  Renderer.csvRows st'
  = Renderer.csvRows st
    ++ [Renderer.mkRow key (THREE._w calibratedQ) (THREE._x calibratedQ)
          (THREE._y calibratedQ) (THREE._z calibratedQ) now] /\
  Renderer.sensorGlobal st' !! key
  = if bool_decide (key ∈ Renderer.order /\ is_Some (Renderer.boneMap st !! key))
    then Some (THREE.normalize calibratedQ) else Some calibratedQ.
Proof.
  intros Hcollecting Hcalibrated key calibratedQ st'. subst st'.
  unfold Renderer.handleSensorMessage. rewrite Hcollecting, Hcalibrated.
  fold key. fold calibratedQ.
  unfold Renderer.applySensorToBones;
    cbn [Renderer.sensorGlobal Renderer.boneMap Renderer.csvRows].
  split; [reflexivity |].
  rewrite retarget_order_pose. cbn [fst snd].
  rewrite lookup_insert_eq. reflexivity.
Qed.



(** ** The end-to-end example of the specification

    After a calibration, RA reports a quarter turn about Z while RFA
    reports the identity: the parent-relative orientation of RFA is the
    inverse of RA's rotation. *)

Lemma parentLocal_with_parent (pose : gmap string THREE.Quaternion)
    (label parent : string) (own parentQ : THREE.Quaternion) :
  pose !! label = Some own ->
  Renderer.parentLabel !! label = Some (Some parent) ->
  pose !! parent = Some parentQ ->
  parentLocal pose label = Some (THREE.multiply (inverse parentQ) own).
Proof.
  intros Hown Hp Hq. unfold parentLocal. rewrite Hown, Hp, Hq. reflexivity.
Qed.

Example quarter_turn_parent_relative :
  parentLocal (Renderer.sensorGlobal (Renderer.applySensorToBones examplePose)) "RFA"
  = Some (THREE.multiply (inverse quarterTurnZ) THREE.identity).
Proof.
  assert (Hra : Renderer.sensorGlobal (Renderer.applySensorToBones examplePose)
                  !! "RA"%string = Some quarterTurnZ).
  { apply retarget_unit_kept; [reflexivity | apply quarterTurnZ_unit]. }
  assert (Hrfa : Renderer.sensorGlobal (Renderer.applySensorToBones examplePose)
                   !! "RFA"%string = Some THREE.identity).
  { apply retarget_unit_kept; [reflexivity | apply length_identity]. }
  apply (parentLocal_with_parent _ "RFA" "RA"); [exact Hrfa | reflexivity | exact Hra].
Qed.

(** * Further properties of the code *)

(** ** Algebra of the correction *)

Lemma qnorm_scale (s : R) (q : quat) : 0 <= s -> qnorm (scaleQuat s q) = s * qnorm q.
Proof.
  intros Hs. unfold qnorm, hypot, scaleQuat; simpl.
  replace (s * Quat.w q * (s * Quat.w q) + s * Quat.x q * (s * Quat.x q)
           + s * Quat.y q * (s * Quat.y q) + s * Quat.z q * (s * Quat.z q))
    with (s * s * (Quat.w q * Quat.w q + Quat.x q * Quat.x q
                   + Quat.y q * Quat.y q + Quat.z q * Quat.z q)) by ring.
  rewrite sqrt_mult by (try apply sum_squares_nonneg; nra).
  rewrite sqrt_square by exact Hs. reflexivity.
Qed.

(** [normalize] of three.js, read on plain objects, forgets a positive
    factor. *)
Lemma normalize_scale (s : R) (q : quat) :
  0 < s ->
  THREE.normalize (fromPlain (scaleQuat s q)) = THREE.normalize (fromPlain q).
Proof.
  intros Hs.
  assert (Hlen : THREE.length (fromPlain (scaleQuat s q)) = s * THREE.length (fromPlain q)).
  { rewrite !length_fromPlain. apply qnorm_scale. lra. }
  destruct (Req_dec_T (THREE.length (fromPlain q)) 0) as [Hz | Hnz].
  - rewrite (normalize_zero (fromPlain q)) by exact Hz.
    apply normalize_zero. rewrite Hlen, Hz. ring.
  - rewrite (normalize_nonzero (fromPlain q)) by exact Hnz.
    rewrite normalize_nonzero by (rewrite Hlen; nra).
    rewrite Hlen. set (l := THREE.length (fromPlain q)) in *.
    unfold fromPlain, scaleQuat; simpl.
    f_equal; field; split; lra.
Qed.

Lemma hamilton_scale_r (s : R) (a b : quat) :
  hamilton a (scaleQuat s b) = scaleQuat s (hamilton a b).
Proof. unfold hamilton, scaleQuat; simpl. f_equal; ring. Qed.

(** [applyCalibration] with a reference, as one expression. *)
Lemma logger_applyCalibration_present (qRef : gmap string quat) (label : string)
    (ref qNow : quat) :
  qRef !! label = Some ref ->
  Logger.applyCalibration qRef label qNow
  = toPlain (THREE.normalize (fromPlain (hamilton (conjugateQuat ref) qNow))).
Proof.
  intros Href. rewrite logger_applyCalibration_plain.
  unfold Renderer.applyCalibration. rewrite Href. do 2 f_equal.
  rewrite <- (fromPlain_toPlain (THREE.multiply _ _)).
  rewrite toPlain_conj_multiply, toPlain_fromPlain. reflexivity.
Qed.

Lemma renderer_applyCalibration_present (qRef : gmap string quat) (label : string)
    (ref : quat) (qNow : THREE.Quaternion) :
  qRef !! label = Some ref ->
  Renderer.applyCalibration qRef label qNow
  = THREE.normalize (fromPlain (hamilton (conjugateQuat ref) (toPlain qNow))).
Proof.
  intros Href. unfold Renderer.applyCalibration. rewrite Href. f_equal.
  rewrite <- (fromPlain_toPlain (THREE.multiply _ _)).
  rewrite toPlain_conj_multiply. reflexivity.
Qed.

Lemma hamilton_conjugate_self (q : quat) :
  hamilton (conjugateQuat q) q
  = Quat.mk (Quat.w q * Quat.w q + Quat.x q * Quat.x q
             + Quat.y q * Quat.y q + Quat.z q * Quat.z q) 0 0 0.
Proof. destruct q. unfold hamilton, conjugateQuat; simpl. f_equal; ring. Qed.

Lemma normalize_nonneg_real (r : R) :
  0 <= r -> THREE.normalize (fromPlain (Quat.mk r 0 0 0)) = THREE.identity.
Proof.
  intros Hr.
  assert (Hlen : THREE.length (fromPlain (Quat.mk r 0 0 0)) = r).
  { unfold THREE.length, fromPlain; simpl.
    replace (0 * 0 + 0 * 0 + 0 * 0 + r * r) with (r * r) by ring.
    apply sqrt_square, Hr. }
  destruct (Req_dec_T r 0) as [Hz | Hnz].
  - apply normalize_zero. rewrite Hlen. exact Hz.
  - rewrite normalize_nonzero by (rewrite Hlen; exact Hnz).
    rewrite Hlen. unfold fromPlain, THREE.identity; simpl. f_equal; field; exact Hnz.
Qed.

(** X1: a live sample equal to the reference of its label is corrected
    to the identity, in both programs, whatever the reference is (the zero
    reference included). *)
Theorem correct_cancels_reference (qRef : gmap string quat) (label : string)
    (ref : quat) :
  qRef !! label = Some ref ->
  Logger.applyCalibration qRef label ref = identityQuat /\
  Renderer.applyCalibration qRef label (fromPlain ref) = THREE.identity.
Proof.
  intros Href.
  assert (H : Renderer.applyCalibration qRef label (fromPlain ref) = THREE.identity).
  { rewrite (renderer_applyCalibration_present _ _ _ _ Href), toPlain_fromPlain.
    rewrite hamilton_conjugate_self. apply normalize_nonneg_real.
    apply sum_squares_nonneg. }
  split; [| exact H].
  rewrite logger_applyCalibration_plain, H. reflexivity.
Qed.

Lemma correct_cancels_reference_witness :
  Logger.applyCalibration {[ "RA"%string := Quat.mk 0 1 0 0 ]} "RA" (Quat.mk 0 1 0 0)
  = identityQuat /\
  Renderer.applyCalibration {[ "RA"%string := Quat.mk 0 1 0 0 ]} "RA"
    (fromPlain (Quat.mk 0 1 0 0)) = THREE.identity.
Proof.
  apply correct_cancels_reference. apply lookup_singleton_eq.
Defined.

(** X2: with a reference present, the corrected sample does not depend
    on the norm of the live sample: scaling the sample by a positive factor
    gives the same result, in both programs, when the product
    [conjugate(ref) * sample] has its components in range before and after the
    scaling. *)
Theorem correct_scale_invariant (qRef : gmap string quat) (label : string)
    (ref : quat) (s : R) (qNow : quat) :
  qRef !! label = Some ref -> 0 < s ->
  let product := hamilton (conjugateQuat ref) qNow in
  componentsInRange product -> componentsInRange (scaleQuat s product) ->
  Logger.applyCalibration qRef label (scaleQuat s qNow)
  = Logger.applyCalibration qRef label qNow /\
  Renderer.applyCalibration qRef label (fromPlain (scaleQuat s qNow))
  = Renderer.applyCalibration qRef label (fromPlain qNow).
Proof.
  intros Href Hs product _ _.
  rewrite !(logger_applyCalibration_present _ _ _ _ Href).
  rewrite !(renderer_applyCalibration_present _ _ _ _ Href), !toPlain_fromPlain.
  rewrite hamilton_scale_r, normalize_scale by exact Hs. split; reflexivity.
Qed.

Lemma correct_scale_invariant_witness :
  Logger.applyCalibration {[ "RA"%string := identityQuat ]} "RA"
    (scaleQuat 2 (Quat.mk 0 1 0 0))
  = Logger.applyCalibration {[ "RA"%string := identityQuat ]} "RA" (Quat.mk 0 1 0 0) /\
  Renderer.applyCalibration {[ "RA"%string := identityQuat ]} "RA"
    (fromPlain (scaleQuat 2 (Quat.mk 0 1 0 0)))
  = Renderer.applyCalibration {[ "RA"%string := identityQuat ]} "RA"
      (fromPlain (Quat.mk 0 1 0 0)).
Proof.
  apply (correct_scale_invariant _ _ identityQuat).
  - apply lookup_singleton_eq.
  - lra.
  - rewrite hamilton_identity_l. unfold componentsInRange; simpl.
    split_and!; auto using zero_in_range, one_in_range.
  - rewrite hamilton_identity_l. unfold componentsInRange, scaleQuat; simpl.
    replace (2 * 0) with 0 by ring. replace (2 * 1) with 2 by ring.
    split_and!; auto using zero_in_range, two_in_range.
Defined.

Lemma hamilton_common_rotation (g ref q : quat) :
  hamilton (conjugateQuat (hamilton g ref)) (hamilton g q)
  = scaleQuat (Quat.w g * Quat.w g + Quat.x g * Quat.x g
               + Quat.y g * Quat.y g + Quat.z g * Quat.z g)
      (hamilton (conjugateQuat ref) q).
Proof.
  destruct g, ref, q. unfold hamilton, conjugateQuat, scaleQuat; simpl.
  f_equal; ring.
Qed.




(** ** Runs of a calibration *)

Lemma renderer_finish_lookup (st : Renderer.state) (label : string) :
  Renderer.qRef (Renderer.finishCalibration st) !! label =
    match Renderer.calibrationData st !! label with
    | Some ((_ :: _) as samples) =>
        if bool_decide (label ∈ Renderer.connected st)
        then Some (Renderer.normalizeQuat (averageSamples samples))
        else Renderer.qRef st !! label
    | _ => Renderer.qRef st !! label
    end.
Proof.
  unfold Renderer.finishCalibration; cbn [Renderer.qRef].
  destruct (Renderer.calibrationData st !! label) as [[| q samples] |] eqn:Hdata.
  - apply renderer_fold_calibrate_unchanged. right. right. exact Hdata.
  - case_bool_decide as Hin.
    + apply renderer_fold_calibrate_set; [exact Hin | exact Hdata | discriminate].
    + apply renderer_fold_calibrate_unchanged. left. exact Hin.
  - apply renderer_fold_calibrate_unchanged. right. left. exact Hdata.
Qed.

Lemma logger_finish_lookup (st : Logger.state) (label : string) :
  Logger.qRef (Logger.finishCalibration st) !! label =
    match Logger.calibrationData st !! label with
    | Some ((_ :: _) as samples) => Some (Logger.normalizeQuat (averageSamples samples))
    | _ => Logger.qRef st !! label
    end.
Proof. unfold Logger.finishCalibration; cbn [Logger.qRef]. apply logger_fold_calibrate. Qed.


(** [startCalibration] of the renderer empties the buffers of the
    connected labels and no other. *)
Lemma start_buffers (labels : list string) (data : gmap string (list quat))
    (label : string) :
  fold_left (fun data l => <[l := []]> data) labels data !! label
  = if bool_decide (label ∈ labels) then Some [] else data !! label.
Proof.
  revert data. induction labels as [| l labels IH]; intros data; simpl.
  - reflexivity.
  - rewrite IH. destruct (decide (label ∈ labels)) as [Hin | Hnot].
    + rewrite !bool_decide_eq_true_2; auto using list_elem_of_further.
    + rewrite (bool_decide_eq_false_2 _ Hnot).
      destruct (decide (l = label)) as [-> | Hne].
      * rewrite lookup_insert_eq, bool_decide_eq_true_2; auto using list_elem_of_here.
      * rewrite lookup_insert_ne by exact Hne.
        rewrite bool_decide_eq_false_2; [reflexivity |].
        intros Hin. apply elem_of_cons in Hin as [-> | Hin]; contradiction.
Qed.

(** One message while the renderer collects. *)
Lemma renderer_collect_one (d : delivery) (st : Renderer.state) :
  Renderer.isCalibrating st = true ->
  let st' := Renderer.handleSensorMessage (socketLabel d) (body d) (clock d) st in
  Renderer.isCalibrating st' = true /\
  Renderer.calibrated st' = Renderer.calibrated st /\
  Renderer.connected st' = Renderer.connected st /\
  Renderer.qRef st' = Renderer.qRef st /\
  Renderer.sensorGlobal st' = Renderer.sensorGlobal st /\
  Renderer.boneMap st' = Renderer.boneMap st /\
  Renderer.csvRows st' = Renderer.csvRows st /\
  forall label,
    Renderer.calibrationData st' !! label =
      match deliveredSample label d with
      | Some q => Some (default [] (Renderer.calibrationData st !! label) ++ [q])
      | None => Renderer.calibrationData st !! label
      end.
Proof.
  intros Hc st'. subst st'. unfold Renderer.handleSensorMessage, deliveredSample.
  destruct (body d) as [| | count dataLabel w x y z]; simpl.
  - repeat split; auto.
  - repeat split; auto.
  - rewrite Hc; simpl. split_and!; auto. intros label.
    destruct (String.eqb_spec (Renderer.payloadLabel dataLabel (socketLabel d)) label)
      as [<- | Hne].
    + apply lookup_insert_eq.
    + apply lookup_insert_ne, Hne.
Qed.

(** Any number of messages while the renderer collects. *)
Lemma renderer_collect_all (deliveries : list delivery) (st : Renderer.state) :
  Renderer.isCalibrating st = true ->
  let st' := handleAll deliveries st in
  Renderer.isCalibrating st' = true /\
  Renderer.calibrated st' = Renderer.calibrated st /\
  Renderer.connected st' = Renderer.connected st /\
  Renderer.qRef st' = Renderer.qRef st /\
  Renderer.sensorGlobal st' = Renderer.sensorGlobal st /\
  Renderer.boneMap st' = Renderer.boneMap st /\
  Renderer.csvRows st' = Renderer.csvRows st /\
  forall label,
    Renderer.calibrationData st' !! label =
      match samplesFor label deliveries with
      | [] => Renderer.calibrationData st !! label
      | samples =>
          Some (default [] (Renderer.calibrationData st !! label) ++ samples)
      end.
Proof.
  revert st. unfold handleAll, samplesFor.
  induction deliveries as [| d deliveries IH]; intros st Hc; cbn [fold_left].
  - repeat split; auto.
  - destruct (renderer_collect_one d st Hc)
      as (Hc1 & Hcal & Hconn & Href & Hpose & Hbones & Hrows & Hdata).
    destruct (IH _ Hc1) as (Hc2 & Hcal2 & Hconn2 & Href2 & Hpose2 & Hbones2 & Hrows2 & Hdata2).
    split_and!; try congruence.
    intros label. rewrite Hdata2, Hdata.
    change (omap (deliveredSample label) (d :: deliveries))
      with (match deliveredSample label d with
            | Some q => q :: omap (deliveredSample label) deliveries
            | None => omap (deliveredSample label) deliveries
            end).
    generalize (omap (deliveredSample label) deliveries). intros rest.
    destruct (deliveredSample label d) as [q |]; destruct rest as [| q' rest];
      simpl; try reflexivity.
    rewrite <- app_assoc. reflexivity.
Qed.

(** The reference of a label after a whole calibration of the renderer. *)
Lemma renderer_run_lookup (st : Renderer.state) (deliveries : list delivery)
    (label : string) :
  Renderer.qRef (Renderer.finishCalibration
                   (handleAll deliveries (Renderer.startCalibration st))) !! label
  = match samplesFor label deliveries with
    | [] => Renderer.qRef st !! label
    | _ :: _ =>
        if bool_decide (label ∈ Renderer.connected st)
        then Some (Renderer.normalizeQuat
                     (averageSamples (samplesFor label deliveries)))
        else Renderer.qRef st !! label
    end.
Proof.
  destruct (renderer_collect_all deliveries (Renderer.startCalibration st) eq_refl)
    as (_ & _ & Hconn & Href & _ & _ & _ & Hdata).
  rewrite renderer_finish_lookup, Hconn, Href, Hdata.
  cbn [Renderer.startCalibration Renderer.connected Renderer.qRef
       Renderer.calibrationData].
  rewrite start_buffers.
  destruct (samplesFor label deliveries) as [| q samples].
  - destruct (bool_decide (label ∈ Renderer.connected st)); [reflexivity |].
    destruct (Renderer.calibrationData st !! label) as [[| ? ?] |]; reflexivity.
  - destruct (bool_decide (label ∈ Renderer.connected st)); [reflexivity |].
    destruct (Renderer.calibrationData st !! label) as [[| ? ?] |]; reflexivity.
Qed.

Lemma renderer_run_set (st : Renderer.state) (deliveries : list delivery)
    (label : string) :
  label ∈ Renderer.connected st -> samplesFor label deliveries <> [] ->
  Renderer.qRef (Renderer.finishCalibration
                   (handleAll deliveries (Renderer.startCalibration st))) !! label
  = Some (Renderer.normalizeQuat (meanQuat (samplesFor label deliveries))).
Proof.
  intros Hin Hne. rewrite renderer_run_lookup, <- averageSamples_mean.
  destruct (samplesFor label deliveries); [contradiction |].
  rewrite (bool_decide_eq_true_2 _ Hin). reflexivity.
Qed.



(** One message while the logger collects, and any number of them. *)
Lemma logger_collect_one (data : payload) (st : Logger.state) :
  Logger.isCalibrating st = true ->
  let st' := Logger.onMessage data st in
  Logger.isCalibrating st' = true /\
  Logger.calibrated st' = Logger.calibrated st /\
  Logger.qRef st' = Logger.qRef st /\
  Logger.file st' = Logger.file st /\
  forall label,
    Logger.calibrationData st' !! label =
      match loggedSample label data with
      | Some q => Some (default [] (Logger.calibrationData st !! label) ++ [q])
      | None => Logger.calibrationData st !! label
      end.
Proof.
  intros Hc st'. subst st'. unfold Logger.onMessage, loggedSample.
  destruct data as [| | count dataLabel w x y z]; simpl.
  - repeat split; auto.
  - repeat split; auto.
  - rewrite Hc; simpl. split_and!; auto. intros label.
    destruct (String.eqb_spec (Logger.labelKey dataLabel) label) as [<- | Hne].
    + apply lookup_insert_eq.
    + apply lookup_insert_ne, Hne.
Qed.

Lemma logger_collect_all (messages : list payload) (st : Logger.state) :
  Logger.isCalibrating st = true ->
  let st' := onMessages messages st in
  Logger.isCalibrating st' = true /\
  Logger.calibrated st' = Logger.calibrated st /\
  Logger.qRef st' = Logger.qRef st /\
  Logger.file st' = Logger.file st /\
  forall label,
    Logger.calibrationData st' !! label =
      match loggedSamplesFor label messages with
      | [] => Logger.calibrationData st !! label
      | samples => Some (default [] (Logger.calibrationData st !! label) ++ samples)
      end.
Proof.
  revert st. unfold onMessages, loggedSamplesFor.
  induction messages as [| data messages IH]; intros st Hc; cbn [fold_left].
  - repeat split; auto.
  - destruct (logger_collect_one data st Hc) as (Hc1 & Hcal & Href & Hfile & Hdata).
    destruct (IH _ Hc1) as (Hc2 & Hcal2 & Href2 & Hfile2 & Hdata2).
    split_and!; try congruence.
    intros label. rewrite Hdata2, Hdata.
    change (omap (loggedSample label) (data :: messages))
      with (match loggedSample label data with
            | Some q => q :: omap (loggedSample label) messages
            | None => omap (loggedSample label) messages
            end).
    generalize (omap (loggedSample label) messages). intros rest.
    destruct (loggedSample label data) as [q |]; destruct rest as [| q' rest];
      simpl; try reflexivity.
    rewrite <- app_assoc. reflexivity.
Qed.

(** The reference of a label after a whole calibration of the logger. *)
Lemma logger_run_lookup (st : Logger.state) (messages : list payload)
    (label : string) :
  Logger.isCalibrating st = false ->
  Logger.qRef (Logger.finishCalibration
                 (onMessages messages (Logger.startCalibration st))) !! label
  = match loggedSamplesFor label messages with
    | [] => Logger.qRef st !! label
    | _ :: _ =>
        Some (Logger.normalizeQuat (averageSamples (loggedSamplesFor label messages)))
    end.
Proof.
  intros Hidle.
  assert (Hstart : Logger.startCalibration st
                   = Logger.mkState true (Logger.calibrated st) ∅ (Logger.qRef st)
                       (Logger.file st) (Logger.console st ++ [Logger.LogStarting])).
  { unfold Logger.startCalibration. rewrite Hidle. reflexivity. }
  rewrite Hstart.
  match goal with
  | |- context [onMessages messages ?s] =>
      destruct (logger_collect_all messages s eq_refl) as (_ & _ & Href & _ & Hdata)
  end.
  cbn [Logger.qRef Logger.calibrationData] in Href, Hdata.
  rewrite logger_finish_lookup, Href, Hdata, lookup_empty.
  destruct (loggedSamplesFor label messages); reflexivity.
Qed.

Lemma logger_run_set (st : Logger.state) (messages : list payload)
    (label : string) :
  Logger.isCalibrating st = false -> loggedSamplesFor label messages <> [] ->
  Logger.qRef (Logger.finishCalibration
                 (onMessages messages (Logger.startCalibration st))) !! label
  = Some (Logger.normalizeQuat (meanQuat (loggedSamplesFor label messages))).
Proof.
  intros Hidle Hne. rewrite (logger_run_lookup _ _ _ Hidle), <- averageSamples_mean.
  destruct (loggedSamplesFor label messages); [contradiction | reflexivity].
Qed.



(** X7: while a collection is on, no sample reaches the output: however
    many messages arrive, the renderer appends no CSV row and writes no pose
    entry and no bone, the logger writes no line to its file, and neither
    changes its reference table or its flags. *)
Theorem collection_is_silent :
  (forall (deliveries : list delivery) (st : Renderer.state),
     Renderer.isCalibrating st = true ->
     let st' := handleAll deliveries st in
     Renderer.csvRows st' = Renderer.csvRows st /\
     Renderer.sensorGlobal st' = Renderer.sensorGlobal st /\
     Renderer.boneMap st' = Renderer.boneMap st /\
     Renderer.qRef st' = Renderer.qRef st /\
     Renderer.isCalibrating st' = true /\
     Renderer.calibrated st' = Renderer.calibrated st) /\
  (forall (messages : list payload) (st : Logger.state),
     Logger.isCalibrating st = true ->
     let st' := onMessages messages st in
     Logger.file st' = Logger.file st /\
     Logger.qRef st' = Logger.qRef st /\
     Logger.isCalibrating st' = true /\
     Logger.calibrated st' = Logger.calibrated st).
Proof.
  split.
  - intros deliveries st Hc.
    destruct (renderer_collect_all deliveries st Hc)
      as (H1 & H2 & _ & H4 & H5 & H6 & H7 & _).
    cbv zeta. split_and!; assumption.
  - intros messages st Hc.
    destruct (logger_collect_all messages st Hc) as (H1 & H2 & H3 & H4 & _).
    cbv zeta. split_and!; assumption.
Qed.

Lemma collection_is_silent_witness :
  let st := Renderer.startCalibration examplePose in
  let deliveries := [mkDelivery "RA" (Sample 0 None 1 0 0 0) 10;
                     mkDelivery "RFA" Unparsable 11] in
  Renderer.csvRows (handleAll deliveries st) = Renderer.csvRows st /\
  Renderer.sensorGlobal (handleAll deliveries st) = Renderer.sensorGlobal st /\
  Renderer.boneMap (handleAll deliveries st) = Renderer.boneMap st /\
  Renderer.qRef (handleAll deliveries st) = Renderer.qRef st /\
  Renderer.isCalibrating (handleAll deliveries st) = true /\
  Renderer.calibrated (handleAll deliveries st) = Renderer.calibrated st.
Proof.
  intros st deliveries.
  destruct collection_is_silent as [Hrenderer _].
  apply Hrenderer. reflexivity.
Defined.

(** ** The retargeting pass as a whole *)

Lemma retarget_order_bones
    (tables : gmap string THREE.Quaternion * gmap string Renderer.Bone)
    (k : string) :
  snd (Renderer.retarget Renderer.order tables) !! k =
    match snd tables !! k, fst tables !! k with
    | Some bone, Some q =>
        if bool_decide (k ∈ Renderer.order)
        then Some (Renderer.mkBone (Renderer.bindQuat bone) (Renderer.bindInv bone)
                     (THREE.normalize
                        (Renderer.bindCorrected k bone
                           (Renderer.localSensorQuat
                              (fst (Renderer.retarget Renderer.order tables)) k
                              (THREE.normalize q)))))
        else Some bone
    | other, _ => other
    end.
Proof.
  destruct (snd tables !! k) as [bone |] eqn:Hbone.
  - destruct (fst tables !! k) as [q |] eqn:Hq.
    + case_bool_decide as Hin.
      * apply (retarget_order_visit tables k bone q Hin Hbone Hq).
      * destruct (retarget_other Renderer.order tables k Hin) as [_ ->]. exact Hbone.
    + destruct (retarget_skip Renderer.order tables k (or_intror Hq)) as [_ ->].
      exact Hbone.
  - destruct (retarget_skip Renderer.order tables k (or_introl Hbone)) as [_ ->].
    exact Hbone.
Qed.

Lemma bindCorrected_bind (label : string) (bone bone' : Renderer.Bone)
    (local : THREE.Quaternion) :
  Renderer.bindQuat bone' = Renderer.bindQuat bone ->
  Renderer.bindInv bone' = Renderer.bindInv bone ->
  Renderer.bindCorrected label bone' local = Renderer.bindCorrected label bone local.
Proof. intros Hq Hi. unfold Renderer.bindCorrected. rewrite Hq, Hi. reflexivity. Qed.

Lemma retarget_idempotent
    (tables : gmap string THREE.Quaternion * gmap string Renderer.Bone) :
  Renderer.retarget Renderer.order (Renderer.retarget Renderer.order tables)
  = Renderer.retarget Renderer.order tables.
Proof.
  set (once := Renderer.retarget Renderer.order tables).
  assert (Hunit : forall k q', k ∈ Renderer.order -> is_Some (snd once !! k) ->
                    fst once !! k = Some q' -> THREE.normalize q' = q').
  { intros k q' Hin Hbone' Hq'.
    pose proof (retarget_order_pose tables k) as Hp. fold once in Hp.
    pose proof (retarget_order_bones tables k) as Hb. fold once in Hb.
    rewrite Hq' in Hp.
    destruct (fst tables !! k) as [q |]; [| discriminate].
    destruct (snd tables !! k) as [bone |].
    - rewrite bool_decide_eq_true_2 in Hp
        by (split; [exact Hin | eexists; reflexivity]).
      injection Hp as ->. apply normalize_unit, length_normalize.
    - rewrite Hb in Hbone'. destruct Hbone' as [? ?]. discriminate. }
  assert (Hpose : fst (Renderer.retarget Renderer.order once) = fst once).
  { apply map_eq. intros k. rewrite (retarget_order_pose once k).
    destruct (fst once !! k) as [q' |] eqn:Hq'; [| reflexivity].
    case_bool_decide as Hcase; [| reflexivity].
    destruct Hcase as [Hin Hbone']. f_equal. eapply Hunit; eauto. }
  assert (Hbones : snd (Renderer.retarget Renderer.order once) = snd once).
  { apply map_eq. intros k. rewrite (retarget_order_bones once k), Hpose.
    destruct (snd once !! k) as [bone' |] eqn:Hbone'; [| reflexivity].
    destruct (fst once !! k) as [q' |] eqn:Hq'; [| reflexivity].
    case_bool_decide as Hin; [| reflexivity].
    rewrite (Hunit k q' Hin) by (rewrite ?Hbone'; eauto).
    pose proof (retarget_order_pose tables k) as Hp. fold once in Hp.
    pose proof (retarget_order_bones tables k) as Hb. fold once in Hb.
    rewrite Hq' in Hp. rewrite Hbone' in Hb.
    destruct (snd tables !! k) as [bone |]; [| discriminate].
    destruct (fst tables !! k) as [q |]; [| discriminate].
    rewrite (bool_decide_eq_true_2 _ Hin) in Hb.
    rewrite bool_decide_eq_true_2 in Hp
      by (split; [exact Hin | eexists; reflexivity]).
    injection Hp as Hp. injection Hb as Hb. rewrite <- Hp in Hb.
    rewrite (bindCorrected_bind k bone bone') by (rewrite Hb; reflexivity).
    rewrite Hb at 3. rewrite Hb. reflexivity. }
  destruct (Renderer.retarget Renderer.order once) as [pose2 bones2].
  destruct once as [pose1 bones1]. simpl in *. congruence.
Qed.


(** What a pass writes for a joint depends on the entries of the joint
    and on the pose entry of its parent (and on whether the parent has a
    bone), on nothing else. *)
Lemma retarget_local
    (t1 t2 : gmap string THREE.Quaternion * gmap string Renderer.Bone)
    (k : string) :
  fst t1 !! k = fst t2 !! k -> snd t1 !! k = snd t2 !! k ->
  (forall parent, Renderer.parentLabel !! k = Some (Some parent) ->
                  fst t1 !! parent = fst t2 !! parent /\
                  snd t1 !! parent = snd t2 !! parent) ->
  fst (Renderer.retarget Renderer.order t1) !! k
  = fst (Renderer.retarget Renderer.order t2) !! k /\
  snd (Renderer.retarget Renderer.order t1) !! k
  = snd (Renderer.retarget Renderer.order t2) !! k.
Proof.
  intros Hpose Hbones Hparent. split.
  - rewrite !retarget_order_pose, Hpose, Hbones. reflexivity.
  - rewrite !retarget_order_bones, Hpose, Hbones.
    destruct (snd t2 !! k) as [bone |]; [| reflexivity].
    destruct (fst t2 !! k) as [q |]; [| reflexivity].
    case_bool_decide; [| reflexivity].
    do 4 f_equal. apply localSensorQuat_ext.
    intros parent Hp. destruct (Hparent parent Hp) as [Hpp Hpb].
    rewrite !retarget_order_pose, Hpp, Hpb. reflexivity.
Qed.

(** X9: isolation of a live sample. In the calibrated renderer a sample
    filed under label A has, on every joint other than A and the children
    of A, the effect of a pass without the sample: their bone and pose
    entries come out the same; in a state a pass has already settled they
    do not change at all. The sample touches neither the buffers nor the
    references. *)
Theorem sample_isolation (st : Renderer.state) (label : string) (count : N)
    (dataLabel : option string) (w x y z : R) (now : N) (k : string) :
  Renderer.isCalibrating st = false -> Renderer.calibrated st = true ->
  k <> Renderer.payloadLabel dataLabel label ->
  Renderer.parentLabel !! k <> Some (Some (Renderer.payloadLabel dataLabel label)) ->
  let st' := Renderer.handleSensorMessage label (Sample count dataLabel w x y z)
               now st in
  Renderer.boneMap st' !! k = Renderer.boneMap (Renderer.applySensorToBones st) !! k /\
  Renderer.sensorGlobal st' !! k
  = Renderer.sensorGlobal (Renderer.applySensorToBones st) !! k /\
  Renderer.calibrationData st' = Renderer.calibrationData st /\
  Renderer.qRef st' = Renderer.qRef st /\
  (Renderer.applySensorToBones st = st ->
   Renderer.boneMap st' !! k = Renderer.boneMap st !! k /\
   Renderer.sensorGlobal st' !! k = Renderer.sensorGlobal st !! k).
Proof.
  intros Hcollecting Hcalibrated Hk Hparent st'. subst st'.
  unfold Renderer.handleSensorMessage. rewrite Hcollecting, Hcalibrated.
  set (A := Renderer.payloadLabel dataLabel label) in *.
  set (q := THREE.clone _).
  unfold Renderer.applySensorToBones;
    cbn [Renderer.sensorGlobal Renderer.boneMap Renderer.calibrationData Renderer.qRef].
  destruct (retarget_local (<[A := q]> (Renderer.sensorGlobal st), Renderer.boneMap st)
              (Renderer.sensorGlobal st, Renderer.boneMap st) k)
    as [Hpose Hbones].
  - cbn [fst]. apply lookup_insert_ne. congruence.
  - reflexivity.
  - intros parent Hp. cbn [fst snd]. split; [| reflexivity].
    apply lookup_insert_ne. intros ->. apply Hparent, Hp.
  - split_and!; auto.
    intros Hsettled.
    assert (Hst : Renderer.retarget Renderer.order
                    (Renderer.sensorGlobal st, Renderer.boneMap st)
                  = (Renderer.sensorGlobal st, Renderer.boneMap st)).
    { rewrite <- Hsettled at 3 4. unfold Renderer.applySensorToBones.
      cbn [Renderer.sensorGlobal Renderer.boneMap]. apply surjective_pairing. }
    rewrite Hst in Hpose, Hbones. split; assumption.
Qed.

Lemma sample_isolation_witness :
  let st := Renderer.applySensorToBones examplePose in
  let st' := Renderer.handleSensorMessage "RFA" (Sample 9 None 0 0 1 0) 20 st in
  Renderer.boneMap st' !! "RA"%string = Renderer.boneMap st !! "RA"%string /\
  Renderer.sensorGlobal st' !! "RA"%string = Renderer.sensorGlobal st !! "RA"%string.
Proof.
  intros st st'.
  apply (sample_isolation st "RFA" 9 None 0 0 1 0 20 "RA").
  - reflexivity.
  - reflexivity.
  - discriminate.
  - discriminate.
  - unfold st. unfold Renderer.applySensorToBones at 1.
    cbn [Renderer.applySensorToBones Renderer.sensorGlobal Renderer.boneMap
         Renderer.connected Renderer.calibrationData Renderer.qRef
         Renderer.isCalibrating Renderer.calibrated Renderer.csvRows
         Renderer.console].
    rewrite <- surjective_pairing, retarget_idempotent. reflexivity.
Defined.

(** X10: what a retargeting pass leaves alone. It adds no entry to and
    removes none from the pose table and the bone table, never changes the
    bind orientation or the inverse bind orientation of a bone, leaves the
    rotation of a joint without a pose entry and every label outside its
    order as they were, and touches no other variable of the script. *)
Theorem pass_frame (st : Renderer.state) (k : string) :
  let st' := Renderer.applySensorToBones st in
  (Renderer.sensorGlobal st' !! k = None <-> Renderer.sensorGlobal st !! k = None) /\
  (Renderer.boneMap st' !! k = None <-> Renderer.boneMap st !! k = None) /\
  (forall bone, Renderer.boneMap st !! k = Some bone ->
     exists bone', Renderer.boneMap st' !! k = Some bone' /\
                   Renderer.bindQuat bone' = Renderer.bindQuat bone /\
                   Renderer.bindInv bone' = Renderer.bindInv bone) /\
  ((k ∉ Renderer.order) \/ Renderer.sensorGlobal st !! k = None \/
   Renderer.boneMap st !! k = None ->
     Renderer.boneMap st' !! k = Renderer.boneMap st !! k /\
     Renderer.sensorGlobal st' !! k = Renderer.sensorGlobal st !! k) /\
  Renderer.connected st' = Renderer.connected st /\
  Renderer.calibrationData st' = Renderer.calibrationData st /\
  Renderer.qRef st' = Renderer.qRef st /\
  Renderer.isCalibrating st' = Renderer.isCalibrating st /\
  Renderer.calibrated st' = Renderer.calibrated st /\
  Renderer.csvRows st' = Renderer.csvRows st /\
  Renderer.console st' = Renderer.console st.
Proof.
  intros st'. subst st'. unfold Renderer.applySensorToBones.
  cbn [Renderer.sensorGlobal Renderer.boneMap Renderer.connected
       Renderer.calibrationData Renderer.qRef Renderer.isCalibrating
       Renderer.calibrated Renderer.csvRows Renderer.console].
  pose proof (retarget_order_pose (Renderer.sensorGlobal st, Renderer.boneMap st) k)
    as Hp.
  pose proof (retarget_order_bones (Renderer.sensorGlobal st, Renderer.boneMap st) k)
    as Hb.
  cbn [fst snd] in Hp, Hb.
  split_and!; try reflexivity.
  - rewrite Hp. destruct (Renderer.sensorGlobal st !! k); [| tauto].
    destruct (bool_decide _); split; intros Heq; discriminate Heq.
  - rewrite Hb. destruct (Renderer.boneMap st !! k); [| tauto].
    destruct (Renderer.sensorGlobal st !! k); [| split; intros Heq; discriminate Heq].
    destruct (bool_decide (k ∈ Renderer.order)); split; intros Heq; discriminate Heq.
  - intros bone Hbone. rewrite Hb, Hbone.
    destruct (Renderer.sensorGlobal st !! k); [| eauto].
    destruct (bool_decide (k ∈ Renderer.order)); eauto.
  - intros H. rewrite Hp, Hb.
    destruct H as [Hnot | [Hnone | Hnone]].
    + rewrite (bool_decide_eq_false_2 (k ∈ Renderer.order) Hnot).
      rewrite bool_decide_eq_false_2 by (intros [? _]; contradiction).
      destruct (Renderer.boneMap st !! k), (Renderer.sensorGlobal st !! k);
        split; reflexivity.
    + rewrite Hnone. destruct (Renderer.boneMap st !! k); split; reflexivity.
    + rewrite Hnone.
      rewrite bool_decide_eq_false_2 by (intros [_ [? ?]]; discriminate).
      destruct (Renderer.sensorGlobal st !! k); split; reflexivity.
Qed.

Lemma pass_frame_witness :
  Renderer.boneMap (Renderer.applySensorToBones examplePose) !! "HIPS"%string
  = Renderer.boneMap examplePose !! "HIPS"%string /\
  Renderer.sensorGlobal (Renderer.applySensorToBones examplePose) !! "HIPS"%string
  = Renderer.sensorGlobal examplePose !! "HIPS"%string.
Proof.
  destruct (pass_frame examplePose "HIPS") as (_ & _ & _ & Hkeep & _).
  apply Hkeep. right. left. reflexivity.
Defined.

Lemma multiply_identity_r (q : THREE.Quaternion) :
  THREE.multiply q THREE.identity = q.
Proof. destruct q. unfold THREE.multiply, THREE.identity; simpl. f_equal; ring. Qed.

Lemma invert_identity : THREE.invert THREE.identity = THREE.identity.
Proof. unfold THREE.invert, THREE.conjugate, THREE.identity; simpl. f_equal; ring. Qed.

(** X11: the rotation written in the calibration pose. A joint whose own
    pose entry, and whose parent's if there is one, is the identity gets
    the normalized bind orientation when it is the root and the normalized
    inverse bind orientation, not the bind orientation, otherwise. *)
Theorem calibration_pose_rotation (st : Renderer.state) (k : string)
    (bone : Renderer.Bone) :
  k ∈ Renderer.order ->
  Renderer.boneMap st !! k = Some bone ->
  Renderer.sensorGlobal st !! k = Some THREE.identity ->
  (forall parent q, Renderer.parentLabel !! k = Some (Some parent) ->
                    Renderer.sensorGlobal st !! parent = Some q ->
                    q = THREE.identity) ->
  exists written,
    Renderer.boneMap (Renderer.applySensorToBones st) !! k = Some written /\
    Renderer.quaternion written
    = THREE.normalize
        (if isRoot k then Renderer.bindQuat bone else Renderer.bindInv bone).
Proof.
  intros Hin Hbone Hpose Hparent.
  unfold Renderer.applySensorToBones; cbn [Renderer.boneMap].
  pose proof (retarget_order_bones (Renderer.sensorGlobal st, Renderer.boneMap st) k)
    as Hb.
  cbn [fst snd] in Hb.
  rewrite Hbone, Hpose, (bool_decide_eq_true_2 _ Hin) in Hb.
  set (tables := (Renderer.sensorGlobal st, Renderer.boneMap st)) in *.
  eexists. split; [exact Hb |]. cbn [Renderer.quaternion].
  rewrite (normalize_unit THREE.identity) by apply length_identity.
  assert (Hlocal : Renderer.localSensorQuat
                     (fst (Renderer.retarget Renderer.order tables)) k THREE.identity
                   = THREE.identity).
  { unfold Renderer.localSensorQuat, THREE.clone.
    destruct (Renderer.parentLabel !! k) as [[parent |] |] eqn:Hp; try reflexivity.
    destruct (truthy parent); [| reflexivity].
    rewrite (retarget_order_pose tables parent).
    unfold tables. cbn [fst snd].
    destruct (Renderer.sensorGlobal st !! parent) as [q |] eqn:Hq; [| reflexivity].
    rewrite (Hparent parent q eq_refl Hq).
    rewrite (normalize_unit THREE.identity) by apply length_identity.
    assert (Hid : THREE.multiply (THREE.invert THREE.identity) THREE.identity
                  = THREE.identity)
      by (rewrite invert_identity; apply multiply_identity_r).
    case_bool_decide; exact Hid. }
  rewrite Hlocal. unfold Renderer.bindCorrected, THREE.clone.
  rewrite (order_offset_identity k Hin), !multiply_identity_r, isRoot_hips.
  destruct (String.eqb k "HIPS"); reflexivity.
Qed.

Lemma calibration_pose_rotation_witness :
  exists written,
    Renderer.boneMap
      (Renderer.applySensorToBones
         (Renderer.mkState [] ∅ ∅ false true {[ "LUL"%string := THREE.identity ]}
            restSkeleton [] [])) !! "LUL"%string = Some written /\
    Renderer.quaternion written
    = THREE.normalize
        (if isRoot "LUL" then Renderer.bindQuat (Renderer.loadBone THREE.identity)
         else Renderer.bindInv (Renderer.loadBone THREE.identity)).
Proof.
  apply calibration_pose_rotation.
  - apply order_has_parent_entry. eexists. reflexivity.
  - reflexivity.
  - reflexivity.
  - intros parent q Hp Hq. cbn [Renderer.sensorGlobal] in Hq.
    apply lookup_singleton_Some in Hq as [_ <-]. reflexivity.
Defined.

(** ** Invariants of the two programs *)

Lemma handle_keeps_references (label : string) (data : payload) (now : N)
    (st : Renderer.state) :
  Renderer.qRef (Renderer.handleSensorMessage label data now st) = Renderer.qRef st /\
  Renderer.connected (Renderer.handleSensorMessage label data now st)
  = Renderer.connected st.
Proof.
  unfold Renderer.handleSensorMessage.
  destruct data as [| | count dataLabel w x y z]; try (split; reflexivity).
  destruct (Renderer.isCalibrating st); [split; reflexivity |].
  destruct (Renderer.calibrated st); split; reflexivity.
Qed.

Lemma logger_onMessage_keeps (data : payload) (st : Logger.state) :
  Logger.qRef (Logger.onMessage data st) = Logger.qRef st /\
  Logger.isCalibrating (Logger.onMessage data st) = Logger.isCalibrating st /\
  Logger.calibrated (Logger.onMessage data st) = Logger.calibrated st.
Proof.
  unfold Logger.onMessage.
  destruct data as [| | count dataLabel w x y z]; try (split_and!; reflexivity).
  destruct (Logger.isCalibrating st); split_and!; reflexivity.
Qed.

Lemma renderer_step_connected (st : Renderer.state) (a : rendererAction) :
  NoDup (Renderer.connected st) -> NoDup (Renderer.connected (rendererStep st a)).
Proof.
  intros Hinv. destruct a as [l | | | l data now]; cbn [rendererStep].
  - unfold Renderer.onOpen; cbn [Renderer.connected].
    case_bool_decide as Hin; [exact Hinv |].
    apply NoDup_app. split_and!.
    + exact Hinv.
    + intros x Hx Hx'. apply list_elem_of_singleton in Hx'. subst x. contradiction.
    + apply NoDup_singleton.
  - exact Hinv.
  - exact Hinv.
  - destruct (handle_keeps_references l data now st) as [_ ->]. exact Hinv.
Qed.

(** X13: the renderer never lists a label twice in [connected], however
    often its socket opens and whatever else happens in between; a label
    whose socket has opened is listed from then on. *)
Theorem connected_once (actions : list rendererAction) (st : Renderer.state) :
  NoDup (Renderer.connected st) ->
  NoDup (Renderer.connected (rendererRun actions st)) /\
  (forall label, label ∈ Renderer.connected st ->
                 label ∈ Renderer.connected (rendererRun actions st)) /\
  (forall label, SocketOpens label ∈ actions ->
                 label ∈ Renderer.connected (rendererRun actions st)).
Proof.
  revert st. unfold rendererRun.
  induction actions as [| a actions IH]; intros st Hinv; simpl.
  - split_and!; [exact Hinv | auto |]. intros label H. inversion H.
  - destruct (IH (rendererStep st a) (renderer_step_connected st a Hinv))
      as (Hnodup & Hkeep & Hopen).
    assert (Hstep : forall label, label ∈ Renderer.connected st ->
                                  label ∈ Renderer.connected (rendererStep st a)).
    { intros label Hin. destruct a as [l | | | l data now]; cbn [rendererStep];
        try exact Hin.
      - unfold Renderer.onOpen; cbn [Renderer.connected].
        case_bool_decide; [exact Hin |]. apply elem_of_app. left. exact Hin.
      - destruct (handle_keeps_references l data now st) as [_ ->]. exact Hin. }
    split_and!; [exact Hnodup | auto |].
    intros label Hin. apply elem_of_cons in Hin as [<- | Hin]; [| auto].
    apply Hkeep. cbn [rendererStep]. unfold Renderer.onOpen; cbn [Renderer.connected].
    case_bool_decide as Hl; [exact Hl |].
    apply elem_of_app. right. apply list_elem_of_here.
Qed.

Lemma connected_once_witness :
  NoDup (Renderer.connected
           (rendererRun [SocketOpens "RA"; CalibratePressed; SocketOpens "RA";
                         SocketOpens "LA"] Renderer.initial)).
Proof.
  apply (connected_once _ Renderer.initial). apply NoDup_nil_2.
Defined.

(** X14: completing a calibration a second time on the same buffers
    changes no reference: the table after two timeouts is the table after
    one, in both programs (the renderer arms one timeout per press of the
    button). *)
Theorem finishCalibration_idempotent :
  (forall st : Renderer.state,
     Renderer.qRef (Renderer.finishCalibration (Renderer.finishCalibration st))
     = Renderer.qRef (Renderer.finishCalibration st)) /\
  (forall st : Logger.state,
     Logger.qRef (Logger.finishCalibration (Logger.finishCalibration st))
     = Logger.qRef (Logger.finishCalibration st)).
Proof.
  split; intros st; apply map_eq; intros label.
  - rewrite (renderer_finish_lookup (Renderer.finishCalibration st)).
    cbn [Renderer.finishCalibration Renderer.calibrationData Renderer.connected].
    pose proof (renderer_finish_lookup st label) as H.
    destruct (Renderer.calibrationData st !! label) as [[| q samples] |];
      try reflexivity.
    destruct (bool_decide (label ∈ Renderer.connected st)); [| reflexivity].
    symmetry. exact H.
  - rewrite (logger_finish_lookup (Logger.finishCalibration st)).
    cbn [Logger.finishCalibration Logger.calibrationData].
    pose proof (logger_finish_lookup st label) as H.
    destruct (Logger.calibrationData st !! label) as [[| q samples] |];
      try reflexivity.
    symmetry. exact H.
Qed.


(** ** The live phase of the logger *)

Lemma logger_live_one (data : payload) (st : Logger.state) :
  Logger.isCalibrating st = false ->
  let st' := Logger.onMessage data st in
  exists rows,
    Logger.file st' = Logger.file st ++ rows /\
    map rowHeader rows = omap sampleHeader [data] /\
    (Logger.calibrated st = false -> map rowQuat rows = omap sampleQuat [data]) /\
    Logger.qRef st' = Logger.qRef st /\
    Logger.calibrationData st' = Logger.calibrationData st /\
    Logger.isCalibrating st' = false /\
    Logger.calibrated st' = Logger.calibrated st.
Proof.
  intros Hidle st'. subst st'. unfold Logger.onMessage.
  destruct data as [| | count dataLabel w x y z].
  - exists []. rewrite app_nil_r. split_and!; auto.
  - exists []. rewrite app_nil_r. split_and!; auto.
  - rewrite Hidle. eexists [_]. split_and!; try reflexivity; try exact Hidle.
    intros Hraw. rewrite Hraw. reflexivity.
Qed.

(** X16: outside a collection the logger writes exactly one line per
    sample, in the order of arrival and with the count and label of the
    message, and nothing for any other message; before the first calibration
    has completed the quaternion of each line is the sample as received. It
    changes neither references, buffers nor flags. *)
Theorem logger_live_rows (messages : list payload) (st : Logger.state) :
  Logger.isCalibrating st = false ->
  let st' := onMessages messages st in
  exists rows,
    Logger.file st' = Logger.file st ++ rows /\
    map rowHeader rows = omap sampleHeader messages /\
    (Logger.calibrated st = false -> map rowQuat rows = omap sampleQuat messages) /\
    Logger.qRef st' = Logger.qRef st /\
    Logger.calibrationData st' = Logger.calibrationData st /\
    Logger.isCalibrating st' = false /\
    Logger.calibrated st' = Logger.calibrated st.
Proof.
  revert st. unfold onMessages.
  induction messages as [| data messages IH]; intros st Hidle; cbn [fold_left].
  - exists []. rewrite app_nil_r. split_and!; auto.
  - destruct (logger_live_one data st Hidle)
      as (rows1 & Hfile1 & Hhead1 & Hraw1 & Href1 & Hdata1 & Hidle1 & Hcal1).
    destruct (IH _ Hidle1)
      as (rows2 & Hfile2 & Hhead2 & Hraw2 & Href2 & Hdata2 & Hidle2 & Hcal2).
    exists (rows1 ++ rows2). split_and!; try congruence.
    + rewrite Hfile2, Hfile1, app_assoc. reflexivity.
    + rewrite map_app, Hhead1, Hhead2.
      change (data :: messages) with ([data] ++ messages).
      rewrite omap_app. reflexivity.
    + intros Hraw. rewrite map_app, (Hraw1 Hraw), Hraw2 by congruence.
      change (data :: messages) with ([data] ++ messages).
      rewrite omap_app. reflexivity.
Qed.

Lemma logger_live_rows_witness :
  exists rows,
    Logger.file (onMessages [Sample 4 (Some "RA"%string) 2 0 0 0; NoQuaternion;
                             Sample 5 None 0 1 0 0] Logger.initial)
    = Logger.file Logger.initial ++ rows /\
    map rowHeader rows = [(4%N, "RA"%string); (5%N, "undefined"%string)] /\
    map rowQuat rows = [Quat.mk 2 0 0 0; Quat.mk 0 1 0 0].
Proof.
  destruct (logger_live_rows [Sample 4 (Some "RA"%string) 2 0 0 0; NoQuaternion;
                               Sample 5 None 0 1 0 0] Logger.initial eq_refl)
    as (rows & Hfile & Hhead & Hraw & _).
  exists rows. split_and!; [exact Hfile | exact Hhead | apply Hraw; reflexivity].
Defined.

(** ** A second start during a collection *)

Lemma onMessages_app (m1 m2 : list payload) (st : Logger.state) :
  onMessages (m1 ++ m2) st = onMessages m2 (onMessages m1 st).
Proof. unfold onMessages. apply fold_left_app. Qed.



(** ** Loading the model *)

Lemma names_fold_lookup (names : gmap string string) (name : string)
    (bone : Renderer.Bone) (bones : gmap string Renderer.Bone) (label : string) :
  map_fold
    (fun l boneName acc =>
       if String.eqb name boneName then <[l := bone]> acc else acc)
    bones names !! label
  = match names !! label with
    | Some boneName => if String.eqb name boneName then Some bone else bones !! label
    | None => bones !! label
    end.
Proof.
  apply (map_fold_weak_ind
           (fun acc (m : gmap string string) =>
              acc !! label =
                match m !! label with
                | Some boneName =>
                    if String.eqb name boneName then Some bone else bones !! label
                | None => bones !! label
                end)).
  - rewrite lookup_empty. reflexivity.
  - intros l boneName m acc Hfresh IH.
    destruct (decide (l = label)) as [-> | Hne].
    + rewrite lookup_insert_eq. rewrite Hfresh in IH.
      destruct (String.eqb name boneName); [apply lookup_insert_eq | exact IH].
    + rewrite (lookup_insert_ne m) by exact Hne. rewrite <- IH.
      destruct (String.eqb name boneName); [apply lookup_insert_ne, Hne | reflexivity].
Qed.

Lemma mapBone_lookup (bones : gmap string Renderer.Bone) (child : Node)
    (label : string) :
  mapBone bones child !! label =
    match Renderer.labelToBoneName !! label with
    | Some boneName =>
        if isBone child && String.eqb (nodeName child) boneName
        then Some (Renderer.loadBone (nodeQuaternion child))
        else bones !! label
    | None => bones !! label
    end.
Proof.
  unfold mapBone. destruct (isBone child); cbn [andb].
  - apply names_fold_lookup.
  - destruct (Renderer.labelToBoneName !! label); reflexivity.
Qed.

Lemma loadModel_origin (nodes : list Node) (bones : gmap string Renderer.Bone)
    (label : string) (bone : Renderer.Bone) :
  loadModel nodes bones !! label = Some bone ->
  (exists child, child ∈ nodes /\ isBone child = true /\
                 Renderer.labelToBoneName !! label = Some (nodeName child) /\
                 bone = Renderer.loadBone (nodeQuaternion child)) \/
  bones !! label = Some bone.
Proof.
  revert bones. unfold loadModel.
  induction nodes as [| child nodes IH]; intros bones H; simpl in H.
  - right. exact H.
  - destruct (IH _ H) as [(c & Hin & Hc) | Hstep].
    + left. exists c. split; [right; exact Hin | exact Hc].
    + rewrite mapBone_lookup in Hstep.
      destruct (Renderer.labelToBoneName !! label) as [boneName |] eqn:Hname;
        [| right; exact Hstep].
      destruct (isBone child) eqn:Hbone; simpl in Hstep; [| right; exact Hstep].
      destruct (String.eqb_spec (nodeName child) boneName) as [<- | Hne];
        [| right; exact Hstep].
      left. exists child. injection Hstep as <-.
      split_and!; [left | exact Hbone | reflexivity | reflexivity].
Qed.

Lemma loadModel_keeps (nodes : list Node) (bones : gmap string Renderer.Bone)
    (label : string) :
  is_Some (bones !! label) -> is_Some (loadModel nodes bones !! label).
Proof.
  revert bones. unfold loadModel.
  induction nodes as [| child nodes IH]; intros bones H; simpl.
  - exact H.
  - apply IH. rewrite mapBone_lookup.
    destruct (Renderer.labelToBoneName !! label); [| exact H].
    destruct (isBone child && String.eqb (nodeName child) s); [eauto | exact H].
Qed.

Lemma loadModel_maps (nodes : list Node) (bones : gmap string Renderer.Bone)
    (child : Node) (label : string) :
  child ∈ nodes -> isBone child = true ->
  Renderer.labelToBoneName !! label = Some (nodeName child) ->
  is_Some (loadModel nodes bones !! label).
Proof.
  intros Hin Hbone Hname. revert bones.
  induction nodes as [| c nodes IH]; intros bones.
  - inversion Hin.
  - apply elem_of_cons in Hin as [<- | Hin].
    + unfold loadModel; simpl. apply loadModel_keeps.
      rewrite mapBone_lookup, Hname, Hbone, String.eqb_refl. simpl. eauto.
    + unfold loadModel; simpl. apply (IH Hin).
Qed.

(** X19: what the traversal of the loaded model maps. Started from an
    empty table, a label is mapped exactly when the model holds a bone whose
    name is the one [labelToBoneName] gives the label, and the bone it is
    mapped to carries the rest orientation of such a bone as [bindQuat] and
    its conjugate as [bindInv]. *)
Theorem loadModel_maps_named_bones (nodes : list Node) (label : string) :
  (forall bone, loadModel nodes ∅ !! label = Some bone ->
     exists child, child ∈ nodes /\ isBone child = true /\
                   Renderer.labelToBoneName !! label = Some (nodeName child) /\
                   Renderer.bindQuat bone = nodeQuaternion child /\
                   Renderer.bindInv bone = THREE.conjugate (nodeQuaternion child)) /\
  (forall child, child ∈ nodes -> isBone child = true ->
     Renderer.labelToBoneName !! label = Some (nodeName child) ->
     is_Some (loadModel nodes ∅ !! label)).
Proof.
  split.
  - intros bone H. destruct (loadModel_origin nodes ∅ label bone H)
      as [(child & Hin & Hbone & Hname & ->) | Hempty].
    + exists child. split_and!; auto.
    + rewrite lookup_empty in Hempty. discriminate Hempty.
  - intros child. apply loadModel_maps.
Qed.

Lemma loadModel_maps_named_bones_witness :
  is_Some (loadModel [mkNode "Armature" false THREE.identity;
                      mkNode "mixamorigHips" true quarterTurnZ] ∅ !! "HIPS"%string).
Proof.
  destruct (loadModel_maps_named_bones
              [mkNode "Armature" false THREE.identity;
               mkNode "mixamorigHips" true quarterTurnZ] "HIPS") as [_ Hmapped].
  apply (Hmapped (mkNode "mixamorigHips" true quarterTurnZ)).
  - right. left.
  - reflexivity.
  - reflexivity.
Defined.

Lemma parent_named (label parent : string) :
  Renderer.parentLabel !! label = Some (Some parent) ->
  is_Some (Renderer.labelToBoneName !! parent).
Proof. intros H. parent_cases H; eexists; reflexivity. Qed.

Lemma order_named (label : string) :
  label ∈ Renderer.order -> is_Some (Renderer.labelToBoneName !! label).
Proof. intros H. order_cases H; eexists; reflexivity. Qed.

(** X20: a model that holds a bone for each of the twelve names, every
    bone at a rest orientation of unit norm, loads into a valid skeleton in
    which every joint of the retargeting order is mapped. *)
Theorem loadModel_valid (nodes : list Node) :
  (forall child, child ∈ nodes -> isBone child = true ->
                 THREE.length (nodeQuaternion child) = 1) ->
  (forall label boneName,
     Renderer.labelToBoneName !! label = Some boneName ->
     exists child, child ∈ nodes /\ isBone child = true /\ nodeName child = boneName) ->
  validSkeleton (loadModel nodes ∅) /\
  (forall label, label ∈ Renderer.order -> is_Some (loadModel nodes ∅ !! label)).
Proof.
  intros Hunit Hall.
  assert (Hmapped : forall label, is_Some (Renderer.labelToBoneName !! label) ->
                                  is_Some (loadModel nodes ∅ !! label)).
  { intros label [boneName Hname].
    destruct (Hall label boneName Hname) as (child & Hin & Hbone & <-).
    apply (loadModel_maps nodes ∅ child label Hin Hbone Hname). }
  split; [split |].
  - intros label parent _ Hp. apply Hmapped, (parent_named label), Hp.
  - intros label bone H.
    destruct (loadModel_origin nodes ∅ label bone H)
      as [(child & Hin & Hbone & _ & ->) | Hempty].
    + split; [apply Hunit; assumption | reflexivity].
    + rewrite lookup_empty in Hempty. discriminate Hempty.
  - intros label Hin. apply Hmapped, order_named, Hin.
Qed.

Lemma loadModel_valid_witness :
  validSkeleton (loadModel restModel ∅) /\
  (forall label, label ∈ Renderer.order -> is_Some (loadModel restModel ∅ !! label)).
Proof.
  apply loadModel_valid.
  - intros child Hin _. unfold restModel in Hin.
    apply list_elem_of_fmap in Hin as (entry & -> & _). apply length_identity.
  - intros label boneName Hname.
    exists (mkNode boneName true THREE.identity). split_and!; try reflexivity.
    unfold restModel. apply list_elem_of_fmap.
    exists (label, boneName). split; [reflexivity |].
    apply elem_of_map_to_list, Hname.
Defined.

(** ** What a run of the renderer keeps *)

Lemma handle_rows (label : string) (data : payload) (now : N) (st : Renderer.state) :
  exists rows,
    Renderer.csvRows (Renderer.handleSensorMessage label data now st)
    = Renderer.csvRows st ++ rows /\
    (List.length rows <= if isSample data then 1 else 0)%nat.
Proof.
  unfold Renderer.handleSensorMessage.
  destruct data as [| | count dataLabel w x y z];
    try (exists []; rewrite app_nil_r; split; [reflexivity | simpl; lia]).
  destruct (Renderer.isCalibrating st);
    [exists []; rewrite app_nil_r; split; [reflexivity | simpl; lia] |].
  destruct (Renderer.calibrated st);
    [| exists []; rewrite app_nil_r; split; [reflexivity | simpl; lia]].
  eexists [_]. split; [reflexivity | simpl; lia].
Qed.

(** X22: the rows collected for the CSV export are append-only. Over any
    run the rows present at the start stay where they are, and at most one
    row is added per sample message. *)
Theorem csv_append_only (actions : list rendererAction) (st : Renderer.state) :
  exists rows,
    Renderer.csvRows (rendererRun actions st) = Renderer.csvRows st ++ rows /\
    (List.length rows <= rendererSamples actions)%nat.
Proof.
  revert st. unfold rendererRun, rendererSamples.
  induction actions as [| a actions IH]; intros st; cbn [fold_left].
  - exists []. rewrite app_nil_r. split; [reflexivity | simpl; lia].
  - destruct (IH (rendererStep st a)) as (rows2 & Hrows2 & Hlen2).
    assert (Hstep : exists rows1,
               Renderer.csvRows (rendererStep st a) = Renderer.csvRows st ++ rows1 /\
               (List.length rows1 <= if countsAsSample a then 1 else 0)%nat).
    { destruct a as [l | | | l data now]; cbn [rendererStep countsAsSample];
        try (exists []; rewrite app_nil_r; split; [reflexivity | simpl; lia]).
      apply handle_rows. }
    destruct Hstep as (rows1 & Hrows1 & Hlen1).
    exists (rows1 ++ rows2). split.
    + rewrite Hrows2, Hrows1, app_assoc. reflexivity.
    + rewrite length_app. cbn [List.filter].
      destruct (countsAsSample a); simpl; lia.
Qed.

Lemma renderer_step_calibrated (st : Renderer.state) (a : rendererAction) :
  Renderer.calibrated st = true -> Renderer.calibrated (rendererStep st a) = true.
Proof.
  intros H. destruct a as [l | | | l data now]; cbn [rendererStep]; try exact H.
  - reflexivity.
  - unfold Renderer.handleSensorMessage.
    destruct data as [| | count dataLabel w x y z]; try exact H.
    destruct (Renderer.isCalibrating st); [exact H |].
    rewrite H. reflexivity.
Qed.

Lemma logger_step_calibrated (st : Logger.state) (a : loggerAction) :
  Logger.calibrated st = true -> Logger.calibrated (loggerStep st a) = true.
Proof.
  intros H. destruct a as [| | data]; cbn [loggerStep].
  - unfold Logger.startCalibration. destruct (Logger.isCalibrating st); exact H.
  - reflexivity.
  - destruct (logger_onMessage_keeps data st) as (_ & _ & ->). exact H.
Qed.

(** X23: once a calibration has completed, both programs stay
    calibrated: no later start, message or timeout clears the flag, so the
    renderer, which drops samples only while uncalibrated and idle, never
    drops one again outside a collection. *)
Theorem calibrated_for_good :
  (forall (actions : list rendererAction) (st : Renderer.state),
     Renderer.calibrated st = true ->
     Renderer.calibrated (rendererRun actions st) = true) /\
  (forall (actions : list loggerAction) (st : Logger.state),
     Logger.calibrated st = true ->
     Logger.calibrated (loggerRun actions st) = true).
Proof.
  split.
  - intros actions. unfold rendererRun.
    induction actions as [| a actions IH]; intros st H; cbn [fold_left].
    + exact H.
    + apply IH, renderer_step_calibrated, H.
  - intros actions. unfold loggerRun.
    induction actions as [| a actions IH]; intros st H; cbn [fold_left].
    + exact H.
    + apply IH, logger_step_calibrated, H.
Qed.

Lemma calibrated_for_good_witness :
  Renderer.calibrated
    (rendererRun [CalibratePressed; MessageArrives "RA" Unparsable 3]
       (Renderer.finishCalibration Renderer.initial)) = true.
Proof.
  destruct calibrated_for_good as [Hrenderer _].
  apply Hrenderer. reflexivity.
Defined.

(** ** At the edge of the range of numbers *)

(** X24: three.js's [normalize] at the two ends of the range. A
    quaternion whose four components are of magnitude at most [2^-538],
    zero or not, is reset to the identity: its squares underflow and its
    length is computed as zero. A quaternion with a component of magnitude
    at least [2^512] becomes the zero quaternion: the square overflows, the
    length is [Infinity] and every component is multiplied by
    [1 / Infinity]. [normalizeQuat], which takes the norm with [Math.hypot],
    scales the tiny sample [[0, t, 0, 0]] to [{0, 1, 0, 0}]. *)
Theorem normalize_out_of_range :
  (forall q : THREE.Quaternion,
     Rabs (THREE._x q) <= / 2 ^ 538 -> Rabs (THREE._y q) <= / 2 ^ 538 ->
     Rabs (THREE._z q) <= / 2 ^ 538 -> Rabs (THREE._w q) <= / 2 ^ 538 ->
     Double.THREE.normalize (quaternionOfReals q) = Double.THREE.identity) /\
  (forall q : THREE.Quaternion,
     2 ^ 512 <= Rabs (THREE._x q) \/ 2 ^ 512 <= Rabs (THREE._y q) \/
     2 ^ 512 <= Rabs (THREE._z q) \/ 2 ^ 512 <= Rabs (THREE._w q) ->
     Double.THREE.normalize (quaternionOfReals q)
     = Double.THREE.mk (Double.Num 0) (Double.Num 0) (Double.Num 0) (Double.Num 0)) /\
  (forall t : R,
     Double.MIN_VALUE <= t ->  t <= / 2 ^ 538 ->
     Double.Renderer.normalizeQuat (Double.ofReals (Quat.mk 0 t 0 0))
     = Double.ofReals (Quat.mk 0 1 0 0) /\
     Double.Logger.normalizeQuat (Double.ofReals (Quat.mk 0 t 0 0))
     = Double.ofReals (Quat.mk 0 1 0 0)).
Proof.
  split_and!.
  - intros q Hx Hy Hz Hw. destruct q as [x y z w].
    unfold Double.THREE.normalize, Double.THREE.length, quaternionOfReals.
    cbn [THREE._x THREE._y THREE._z THREE._w Double.THREE._x Double.THREE._y
         Double.THREE._z Double.THREE._w] in *.
    rewrite !square_underflows by assumption. rewrite !add_zero_zero.
    cbn [Double.sqrt]. destruct (Rlt_dec 0 0); [lra |].
    rewrite sqrt_0. cbn [Double.isZero].
    destruct (Req_dec_T 0 0); [reflexivity | contradiction].
  - intros q Hbig. unfold Double.THREE.normalize.
    rewrite (length_overflows q Hbig). cbn [Double.isZero Double.div].
    destruct q as [x y z w]. unfold quaternionOfReals.
    cbn [THREE._x THREE._y THREE._z THREE._w Double.THREE._x Double.THREE._y
         Double.THREE._z Double.THREE._w].
    rewrite !mul_zero_r. reflexivity.
  - intros t Hlow Hhigh.
    pose proof MIN_VALUE_pos as Hmin.
    assert (Hlen : Double.hypot (Double.Num 0) (Double.Num t) (Double.Num 0)
                     (Double.Num 0) = Double.Num t).
    { cbn [Double.hypot].
      replace (0 * 0 + t * t + 0 * 0 + 0 * 0) with (t * t) by ring.
      rewrite sqrt_square by lra. apply round_exact.
      - rewrite Rabs_pos_eq by lra. lra.
      - rewrite Rabs_pos_eq by lra.
        apply Rle_lt_trans with (/ 2 ^ 538); [exact Hhigh |].
        apply Rle_lt_trans with (/ 2 ^ 0); [apply pow2_inv_le; lia |].
        simpl (2 ^ 0). rewrite Rinv_1.
        apply Rlt_le_trans with (2 ^ 1); [simpl; lra | apply overflowThreshold_ge; lia]. }
    assert (Hone : Double.div (Double.Num t) (Double.Num t) = Double.Num 1).
    { cbn [Double.div]. destruct (Req_dec_T t 0); [lra |].
      replace (t / t) with 1 by (field; lra). apply round_exact.
      - rewrite Rabs_R1. lra.
      - rewrite Rabs_R1.
        apply Rlt_le_trans with (2 ^ 1); [simpl; lra | apply overflowThreshold_ge; lia]. }
    assert (Hzero : Double.div (Double.Num 0) (Double.Num t) = Double.Num 0)
      by (apply div_zero_num; lra).
    unfold Double.Renderer.normalizeQuat, Double.Logger.normalizeQuat, Double.ofReals.
    cbn [Quat.w Quat.x Quat.y Quat.z Double.w Double.x Double.y Double.z].
    rewrite Hlen, Hone, Hzero. cbn [Double.isPositive Double.isZero].
    destruct (Rlt_dec 0 t); [| lra]. destruct (Req_dec_T t 0); [lra |].
    split; reflexivity.
Qed.

Lemma normalize_out_of_range_witness :
  Double.THREE.normalize (quaternionOfReals (THREE.mk 0 (/ 2 ^ 600) 0 0))
  = Double.THREE.identity /\
  Double.THREE.normalize (quaternionOfReals (THREE.mk 0 0 0 (2 ^ 600)))
  = Double.THREE.mk (Double.Num 0) (Double.Num 0) (Double.Num 0) (Double.Num 0) /\
  Double.Renderer.normalizeQuat (Double.ofReals (Quat.mk 0 (/ 2 ^ 600) 0 0))
  = Double.ofReals (Quat.mk 0 1 0 0).
Proof.
  assert (Hzero : Rabs 0 <= / 2 ^ 538).
  { rewrite Rabs_R0. apply Rlt_le, Rinv_0_lt_compat, pow2_pos. }
  assert (Htiny : / 2 ^ 600 <= / 2 ^ 538) by (apply pow2_inv_le; lia).
  assert (Hpos : 0 < / 2 ^ 600) by apply Rinv_0_lt_compat, pow2_pos.
  destruct normalize_out_of_range as (Hsmall & Hbig & Hhypot).
  split_and!.
  - apply (Hsmall (THREE.mk 0 (/ 2 ^ 600) 0 0));
      cbn [THREE._x THREE._y THREE._z THREE._w]; try exact Hzero.
    rewrite Rabs_pos_eq by lra. exact Htiny.
  - apply (Hbig (THREE.mk 0 0 0 (2 ^ 600))).
    right. right. right. cbn [THREE._w].
    rewrite Rabs_pos_eq by (apply Rlt_le, pow2_pos). apply pow2_le. lia.
  - apply (Hhypot (/ 2 ^ 600)); [| exact Htiny].
    unfold Double.MIN_VALUE. apply pow2_inv_le. lia.
Defined.

(** X25: what [applyCalibration] returns for a label the reference
    table does not hold. When the label names no property of
    [Object.prototype] the lookup is [undefined] and the sample comes back
    unchanged. When it names one, as [constructor] or [toString] do, the
    lookup finds the inherited property, which is truthy: the components
    read from it are [undefined], the conjugate built from them holds [NaN],
    and the result is [NaN] in every component, in both programs. *)
Theorem lookup_of_missing_label (qRef : gmap string Double.quat) (label : string)
    (qNow : Double.THREE.Quaternion) :
  qRef !! label = None ->
  (label ∉ objectPrototype ->
   Double.Renderer.applyCalibration qRef label qNow = qNow /\
   Double.Logger.applyCalibration qRef label (Double.toPlain qNow)
   = Double.toPlain qNow) /\
  (label ∈ objectPrototype ->
   Double.Renderer.applyCalibration qRef label qNow
   = Double.THREE.mk Double.NaN Double.NaN Double.NaN Double.NaN /\
   Double.Logger.applyCalibration qRef label (Double.toPlain qNow)
   = Double.mkQuat Double.NaN Double.NaN Double.NaN Double.NaN).
Proof.
  intros Hnone.
  pose proof (applyCalibration_missing qRef label qNow Hnone) as Hrenderer.
  split; intros Hlabel; rewrite applyCalibration_agree_number, Hrenderer.
  - rewrite bool_decide_eq_false_2 by exact Hlabel. split; reflexivity.
  - rewrite bool_decide_eq_true_2 by exact Hlabel. split; reflexivity.
Qed.

Lemma lookup_of_missing_label_witness :
  Double.Renderer.applyCalibration ∅ "RA" Double.THREE.identity
  = Double.THREE.identity /\
  Double.Logger.applyCalibration ∅ "constructor" (Double.toPlain Double.THREE.identity)
  = Double.mkQuat Double.NaN Double.NaN Double.NaN Double.NaN.
Proof.
  destruct (lookup_of_missing_label ∅ "RA" Double.THREE.identity (lookup_empty _))
    as [Habsent _].
  destruct (lookup_of_missing_label ∅ "constructor" Double.THREE.identity
              (lookup_empty _)) as [_ Hinherited].
  split.
  - apply Habsent. apply (bool_decide_unpack _). vm_compute. exact I.
  - apply Hinherited. apply (bool_decide_unpack _). vm_compute. exact I.
Defined.

(** X26: within the range the operations of the norm and of the two
    normalizations neither overflow nor underflow. On a quaternion whose
    components are each zero or of magnitude from [2^-511] to [2^510],
    [normalize] of three.js and [normalizeQuat] of both programs, computed
    on numbers with their range, return what the exact arithmetic
    returns. *)
Theorem normalization_exact_in_range (q : quat) :
  componentsInRange q ->
  Double.THREE.normalize (quaternionOfReals (fromPlain q))
  = quaternionOfReals (THREE.normalize (fromPlain q)) /\
  Double.Renderer.normalizeQuat (Double.ofReals q)
  = Double.ofReals (Renderer.normalizeQuat q) /\
  Double.Logger.normalizeQuat (Double.ofReals q)
  = Double.ofReals (Logger.normalizeQuat q).
Proof.
  intros Hq. split_and!.
  - apply normalize_exact. rewrite toPlain_fromPlain. exact Hq.
  - apply normalizeQuat_exact, Hq.
  - rewrite normalizeQuat_agree_number, normalizeQuat_agree.
    + apply normalizeQuat_exact, Hq.
    + destruct (hypot_exact q Hq) as [Hlen _]. unfold Double.ofReals.
      cbn [Double.w Double.x Double.y Double.z]. rewrite Hlen. discriminate.
Qed.

Lemma normalization_exact_in_range_witness :
  Double.THREE.normalize (quaternionOfReals (fromPlain (Quat.mk 2 0 0 0)))
  = quaternionOfReals (THREE.normalize (fromPlain (Quat.mk 2 0 0 0))) /\
  Double.Renderer.normalizeQuat (Double.ofReals (Quat.mk 2 0 0 0))
  = Double.ofReals (Renderer.normalizeQuat (Quat.mk 2 0 0 0)) /\
  Double.Logger.normalizeQuat (Double.ofReals (Quat.mk 2 0 0 0))
  = Double.ofReals (Logger.normalizeQuat (Quat.mk 2 0 0 0)).
Proof.
  apply normalization_exact_in_range.
  assert (Hzero : componentInRange 0) by (left; reflexivity).
  split_and!; cbn [Quat.w Quat.x Quat.y Quat.z]; try exact Hzero.
  right. rewrite Rabs_pos_eq by lra. split.
  - apply Rle_trans with 1; [| lra]. rewrite <- Rinv_1.
    apply Rinv_le_contravar; [lra |].
    replace 1 with (2 ^ 0) at 1 by reflexivity. apply pow2_le. lia.
  - replace 2 with (2 ^ 1) at 1 by (simpl; ring). apply pow2_le. lia.
Defined.
